(** * Support tickets SLA analytics: a shallow embedding of [app/app.py]

    The development follows the source file top to bottom:
    text cells and the company-name normaliser, binary64 arithmetic as
    numpy performs it, the ticket upload with its upsert, the SLA join
    with the two exceed percentages, and the four reports. *)

From Stdlib Require Import ZArith NArith List Bool Lia String Ascii.
From Stdlib Require Import Permutation.
From Stdlib Require Import Floats.SpecFloat.
Import ListNotations.

Local Open Scope Z_scope.

(** ** Python text

    A Python [str] is a sequence of Unicode code points. *)

Definition pychar := N.
Definition pystr := list pychar.

Definition py (s : string) : pystr :=
  map N_of_ascii (list_ascii_of_string s).

Definition pystr_eqb (a b : pystr) : bool :=
  if list_eq_dec N.eq_dec a b then true else false.

(** [Py_UNICODE_ISSPACE]: the predicate behind both [str.strip()] and the
    regular expression class [\s] on text patterns. *)
Definition isspace (c : pychar) : bool :=
  (((9 <=? c) && (c <=? 13)) || ((28 <=? c) && (c <=? 32))
   || (c =? 133) || (c =? 160) || (c =? 5760)
   || ((8192 <=? c) && (c <=? 8202))
   || (c =? 8232) || (c =? 8233) || (c =? 8239) || (c =? 8287)
   || (c =? 12288))%N.

Definition SPACE : pychar := 32%N.

Module Normalizer.

(** [s.lstrip()] *)
Fixpoint lstrip (s : pystr) : pystr :=
  match s with
  | [] => []
  | c :: s' => if isspace c then lstrip s' else s
  end.

(** [s.rstrip()] *)
Definition rstrip (s : pystr) : pystr := rev (lstrip (rev s)).

(** [s.strip()] *)
Definition strip (s : pystr) : pystr := rstrip (lstrip s).

(** [re.sub(r"\s+", " ", s)]: every maximal run of white space becomes one
    space.  [in_run] tells that the previous character belonged to a run
    whose replacement has already been emitted. *)
Fixpoint sub_ws (in_run : bool) (s : pystr) : pystr :=
  match s with
  | [] => []
  | c :: s' =>
      if isspace c
      then (if in_run then sub_ws true s' else SPACE :: sub_ws true s')
      else c :: sub_ws false s'
  end.

(** [astype(str)] on a text cell: a missing value prints as ["nan"]. *)
Definition astype_str (v : option pystr) : pystr :=
  match v with
  | Some s => s
  | None => py "nan"
  end.

(** The company-name pipeline of both uploads:
    [.astype(str).str.strip().str.replace(r"\s+", " ", regex=True)]. *)
Definition normalize_company (v : option pystr) : pystr :=
  sub_ws false (strip (astype_str v)).

(** *** Shape of a normalised name *)

(** No white space at the end. *)
Fixpoint no_trail (s : pystr) : bool :=
  match s with
  | [] => true
  | c :: s' =>
      match s' with
      | [] => negb (isspace c)
      | _ :: _ => no_trail s'
      end
  end.

(** No white space at the front. *)
Definition no_lead (s : pystr) : bool :=
  match s with
  | [] => true
  | c :: _ => negb (isspace c)
  end.

(** Every white-space character is a single space followed by text. *)
Fixpoint tidy (s : pystr) : bool :=
  match s with
  | [] => true
  | c :: s' =>
      if isspace c
      then (c =? SPACE)%N && (match s' with [] => false | d :: _ => negb (isspace d) end)
           && tidy s'
      else tidy s'
  end.

Lemma lstrip_no_lead s : no_lead (lstrip s) = true.
Proof.
  induction s as [|c s IH]; simpl; auto.
  destruct (isspace c) eqn:E; auto. simpl. now rewrite E.
Qed.

Lemma lstrip_fixed s : no_lead s = true -> lstrip s = s.
Proof.
  destruct s as [|c s]; simpl; auto.
  destruct (isspace c); simpl; congruence.
Qed.

Lemma no_trail_app_single s c :
  no_trail (s ++ [c]) = negb (isspace c).
Proof.
  induction s as [|d s IH]; simpl; auto.
  destruct (s ++ [c]) eqn:E; auto.
  destruct s; discriminate.
Qed.

Lemma no_trail_rev s : no_lead s = true -> no_trail (rev s) = true.
Proof.
  destruct s as [|c s]; simpl; auto.
  intros H. now rewrite no_trail_app_single.
Qed.

Lemma rstrip_no_trail s : no_trail (rstrip s) = true.
Proof. unfold rstrip. apply no_trail_rev, lstrip_no_lead. Qed.

Lemma no_lead_rev s : no_trail s = true -> no_lead (rev s) = true.
Proof.
  intros H. rewrite <- (rev_involutive s) in H.
  destruct (rev s) as [|c r]; auto.
  simpl in H. rewrite no_trail_app_single in H. exact H.
Qed.

Lemma rstrip_fixed s : no_trail s = true -> rstrip s = s.
Proof.
  intros H. unfold rstrip.
  rewrite lstrip_fixed by now apply no_lead_rev.
  apply rev_involutive.
Qed.

(** Stripping the right end keeps the left end clean. *)
Lemma lstrip_app_spaces s :
  exists p, s = p ++ lstrip s /\ forallb isspace p = true.
Proof.
  induction s as [|c s [p [Hs Hp]]]; simpl.
  - exists []. auto.
  - destruct (isspace c) eqn:E.
    + exists (c :: p). simpl. rewrite E, Hp. split; [now f_equal | reflexivity].
    + exists []. auto.
Qed.

Lemma rstrip_prefix s :
  exists p, s = rstrip s ++ p /\ forallb isspace p = true.
Proof.
  destruct (lstrip_app_spaces (rev s)) as [p [Hs Hp]].
  exists (rev p). split.
  - unfold rstrip. rewrite <- rev_app_distr, <- Hs. symmetry. apply rev_involutive.
  - rewrite forallb_forall in *. intros x Hx. apply Hp. now apply in_rev.
Qed.

Lemma rstrip_no_lead s : no_lead s = true -> no_lead (rstrip s) = true.
Proof.
  intros H. destruct (rstrip_prefix s) as [p [Hs Hp]].
  destruct (rstrip s) as [|c r] eqn:E; auto.
  rewrite Hs in H. exact H.
Qed.

Lemma strip_shape s :
  no_lead (strip s) = true /\ no_trail (strip s) = true.
Proof.
  unfold strip. split.
  - apply rstrip_no_lead, lstrip_no_lead.
  - apply rstrip_no_trail.
Qed.

Lemma strip_fixed s :
  no_lead s = true -> no_trail s = true -> strip s = s.
Proof.
  intros H1 H2. unfold strip. rewrite lstrip_fixed by assumption.
  now apply rstrip_fixed.
Qed.

(** *** What the substitution produces *)

Lemma sub_ws_run_head s :
  s <> [] -> no_trail s = true ->
  exists d r, sub_ws true s = d :: r /\ isspace d = false.
Proof.
  induction s as [|c s IH]; [congruence|]. intros _ H.
  simpl. destruct (isspace c) eqn:E.
  - destruct s as [|c' s'].
    + simpl in H. rewrite E in H. discriminate.
    + apply IH; [discriminate | exact H].
  - eauto.
Qed.

Lemma tidy_space_cons d r :
  isspace d = false -> tidy (d :: r) = true -> tidy (SPACE :: d :: r) = true.
Proof.
  intros Hd Ht. change (tidy (SPACE :: d :: r))
    with (true && negb (isspace d) && tidy (d :: r)).
  now rewrite Hd, Ht.
Qed.

Lemma sub_ws_tidy s :
  no_trail s = true -> forall b, tidy (sub_ws b s) = true.
Proof.
  induction s as [|c s IH]; intros H b; [reflexivity|].
  cbn [sub_ws]. destruct (isspace c) eqn:E.
  - destruct s as [|c' s'].
    + simpl in H. rewrite E in H. discriminate.
    + assert (Hs : no_trail (c' :: s') = true) by exact H.
      destruct b; [now apply IH|].
      destruct (sub_ws_run_head (c' :: s')) as [d [r [Hd Hsp]]];
        [discriminate | exact Hs |].
      rewrite Hd. apply tidy_space_cons; [exact Hsp|].
      rewrite <- Hd. now apply IH.
  - cbn [tidy]. rewrite E. apply IH.
    destruct s; [reflexivity | exact H].
Qed.

Lemma sub_ws_no_lead s :
  no_lead s = true -> no_lead (sub_ws false s) = true.
Proof.
  destruct s as [|c s]; simpl; auto.
  destruct (isspace c) eqn:E; simpl; [discriminate|]. now rewrite E.
Qed.

Lemma tidy_no_trail s : tidy s = true -> no_trail s = true.
Proof.
  induction s as [|c s IH]; simpl; auto.
  destruct (isspace c) eqn:E.
  - destruct s as [|d s']; intros H.
    + rewrite andb_false_r in H. discriminate.
    + apply IH. now apply andb_prop in H.
  - destruct s as [|d s']; auto.
Qed.

Lemma tidy_sub_ws s : tidy s = true -> sub_ws false s = s.
Proof.
  induction s as [|c s IH]; simpl; auto.
  destruct (isspace c) eqn:E; intros H.
  - apply andb_prop in H. destruct H as [H Ht].
    apply andb_prop in H. destruct H as [Hc Hd].
    apply N.eqb_eq in Hc. subst c.
    destruct s as [|d s']; [discriminate|].
    specialize (IH Ht). simpl in IH |- *.
    destruct (isspace d); [discriminate|].
    now rewrite IH.
  - now rewrite IH.
Qed.

Lemma normalize_shape v :
  no_lead (normalize_company v) = true /\ tidy (normalize_company v) = true.
Proof.
  unfold normalize_company.
  destruct (strip_shape (astype_str v)) as [H1 H2]. split.
  - now apply sub_ws_no_lead.
  - now apply sub_ws_tidy.
Qed.

End Normalizer.

(** C7. Normalising a company name a second time changes nothing, for every
    cell (a text, or a missing value, which prints as ["nan"]), and
    ["Acme   Inc. "] becomes ["Acme Inc."]. *)
Theorem normalize_company_idempotent :
  (forall v : option pystr,
     Normalizer.normalize_company (Some (Normalizer.normalize_company v))
     = Normalizer.normalize_company v)
  /\ Normalizer.normalize_company (Some (py "Acme   Inc. ")) = py "Acme Inc.".
Proof.
  split; [|reflexivity].
  intros v.
  destruct (Normalizer.normalize_shape v) as [Hl Ht].
  set (n := Normalizer.normalize_company v) in *.
  unfold Normalizer.normalize_company at 1. simpl Normalizer.astype_str.
  rewrite Normalizer.strip_fixed; auto using Normalizer.tidy_no_trail.
  now apply Normalizer.tidy_sub_ws.
Qed.

(** ** Binary64 arithmetic

    numpy and pandas compute on IEEE 754 binary64 values with rounding to
    nearest, ties to even.  The operations are those of the Standard
    Library's executable specification, at precision 53 and maximal
    exponent 1024. *)

Module F64.

Definition prec : Z := 53.
Definition emax : Z := 1024.

Definition float : Set := spec_float.

Definition nan : float := S754_nan.
Definition zero : float := S754_zero false.
Definition pinf : float := S754_infinity false.
Definition ninf : float := S754_infinity true.

(** Conversion of an integer, as in [int64 -> float64] casts. *)
Definition of_Z (z : Z) : float := binary_normalize prec emax z 0 false.

Definition add : float -> float -> float := SFadd prec emax.
Definition sub : float -> float -> float := SFsub prec emax.
Definition mul : float -> float -> float := SFmul prec emax.
Definition div : float -> float -> float := SFdiv prec emax.

Definition ltb : float -> float -> bool := SFltb.
Definition leb : float -> float -> bool := SFleb.
Definition eqb : float -> float -> bool := SFeqb.

Definition is_nan (x : float) : bool :=
  match x with S754_nan => true | _ => false end.

Definition is_inf (x : float) : bool :=
  match x with S754_infinity _ => true | _ => false end.

(** [np.isfinite] *)
Definition is_finite (x : float) : bool :=
  match x with S754_zero _ | S754_finite _ _ _ => true | _ => false end.

Definition one : float := of_Z 1.
Definition sixty : float := of_Z 60.
Definition hundred : float := of_Z 100.

(** [np.maximum(a, b)]: [(a >= b || isnan(a)) ? a : b]. *)
Definition maximum (a b : float) : float :=
  if leb b a || is_nan a then a else b.

(** [np.clip(a, lo, None)], which numpy evaluates as [np.maximum(a, lo)]. *)
Definition clip_min (a lo : float) : float := maximum a lo.

(** The sign bit of a number; [None] for NaN. *)
Definition sign_of (x : float) : option bool :=
  match x with
  | S754_nan => None
  | S754_zero s | S754_infinity s | S754_finite s _ _ => Some s
  end.

(** Strictly positive: a positive finite number or plus infinity. *)
Definition is_pos (x : float) : bool :=
  match x with
  | S754_finite false _ _ | S754_infinity false => true
  | _ => false
  end.

(** *** Rounding keeps the sign *)

Section Sign.
Variables p e : Z.

Lemma shr_1_nonneg mrs : 0 <= shr_m mrs -> 0 <= shr_m (shr_1 mrs).
Proof.
  destruct mrs as [m r s]. simpl.
  destruct m as [|[q|q|]|[q|q|]]; simpl; lia.
Qed.

Lemma iter_shr_1_nonneg n : forall mrs,
  0 <= shr_m mrs -> 0 <= shr_m (iter_pos shr_1 n mrs).
Proof.
  induction n as [n IH|n IH|]; intros mrs H; simpl.
  - apply IH, IH, shr_1_nonneg, H.
  - apply IH, IH, H.
  - apply shr_1_nonneg, H.
Qed.

Lemma shr_nonneg mrs ex n :
  0 <= shr_m mrs -> 0 <= shr_m (fst (shr mrs ex n)).
Proof.
  intros H. destruct n; simpl; auto. now apply iter_shr_1_nonneg.
Qed.

Lemma shr_m_of_loc m l : shr_m (shr_record_of_loc m l) = m.
Proof. destruct l as [|[ | | ]]; reflexivity. Qed.

Lemma shr_fexp_nonneg m ex l :
  0 <= m -> 0 <= shr_m (fst (shr_fexp p e m ex l)).
Proof.
  intros H. unfold shr_fexp. apply shr_nonneg. now rewrite shr_m_of_loc.
Qed.

Lemma round_nearest_even_nonneg m l :
  0 <= m -> 0 <= round_nearest_even m l.
Proof.
  intros H. destruct l as [|[ | | ]]; simpl; try lia.
  destruct (Z.even m); lia.
Qed.

(** The rounding step never invents a NaN and never flips the sign. *)
Lemma binary_round_aux_sign sx mx ex lx :
  0 <= mx -> sign_of (binary_round_aux p e sx mx ex lx) = Some sx.
Proof.
  intros H. unfold binary_round_aux.
  pose proof (shr_fexp_nonneg mx ex lx H) as H1.
  destruct (shr_fexp p e mx ex lx) as [mrs' e'] eqn:E1. simpl in H1.
  pose proof (shr_fexp_nonneg
                (round_nearest_even (shr_m mrs') (loc_of_shr_record mrs'))
                e' loc_Exact (round_nearest_even_nonneg _ _ H1)) as H2.
  destruct (shr_fexp p e (round_nearest_even _ _) e' loc_Exact)
    as [mrs'' e''] eqn:E2. simpl in H2.
  destruct (shr_m mrs'') as [|m|m]; [reflexivity| |lia].
  destruct (e'' <=? e - p); reflexivity.
Qed.

Lemma binary_round_sign sx mx ex :
  sign_of (binary_round p e sx mx ex) = Some sx.
Proof.
  unfold binary_round.
  destruct (shl_align mx ex _) as [mz ez].
  apply binary_round_aux_sign. lia.
Qed.

Lemma SFdiv_core_nonneg m1 e1 m2 e2 :
  0 <= fst (fst (SFdiv_core_binary p e (Zpos m1) e1 (Zpos m2) e2)).
Proof.
  unfold SFdiv_core_binary.
  set (s := _ - _ - _).
  set (m' := match s with Z0 => _ | Zpos _ => _ | Zneg _ => _ end).
  assert (Hm : 0 <= m').
  { subst m'. destruct s; try lia. apply Z.shiftl_nonneg. lia. }
  pose proof (Z.div_pos m' (Zpos m2) Hm ltac:(lia)) as Hq.
  unfold Z.div in Hq.
  destruct (Z.div_eucl m' (Zpos m2)) as [q r]. exact Hq.
Qed.

End Sign.

Lemma of_Z_sign z :
  sign_of (of_Z z) = Some (z <? 0).
Proof.
  unfold of_Z, binary_normalize. destruct z; [reflexivity| |];
    apply binary_round_sign.
Qed.

(** Sign of a product: the exclusive or of the signs, unless the product
    is the invalid [0 * inf]. *)
Lemma mul_sign x y a b :
  sign_of x = Some a -> sign_of y = Some b ->
  sign_of (mul x y) = Some (xorb a b) \/ mul x y = nan.
Proof.
  destruct x as [sx|sx| |sx mx ex], y as [sy|sy| |sy my ey];
    simpl; intros Hx Hy; try discriminate;
    inversion Hx; inversion Hy; subst; auto.
  left. apply binary_round_aux_sign. lia.
Qed.

Lemma div_sign x y a b :
  sign_of x = Some a -> sign_of y = Some b ->
  sign_of (div x y) = Some (xorb a b) \/ div x y = nan.
Proof.
  destruct x as [sx|sx| |sx mx ex], y as [sy|sy| |sy my ey];
    simpl; intros Hx Hy; try discriminate;
    inversion Hx; inversion Hy; subst; auto.
  left. unfold div, SFdiv.
  pose proof (SFdiv_core_nonneg prec emax mx ex my ey) as Hq.
  destruct (SFdiv_core_binary prec emax (Zpos mx) ex (Zpos my) ey)
    as [[mz ez] lz]. simpl in Hq.
  now apply binary_round_aux_sign.
Qed.

(** A quotient is NaN only for NaN operands, [0/0] and [inf/inf]. *)
Lemma div_nan x y :
  div x y = nan ->
  is_nan x = true \/ is_nan y = true
  \/ (is_inf x = true /\ is_inf y = true)
  \/ (exists s t, x = S754_zero s /\ y = S754_zero t).
Proof.
  destruct x as [sx|sx| |sx mx ex], y as [sy|sy| |sy my ey];
    simpl; intros H; try discriminate; auto.
  - right. right. right. eauto.
  - exfalso.
    destruct (div_sign (S754_finite sx mx ex) (S754_finite sy my ey) sx sy
                eq_refl eq_refl) as [Hs|Hs].
    + unfold div in Hs. simpl in Hs. rewrite H in Hs. discriminate.
    + pose proof (SFdiv_core_nonneg prec emax mx ex my ey) as Hq.
      destruct (SFdiv_core_binary prec emax (Zpos mx) ex (Zpos my) ey)
        as [[mz ez] lz]. simpl in Hq.
      pose proof (binary_round_aux_sign prec emax (xorb sx sy) mz ez lz Hq) as Hb.
      rewrite H in Hb. discriminate.
Qed.

Lemma mul_nan x y :
  mul x y = nan ->
  is_nan x = true \/ is_nan y = true
  \/ (is_inf x = true /\ is_finite y = true /\ exists t, y = S754_zero t)
  \/ (is_inf y = true /\ exists s, x = S754_zero s).
Proof.
  destruct x as [sx|sx| |sx mx ex], y as [sy|sy| |sy my ey];
    simpl; intros H; try discriminate; auto.
  - right. right. right. eauto.
  - right. right. left. eauto.
  - exfalso.
    pose proof (binary_round_aux_sign prec emax (xorb sx sy)
                  (Zpos (mx * my)) (ex + ey) loc_Exact ltac:(lia)) as Hb.
    rewrite H in Hb. discriminate.
Qed.

(** Comparison with zero, read off the sign. *)
Lemma ltb_zero_is_pos x : ltb zero x = is_pos x.
Proof. destruct x as [s|[|]| |[|] m ex]; reflexivity. Qed.

Lemma is_pos_sign x : is_pos x = true -> sign_of x = Some false.
Proof. destruct x as [s|[|]| |[|] m ex]; cbv; congruence. Qed.

Lemma sign_true_not_pos x : sign_of x = Some true -> is_pos x = false.
Proof. destruct x as [s|[|]| |[|] m ex]; cbv; congruence. Qed.

Lemma sign_false_leb_zero x : sign_of x = Some false -> leb zero x = true.
Proof. destruct x as [s|[|]| |[|] m ex]; cbv; congruence. Qed.

Lemma sign_false_not_neg x : sign_of x = Some false -> ltb x zero = false.
Proof. destruct x as [s|[|]| |[|] m ex]; cbv; congruence. Qed.

End F64.

(** ** Ordering and stable sorting

    [DataFrame.sort_values] on several keys is a stable sort.  It is
    modelled by insertion from the right, which keeps rows with equal keys
    in their original order. *)

Module StableSort.

Section Sort.
Variable A : Type.
Variable leb : A -> A -> bool.

Fixpoint insert (x : A) (l : list A) : list A :=
  match l with
  | [] => [x]
  | y :: l' => if leb x y then x :: l else y :: insert x l'
  end.

Definition sort (l : list A) : list A := fold_right insert [] l.

(** Rows that the order cannot tell apart. *)
Definition equiv (x y : A) : bool := leb x y && leb y x.

Inductive sorted : list A -> Prop :=
| sorted_nil : sorted []
| sorted_cons x l :
    (forall y, In y l -> leb x y = true) -> sorted l -> sorted (x :: l).

Lemma insert_In x l y : In y (insert x l) <-> y = x \/ In y l.
Proof.
  induction l as [|z l IH]; simpl.
  - intuition.
  - destruct (leb x z); simpl; rewrite ?IH; intuition.
Qed.

Lemma sort_In l y : In y (sort l) <-> In y l.
Proof.
  induction l as [|x l IH]; simpl; [tauto|].
  rewrite insert_In, IH. intuition.
Qed.

Lemma insert_length x l : List.length (insert x l) = S (List.length l).
Proof.
  induction l as [|z l IH]; simpl; auto.
  destruct (leb x z); simpl; auto.
Qed.

Lemma sort_length l : List.length (sort l) = List.length l.
Proof.
  induction l as [|x l IH]; simpl; auto.
  now rewrite insert_length, IH.
Qed.

Lemma sorted_app_inv l1 l2 :
  sorted (l1 ++ l2) ->
  sorted l1 /\ sorted l2 /\
  forall x y, In x l1 -> In y l2 -> leb x y = true.
Proof.
  induction l1 as [|a l1 IH]; simpl; intros H.
  - repeat split; [constructor | exact H | contradiction].
  - inversion H as [|? ? Hall Hs]; subst.
    destruct (IH Hs) as [H1 [H2 H3]]. repeat split; auto.
    + constructor; auto. intros y Hy. apply Hall, in_or_app. now left.
    + intros x y [->|Hx] Hy; auto. apply Hall, in_or_app. now right.
Qed.

Hypothesis leb_total : forall x y, leb x y = true \/ leb y x = true.
Hypothesis leb_trans :
  forall x y z, leb x y = true -> leb y z = true -> leb x z = true.

Lemma insert_sorted x l : sorted l -> sorted (insert x l).
Proof.
  induction 1 as [|z l Hall Hs IH]; simpl.
  - constructor; [intros y []|constructor].
  - destruct (leb x z) eqn:E.
    + constructor; [|now constructor].
      intros y [->|Hy]; auto. eapply leb_trans; eauto.
    + constructor; auto.
      intros y Hy. apply insert_In in Hy. destruct Hy as [->|Hy]; auto.
      destruct (leb_total x z); congruence.
Qed.

Lemma sort_sorted l : sorted (sort l).
Proof.
  induction l as [|x l IH]; simpl; [constructor|now apply insert_sorted].
Qed.

Lemma insert_nodup x l : ~ In x l -> NoDup l -> NoDup (insert x l).
Proof.
  induction l as [|z l IH]; simpl; intros Hx Hl.
  - constructor; [intros []|constructor].
  - inversion Hl as [|? ? Hz Hl']; subst.
    destruct (leb x z).
    + constructor; auto.
    + constructor; [|apply IH; tauto].
      rewrite insert_In. intros [->|H]; tauto.
Qed.

Lemma sort_nodup l : NoDup l -> NoDup (sort l).
Proof.
  induction 1 as [|x l Hx Hl IH]; simpl; [constructor|].
  apply insert_nodup; auto. now rewrite sort_In.
Qed.

(** Stability: the rows of one equivalence class keep their order. *)
Lemma insert_filter_equiv k x l :
  filter (equiv k) (insert x l) = filter (equiv k) (x :: l).
Proof.
  induction l as [|z l IH]; [reflexivity|].
  simpl insert. destruct (leb x z) eqn:E; [reflexivity|].
  change (filter (equiv k) (z :: insert x l))
    with (if equiv k z then z :: filter (equiv k) (insert x l)
          else filter (equiv k) (insert x l)).
  rewrite IH. simpl.
  destruct (equiv k z) eqn:Ez, (equiv k x) eqn:Ex; try reflexivity.
  exfalso. unfold equiv in Ez, Ex.
  apply andb_prop in Ez, Ex. destruct Ez as [Ez1 Ez2], Ex as [Ex1 Ex2].
  rewrite (leb_trans x k z Ex2 Ez1) in E. discriminate.
Qed.

Lemma sort_stable k l :
  filter (equiv k) (sort l) = filter (equiv k) l.
Proof.
  induction l as [|x l IH]; [reflexivity|].
  simpl sort. rewrite insert_filter_equiv. simpl. now rewrite IH.
Qed.

End Sort.

(** A list whose filtered image ends with [r] splits at the last row that
    passes the filter. *)
Lemma filter_last_split {A} (p : A -> bool) l m r :
  filter p l = m ++ [r] ->
  exists l1 l2, l = l1 ++ r :: l2 /\ filter p l1 = m
                /\ forall x, In x l2 -> p x = false.
Proof.
  revert m. induction l as [|a l IH]; intros m H; simpl in H.
  - destruct m; discriminate.
  - destruct (p a) eqn:E.
    + destruct m as [|b m]; simpl in H.
      * inversion H as [[Ha Hl]]. subst a.
        exists [], l. repeat split; auto.
        intros x Hx. destruct (p x) eqn:Ex; auto.
        assert (Hin : In x (filter p l)) by (apply filter_In; auto).
        rewrite Hl in Hin. contradiction.
      * inversion H as [[Ha Hl]]. subst b.
        destruct (IH m Hl) as [l1 [l2 [H1 [H2 H3]]]].
        exists (a :: l1), l2. repeat split; auto.
        -- simpl. now rewrite H1.
        -- simpl. now rewrite E, H2.
    + destruct (IH m H) as [l1 [l2 [H1 [H2 H3]]]].
      exists (a :: l1), l2. repeat split; auto.
      * simpl. now rewrite H1.
      * simpl. now rewrite E.
Qed.

End StableSort.

(** ** Sort keys

    Text compares code point by code point, timestamps as integers, and a
    missing value sorts after every present one ([na_position="last"], the
    default of [sort_values]). *)

Module Key.

Fixpoint pystr_compare (a b : pystr) : comparison :=
  match a, b with
  | [], [] => Eq
  | [], _ :: _ => Lt
  | _ :: _, [] => Gt
  | x :: a', y :: b' =>
      match (x ?= y)%N with
      | Eq => pystr_compare a' b'
      | c => c
      end
  end.

Definition na_last {K} (cmp : K -> K -> comparison) (a b : option K)
  : comparison :=
  match a, b with
  | None, None => Eq
  | None, Some _ => Gt
  | Some _, None => Lt
  | Some x, Some y => cmp x y
  end.

(** Two keys, the first one deciding. *)
Definition lex (c1 c2 : comparison) : comparison :=
  match c1 with Eq => c2 | _ => c1 end.

Definition le_of (c : comparison) : bool :=
  match c with Gt => false | _ => true end.

(** What makes a three-way comparison a total order. *)
Record cmp_ok {K} (cmp : K -> K -> comparison) : Prop := {
  cmp_eq : forall a b, cmp a b = Eq <-> a = b;
  cmp_opp : forall a b, cmp b a = CompOpp (cmp a b);
  cmp_lt_trans : forall a b c, cmp a b = Lt -> cmp b c = Lt -> cmp a c = Lt
}.

Lemma Z_cmp_ok : cmp_ok Z.compare.
Proof.
  split.
  - apply Z.compare_eq_iff.
  - intros a b. apply Z.compare_antisym.
  - intros a b c. rewrite !Z.compare_lt_iff. lia.
Qed.

Lemma pystr_cmp_ok : cmp_ok pystr_compare.
Proof.
  split.
  - induction a as [|x a IH]; destruct b as [|y b]; simpl;
      try (split; [discriminate|discriminate]); [tauto|].
    destruct (x ?= y)%N eqn:E.
    + apply N.compare_eq_iff in E. subst y. rewrite IH.
      split; [congruence|]. now inversion 1.
    + split; [discriminate|]. inversion 1; subst.
      rewrite N.compare_refl in E. discriminate.
    + split; [discriminate|]. inversion 1; subst.
      rewrite N.compare_refl in E. discriminate.
  - induction a as [|x a IH]; destruct b as [|y b]; simpl; auto.
    rewrite (N.compare_antisym x y).
    destruct (x ?= y)%N; simpl; auto.
  - induction a as [|x a IH]; intros [|y b] [|z c]; simpl;
      try discriminate; auto.
    destruct (x ?= y)%N eqn:E1, (y ?= z)%N eqn:E2; try discriminate;
      intros H1 H2.
    + apply N.compare_eq_iff in E1, E2. subst.
      rewrite N.compare_refl. eauto.
    + apply N.compare_eq_iff in E1. subst. now rewrite E2.
    + apply N.compare_eq_iff in E2. subst. now rewrite E1.
    + rewrite N.compare_lt_iff in E1, E2.
      assert (E : (x ?= z)%N = Lt) by (apply N.compare_lt_iff; lia).
      now rewrite E.
Qed.

Lemma na_last_ok {K} (cmp : K -> K -> comparison) :
  cmp_ok cmp -> cmp_ok (na_last cmp).
Proof.
  intros [He Ho Ht]. split.
  - intros [a|] [b|]; simpl; try (split; discriminate); [|tauto].
    rewrite He. split; congruence.
  - intros [a|] [b|]; simpl; auto.
  - intros [a|] [b|] [c|]; simpl; try discriminate; eauto.
Qed.

Lemma cmp_refl {K} (cmp : K -> K -> comparison) a :
  cmp_ok cmp -> cmp a a = Eq.
Proof. intros H. now apply (cmp_eq _ H). Qed.

Lemma lex_ok {K1 K2} (c1 : K1 -> K1 -> comparison) (c2 : K2 -> K2 -> comparison) :
  cmp_ok c1 -> cmp_ok c2 ->
  cmp_ok (fun p q : K1 * K2 => lex (c1 (fst p) (fst q)) (c2 (snd p) (snd q))).
Proof.
  intros H1 H2. split.
  - intros [a1 a2] [b1 b2]. simpl. unfold lex.
    destruct (c1 a1 b1) eqn:E1.
    + apply (cmp_eq _ H1) in E1. subst b1.
      rewrite (cmp_eq _ H2). split; [congruence|]. now inversion 1.
    + split; [discriminate|]. inversion 1; subst.
      rewrite (cmp_refl c1 b1 H1) in E1. discriminate.
    + split; [discriminate|]. inversion 1; subst.
      rewrite (cmp_refl c1 b1 H1) in E1. discriminate.
  - intros [a1 a2] [b1 b2]. simpl. unfold lex.
    rewrite (cmp_opp _ H1 a1 b1), (cmp_opp _ H2 a2 b2).
    destruct (c1 a1 b1); reflexivity.
  - intros [a1 a2] [b1 b2] [d1 d2]. simpl. unfold lex.
    destruct (c1 a1 b1) eqn:E1, (c1 b1 d1) eqn:E2; try discriminate;
      intros Ha Hb.
    + apply (cmp_eq _ H1) in E1, E2. subst.
      rewrite (cmp_refl c1 d1 H1). eapply (cmp_lt_trans _ H2); eauto.
    + apply (cmp_eq _ H1) in E1. subst. now rewrite E2.
    + apply (cmp_eq _ H1) in E2. subst. now rewrite E1.
    + now rewrite (cmp_lt_trans _ H1 _ _ _ E1 E2).
Qed.

Section Le.
Context {K : Type} (cmp : K -> K -> comparison) (Hok : cmp_ok cmp).

Lemma le_total a b : le_of (cmp a b) = true \/ le_of (cmp b a) = true.
Proof.
  rewrite (cmp_opp _ Hok a b). destruct (cmp a b); simpl; auto.
Qed.

Lemma le_trans a b c :
  le_of (cmp a b) = true -> le_of (cmp b c) = true -> le_of (cmp a c) = true.
Proof.
  destruct (cmp a b) eqn:E1; try discriminate; intros _.
  - apply (cmp_eq _ Hok) in E1. now subst.
  - destruct (cmp b c) eqn:E2; try discriminate; intros _.
    + apply (cmp_eq _ Hok) in E2. subst. now rewrite E1.
    + now rewrite (cmp_lt_trans _ Hok _ _ _ E1 E2).
Qed.

Lemma le_antisym a b :
  le_of (cmp a b) = true -> le_of (cmp b a) = true -> a = b.
Proof.
  rewrite (cmp_opp _ Hok a b). intros H1 H2.
  apply (cmp_eq _ Hok). destruct (cmp a b); auto; discriminate.
Qed.

End Le.

End Key.

(** ** Timestamps

    A [datetime64[ns]] value is a count of nanoseconds; [None] is [NaT]. *)

Definition timestamp := option Z.

Module Time.

(** Difference of two timestamp columns; [NaT] on either side gives [NaT]. *)
Definition td_sub (a b : timestamp) : option Z :=
  match a, b with
  | Some x, Some y => Some (x - y)
  | _, _ => None
  end.

(** [.dt.total_seconds()]: the nanosecond count divided by [10**9] in
    binary64; [NaT] becomes NaN. *)
Definition total_seconds (td : option Z) : F64.float :=
  match td with
  | Some ns => F64.div (F64.of_Z ns) (F64.of_Z 1000000000)
  | None => F64.nan
  end.

(** [(a - b).dt.total_seconds() / 60.0] *)
Definition minutes_between (a b : timestamp) : F64.float :=
  F64.div (total_seconds (td_sub a b)) F64.sixty.

(** [a <= b] on timestamp columns: false as soon as one side is [NaT]. *)
Definition ts_leb (a b : timestamp) : bool :=
  match a, b with
  | Some x, Some y => x <=? y
  | _, _ => false
  end.

Definition notna (a : timestamp) : bool :=
  match a with Some _ => true | None => false end.

End Time.

(** ** Tables *)

(** A number as pandas holds it: an integer ([int64] or [uint64]) or a
    [float64]. *)
Inductive num :=
| NInt (z : Z)
| NFloat (f : F64.float).

(** A cell of a column read by [pd.read_csv]. *)
Inductive cell :=
| CNaN
| CText (s : pystr)
| CNum (n : num).

(** One line of the uploaded ticket export, by header.  Text and date
    columns hold text or are empty; the reopen count holds whatever the
    reader made of it. *)
Record raw_ticket := mkRaw {
  raw_issue_key : option pystr;
  raw_issue_id : option pystr;
  raw_severity : option pystr;
  raw_status : option pystr;
  raw_fr_target : option pystr;
  raw_fr_actual : option pystr;
  raw_created : option pystr;
  raw_updated : option pystr;
  raw_resolved : option pystr;
  raw_assignee : option pystr;
  raw_environment : option pystr;
  raw_product : option pystr;
  raw_summary : option pystr;
  raw_crm_company : option pystr;
  raw_reopen_count : cell
}.

(** The data frame of an upload: the headers found in the file and its
    lines.  A field whose header is absent from [columns] is not read. *)
Record frame := mkFrame {
  columns : list pystr;
  rows : list raw_ticket
}.

(** The columns of a ticket row under their canonical names
    ([NORMALIZE_MAP]), dates parsed.  A text column is modelled as a column
    of texts with missing values; pandas holds a column in which no file
    ever had a text as [float64], and this model does not tell the two
    apart. *)
Record fields := mkFields {
  issue_key : option pystr;
  issue_id : option pystr;
  severity : option pystr;
  status : option pystr;
  fr_target : timestamp;
  fr_actual : timestamp;
  created : timestamp;
  updated : timestamp;
  resolved : timestamp;
  assignee : option pystr;
  environment : option pystr;
  product : option pystr;
  summary : option pystr;
  crm_company : option pystr
}.

(** A stored ticket: the canonical columns and the two typed ones. *)
Record ticket := mkTicket {
  cols :> fields;
  reopen_count : Z;
  resolution_minutes : F64.float
}.

(** A row of the stored SLA table; a target absent from the matrix is
    NaN. *)
Record sla_row := mkSla {
  sla_company : option pystr;
  sla_severity : option pystr;
  first_response : F64.float;
  resolution : F64.float
}.

(** The two parquet files; [None] while a file does not exist.  Two columns
    are not in every stored table: [summary] is in the ticket table once an
    uploaded file has carried the optional header ["Summary"], and
    [resolution] is in the SLA table when the pivot of the last SLA upload
    had resolution targets.  A row of a table without the column holds a
    missing value in that field. *)
Record store := mkStore {
  tickets_parquet : option (list ticket);
  sla_parquet : option (list sla_row);
  summary_stored : bool;
  resolution_stored : bool
}.

Definition empty_store : store := mkStore None None false false.

(** The failures of a request. *)
Inductive error :=
| UnsupportedFileType              (* 400 "Only CSV supported" *)
| MissingColumns (names : list pystr)  (* 400 "Missing columns: [...]" *)
| IntCastingNaNError               (* raised by [astype(int)] *)
| DataNotReady                     (* 400 "Upload both tickets CSV and SLA CSV first." *)
| KeyError (column : pystr)        (* a column that the table does not have *)
| JsonValueError.                  (* raised by [JSONResponse] on NaN or an infinity *)

Inductive result (A : Type) :=
| Ok (a : A)
| Err (e : error).
Arguments Ok {A} a.
Arguments Err {A} e.

Definition EXPECTED_TICKET_COLS : list pystr :=
  [ py "Issue key"; py "Issue id"; py "Custom field (Severity)"; py "Status";
    py "Custom field (First Response SLA Target Date)";
    py "Custom field (First Response SLA Actual Date)";
    py "Created"; py "Updated"; py "Resolved"; py "Assignee";
    py "Custom field (Environment)"; py "Custom field (Product)";
    py "Summary"; py "Custom field (CRM Company)";
    py "Custom field (Reopen Count)" ].

Definition REQUIRED_TICKET_COLS : list pystr :=
  [ py "Issue key"; py "Custom field (Severity)"; py "Status";
    py "Custom field (First Response SLA Target Date)";
    py "Custom field (First Response SLA Actual Date)";
    py "Created"; py "Resolved"; py "Assignee";
    py "Custom field (Product)"; py "Custom field (CRM Company)";
    py "Custom field (Reopen Count)" ].

Definition PERMANENTLY_CLOSED : pystr := py "Permanently Closed".

(** ** The upsert: sort, then keep the last row of every key *)

Module Upsert.

(** Order of [sort_values(["issue_key","resolved"])]. *)
Definition key_compare (a b : ticket) : comparison :=
  Key.lex (Key.na_last Key.pystr_compare (issue_key a) (issue_key b))
          (Key.na_last Z.compare (resolved a) (resolved b)).

Definition key_leb (a b : ticket) : bool := Key.le_of (key_compare a b).

Definition sort_values (l : list ticket) : list ticket :=
  StableSort.sort ticket key_leb l.

(** Equality of the [issue_key] cells as [duplicated] sees it: two missing
    keys count as equal. *)
Definition same_key (a b : ticket) : bool :=
  match issue_key a, issue_key b with
  | Some x, Some y => pystr_eqb x y
  | None, None => true
  | _, _ => false
  end.

(** [drop_duplicates(["issue_key"], keep="last")]: a row stays when no
    later row carries its key. *)
Fixpoint drop_duplicates_last (l : list ticket) : list ticket :=
  match l with
  | [] => []
  | x :: l' =>
      if existsb (same_key x) l'
      then drop_duplicates_last l'
      else x :: drop_duplicates_last l'
  end.

(** Lines 113-115: [pd.concat([cur, df])], sort, drop duplicates. *)
Definition upsert (cur df : list ticket) : list ticket :=
  drop_duplicates_last (sort_values (cur ++ df)).

End Upsert.

(** ** The ticket upload *)

Module Upload.

Definition mem (c : pystr) (l : list pystr) : bool := existsb (pystr_eqb c) l.

(** ASCII part of [str.lower()]; no other character lowers to a letter of
    [".csv"]. *)
Definition lower_char (c : pychar) : pychar :=
  if ((65 <=? c) && (c <=? 90))%N then (c + 32)%N else c.

Definition lower (s : pystr) : pystr := map lower_char s.

(** [s.endswith(suffix)] *)
Definition endswith (s suffix : pystr) : bool :=
  (List.length suffix <=? List.length s)%nat
  && pystr_eqb (skipn (List.length s - List.length suffix) s) suffix.

(** [sorted(names)] on text. *)
Definition sorted_names (names : list pystr) : list pystr :=
  StableSort.sort pystr (fun a b => Key.le_of (Key.pystr_compare a b)) names.

(** [set(REQUIRED_TICKET_COLS) - set(df.columns)] *)
Definition missing_columns (df : frame) : list pystr :=
  filter (fun c => negb (mem c (columns df))) REQUIRED_TICKET_COLS.

(** Lines 77-83: the company column, when present, is normalised in place. *)
Definition with_crm_company (r : raw_ticket) (v : option pystr) : raw_ticket :=
  mkRaw (raw_issue_key r) (raw_issue_id r) (raw_severity r) (raw_status r)
        (raw_fr_target r) (raw_fr_actual r) (raw_created r) (raw_updated r)
        (raw_resolved r) (raw_assignee r) (raw_environment r) (raw_product r)
        (raw_summary r) v (raw_reopen_count r).

Definition normalize_crm (df : frame) : frame :=
  if mem (py "Custom field (CRM Company)") (columns df)
  then mkFrame (columns df)
         (map (fun r => with_crm_company r
                 (Some (Normalizer.normalize_company (raw_crm_company r))))
              (rows df))
  else df.

(** Truncation toward zero of a finite number. *)
Definition trunc (f : F64.float) : Z :=
  match f with
  | S754_finite s m e =>
      cond_Zopp s (match e with
                   | Zneg k => Z.shiftr (Zpos m) (Zpos k)
                   | _ => Z.shiftl (Zpos m) e
                   end)
  | _ => 0
  end.

Definition INT64_MIN : Z := - 2 ^ 63.
Definition INT64_MAX : Z := 2 ^ 63 - 1.

(** [astype(int)] on a [float64] value: pandas raises on NaN and the
    infinities; the cast truncates, and a value outside [int64] yields the
    x86-64 "integer indefinite" value. *)
Definition cast_int64 (f : F64.float) : option Z :=
  if F64.is_finite f
  then Some (let z := trunc f in
             if (INT64_MIN <=? z) && (z <=? INT64_MAX) then z else INT64_MIN)
  else None.

(** [fillna(0)] *)
Definition fillna0 (f : F64.float) : F64.float :=
  if F64.is_nan f then F64.zero else f.

Fixpoint sequence {A} (l : list (option A)) : option (list A) :=
  match l with
  | [] => Some []
  | None :: _ => None
  | Some a :: l' =>
      match sequence l' with
      | Some r => Some (a :: r)
      | None => None
      end
  end.

Section WithParsers.

(** The two text parsers of pandas are taken as they come:
    [pd.to_datetime(_, format="%d/%b/%y %I:%M %p", errors="coerce")] on one
    text, and the number reader behind
    [pd.to_numeric(_, errors="coerce")]. *)
Variable to_datetime : pystr -> timestamp.
Variable parse_number : pystr -> option num.

Definition parse_date (v : option pystr) : timestamp :=
  match v with
  | Some s => to_datetime s
  | None => None
  end.

(** [pd.to_numeric(_, errors="coerce")] on one cell; [None] is NaN. *)
Definition to_numeric (c : cell) : option num :=
  match c with
  | CNaN => None
  | CText s => parse_number s
  | CNum n => Some n
  end.

Definition UINT64_MAX : Z := 2 ^ 64 - 1.

(** The value is held as an integer: [int64] or [uint64].  An integer
    outside both ranges is read as a float. *)
Definition is_int (v : option num) : bool :=
  match v with
  | Some (NInt z) => (INT64_MIN <=? z) && (z <=? UINT64_MAX)
  | _ => false
  end.

Definition int_value (v : option num) : Z :=
  match v with Some (NInt z) => z | _ => 0 end.

(** The type of the column after [pd.to_numeric]: integers that all fit
    [int64]; else non-negative integers, held as [uint64]; else
    [float64]. *)
Inductive dtype := Int64 | UInt64 | Float64.

Definition column_dtype (vs : list (option num)) : dtype :=
  if forallb is_int vs then
    if forallb (fun v => int_value v <=? INT64_MAX) vs then Int64
    else if forallb (fun v => 0 <=? int_value v) vs then UInt64
    else Float64
  else Float64.

(** [astype(int)] on a [uint64] value keeps the 64 bits. *)
Definition wrap_int64 (z : Z) : Z :=
  if z <=? INT64_MAX then z else z - 2 ^ 64.

Definition as_float (v : option num) : F64.float :=
  match v with
  | None => F64.nan
  | Some (NInt z) => F64.of_Z z
  | Some (NFloat f) => f
  end.

(** Line 109 on the whole column.  On an [int64] column the rest is the
    identity; a [uint64] column is cast to [int64] bit by bit; on a
    [float64] column NaN is replaced by 0 and the cast truncates. *)
Definition reopen_counts (col : list cell) : option (list Z) :=
  let vs := map to_numeric col in
  match column_dtype vs with
  | Int64 => Some (map int_value vs)
  | UInt64 => Some (map (fun v => wrap_int64 (int_value v)) vs)
  | Float64 => sequence (map (fun v => cast_int64 (fillna0 (as_float v))) vs)
  end.

(** Lines 86-95 and 103: dates parsed, known columns kept under their
    canonical names; a column absent from the file is all missing. *)
Definition select_rename (df : frame) (r : raw_ticket) : fields * cell :=
  let opt {A} (h : pystr) (v : option A) : option A :=
    if mem h (columns df) then v else None in
  (mkFields (raw_issue_key r)
            (opt (py "Issue id") (raw_issue_id r))
            (raw_severity r)
            (raw_status r)
            (parse_date (raw_fr_target r))
            (parse_date (raw_fr_actual r))
            (parse_date (raw_created r))
            (opt (py "Updated") (parse_date (raw_updated r)))
            (parse_date (raw_resolved r))
            (raw_assignee r)
            (opt (py "Custom field (Environment)") (raw_environment r))
            (raw_product r)
            (opt (py "Summary") (raw_summary r))
            (raw_crm_company r),
   raw_reopen_count r).

(** [df["status"].eq("Permanently Closed")] *)
Definition is_closed (f : fields) : bool :=
  match status f with
  | Some s => pystr_eqb s PERMANENTLY_CLOSED
  | None => false
  end.

(** Lines 109-110 on one row, given its typed reopen count. *)
Definition typed (f : fields) (rc : Z) : ticket :=
  mkTicket f rc (Time.minutes_between (resolved f) (created f)).

(** Lines 103-106: the rows of the file that are permanently closed, each
    with its reopen count as read. *)
Definition candidates (df : frame) : list (fields * cell) :=
  filter (fun c => is_closed (fst c)) (map (select_rename df) (rows df)).

(** Lines 109-110: the batch that enters the upsert. *)
Definition prepare (df : frame) : option (list ticket) :=
  match reopen_counts (map snd (candidates df)) with
  | Some rcs => Some (map (fun p => typed (fst (fst p)) (snd p))
                          (combine (candidates df) rcs))
  | None => None
  end.

Definition current (st : store) : list ticket :=
  match tickets_parquet st with
  | Some t => t
  | None => []
  end.

(** Whether the table read at line 112 has a [summary] column; the empty
    frame that stands for a missing file has no column. *)
Definition current_summary (st : store) : bool :=
  match tickets_parquet st with
  | Some _ => summary_stored st
  | None => false
  end.

(** [upload_tickets]: the response ([tickets_stored], [new_rows]) or the
    failure, and the store afterwards.  [pd.concat] gives the stored table
    the columns of both frames. *)
Definition upload_tickets (filename : pystr) (df : frame) (st : store)
  : result (nat * nat) * store :=
  if negb (endswith (lower filename) (py ".csv"))
  then (Err UnsupportedFileType, st)
  else
    let df := normalize_crm df in
    match missing_columns df with
    | _ :: _ => (Err (MissingColumns (sorted_names (missing_columns df))), st)
    | [] =>
        match prepare df with
        | None => (Err IntCastingNaNError, st)
        | Some new =>
            let all_ := Upsert.upsert (current st) new in
            (Ok (List.length all_, List.length new),
             mkStore (Some all_) (sla_parquet st)
                     (current_summary st || mem (py "Summary") (columns df))
                     (resolution_stored st))
        end
    end.

(** A sequence of uploads, each a file name and its parsed content. *)
Fixpoint uploads (st : store) (reqs : list (pystr * frame)) : store :=
  match reqs with
  | [] => st
  | (name, df) :: reqs' => uploads (snd (upload_tickets name df st)) reqs'
  end.

End WithParsers.

End Upload.

(** ** Properties of the upsert *)

Module UpsertProps.
Import Upsert.

Lemma pystr_eqb_eq a b : pystr_eqb a b = true <-> a = b.
Proof.
  unfold pystr_eqb. destruct (list_eq_dec N.eq_dec a b); split; auto.
  discriminate.
Qed.

Lemma same_key_iff (a b : ticket) : same_key a b = true <-> issue_key a = issue_key b.
Proof.
  unfold same_key. destruct (issue_key a), (issue_key b);
    rewrite ?pystr_eqb_eq; split; congruence.
Qed.

(** The sort key of a row. *)
Definition key (t : ticket) : option pystr * timestamp :=
  (issue_key t, resolved t).

Definition pair_compare (p q : option pystr * timestamp) : comparison :=
  Key.lex (Key.na_last Key.pystr_compare (fst p) (fst q))
          (Key.na_last Z.compare (snd p) (snd q)).

Lemma pair_cmp_ok : Key.cmp_ok pair_compare.
Proof.
  apply (Key.lex_ok (Key.na_last Key.pystr_compare) (Key.na_last Z.compare)).
  - apply Key.na_last_ok, Key.pystr_cmp_ok.
  - apply Key.na_last_ok, Key.Z_cmp_ok.
Qed.

Lemma key_leb_total (a b : ticket) : key_leb a b = true \/ key_leb b a = true.
Proof. apply (Key.le_total pair_compare pair_cmp_ok (key a) (key b)). Qed.

Lemma key_leb_trans (a b c : ticket) :
  key_leb a b = true -> key_leb b c = true -> key_leb a c = true.
Proof. apply (Key.le_trans pair_compare pair_cmp_ok (key a) (key b) (key c)). Qed.

Lemma key_leb_refl (a : ticket) : key_leb a a = true.
Proof. destruct (key_leb_total a a); assumption. Qed.

Lemma equiv_iff (a b : ticket) :
  StableSort.equiv ticket key_leb a b = true
  <-> issue_key a = issue_key b /\ resolved a = resolved b.
Proof.
  unfold StableSort.equiv. rewrite andb_true_iff. split.
  - intros [H1 H2].
    pose proof (Key.le_antisym pair_compare pair_cmp_ok (key a) (key b) H1 H2) as E.
    unfold key in E. now inversion E.
  - intros [H1 H2].
    assert (E : key a = key b) by (unfold key; congruence).
    unfold key_leb, key_compare.
    change (Key.le_of (pair_compare (key a) (key b)) = true
            /\ Key.le_of (pair_compare (key b) (key a)) = true).
    rewrite E, (Key.cmp_refl pair_compare (key b) pair_cmp_ok). auto.
Qed.

(** Within one key the order is that of [resolved], missing last. *)
Lemma key_leb_same_key (a b : ticket) :
  issue_key a = issue_key b ->
  key_leb a b = Key.le_of (Key.na_last Z.compare (resolved a) (resolved b)).
Proof.
  intros E. unfold key_leb, key_compare. rewrite E.
  rewrite (Key.cmp_refl (Key.na_last Key.pystr_compare) (issue_key b)
             (Key.na_last_ok _ Key.pystr_cmp_ok)).
  reflexivity.
Qed.

Lemma sort_values_sorted l : StableSort.sorted ticket key_leb (sort_values l).
Proof.
  apply StableSort.sort_sorted; [apply key_leb_total | apply key_leb_trans].
Qed.

Lemma sort_values_stable k l :
  filter (StableSort.equiv ticket key_leb k) (sort_values l)
  = filter (StableSort.equiv ticket key_leb k) l.
Proof. apply StableSort.sort_stable, key_leb_trans. Qed.

(** *** Dropping duplicates *)

Lemma ddl_In l (r : ticket) : In r (drop_duplicates_last l) -> In r l.
Proof.
  induction l as [|x l IH]; simpl; auto.
  destruct (existsb (same_key x) l); simpl; intuition.
Qed.

Lemma ddl_split l (r : ticket) :
  In r (drop_duplicates_last l) ->
  exists l1 l2, l = l1 ++ r :: l2 /\ forall y, In y l2 -> same_key r y = false.
Proof.
  induction l as [|x l IH]; simpl; [contradiction|].
  destruct (existsb (same_key x) l) eqn:E.
  - intros H. destruct (IH H) as [l1 [l2 [H1 H2]]].
    exists (x :: l1), l2. split; auto. simpl. now rewrite H1.
  - intros [->|H].
    + exists [], l. split; auto. intros y Hy.
      destruct (same_key r y) eqn:Ek; auto.
      assert (existsb (same_key r) l = true)
        by (apply existsb_exists; eauto).
      congruence.
    + destruct (IH H) as [l1 [l2 [H1 H2]]].
      exists (x :: l1), l2. split; auto. simpl. now rewrite H1.
Qed.

Lemma ddl_covers l (y : ticket) :
  In y l -> exists r, In r (drop_duplicates_last l) /\ issue_key r = issue_key y.
Proof.
  revert y. induction l as [|x l IH]; intros y; simpl; [contradiction|].
  intros [->|Hy].
  - destruct (existsb (same_key y) l) eqn:E.
    + apply existsb_exists in E. destruct E as [z [Hz Hk]].
      apply same_key_iff in Hk.
      destruct (IH z Hz) as [r [Hr Hrk]]. exists r. split; congruence.
    + exists y. simpl. auto.
  - destruct (IH y Hy) as [r [Hr Hrk]]. exists r. split; auto.
    destruct (existsb (same_key x) l); simpl; auto.
Qed.

Lemma ddl_nodup l :
  NoDup (map (fun t : ticket => issue_key t) (drop_duplicates_last l)).
Proof.
  induction l as [|x l IH]; simpl; [constructor|].
  destruct (existsb (same_key x) l) eqn:E; auto.
  simpl. constructor; auto.
  intros Hin. apply in_map_iff in Hin. destruct Hin as [r [Hk Hr]].
  apply ddl_In in Hr.
  assert (existsb (same_key x) l = true).
  { apply existsb_exists. exists r. split; auto. now apply same_key_iff. }
  congruence.
Qed.

(** *** The row that survives *)

Lemma upsert_kept cur df (r : ticket) :
  In r (upsert cur df) ->
  exists l1 l2,
    cur ++ df = l1 ++ r :: l2
    /\ (forall r' : ticket, In r' (cur ++ df) -> issue_key r' = issue_key r ->
          Key.le_of (Key.na_last Z.compare (resolved r') (resolved r)) = true)
    /\ (forall r' : ticket, In r' l2 -> issue_key r' = issue_key r ->
          resolved r' <> resolved r).
Proof.
  unfold upsert. intros Hr.
  destruct (ddl_split _ _ Hr) as [s1 [s2 [Hs Hs2]]].
  pose proof (sort_values_sorted (cur ++ df)) as Hsorted.
  rewrite Hs in Hsorted.
  destruct (StableSort.sorted_app_inv _ _ _ _ Hsorted) as [_ [_ Hle]].
  assert (Hmax : forall r' : ticket, In r' (cur ++ df) -> issue_key r' = issue_key r ->
            Key.le_of (Key.na_last Z.compare (resolved r') (resolved r)) = true).
  { intros r' Hin Hk. rewrite <- (key_leb_same_key r' r Hk).
    apply (StableSort.sort_In ticket key_leb) in Hin.
    fold (sort_values (cur ++ df)) in Hin. rewrite Hs in Hin.
    apply in_app_or in Hin. destruct Hin as [Hin|[->|Hin]].
    - apply Hle; simpl; auto.
    - apply key_leb_refl.
    - specialize (Hs2 _ Hin).
      assert (same_key r r' = true) by (apply same_key_iff; congruence).
      congruence. }
  pose proof (sort_values_stable r (cur ++ df)) as Hst.
  rewrite Hs, filter_app in Hst. simpl in Hst.
  assert (Err : StableSort.equiv ticket key_leb r r = true)
    by (apply equiv_iff; auto).
  rewrite Err in Hst.
  assert (Hnil : filter (StableSort.equiv ticket key_leb r) s2 = []).
  { clear - Hs2. induction s2 as [|y s2 IH]; simpl; auto.
    destruct (StableSort.equiv ticket key_leb r y) eqn:E.
    - apply equiv_iff in E. destruct E as [E _].
      apply same_key_iff in E. rewrite Hs2 in E; simpl; auto. discriminate.
    - apply IH. intros z Hz. apply Hs2. simpl. auto. }
  rewrite Hnil in Hst. symmetry in Hst.
  destruct (StableSort.filter_last_split _ _ _ _ Hst) as [l1 [l2 [H1 [_ H3]]]].
  exists l1, l2. repeat split; auto.
  intros r' Hin Hk Hres. specialize (H3 _ Hin).
  assert (StableSort.equiv ticket key_leb r r' = true)
    by (apply equiv_iff; split; congruence).
  congruence.
Qed.

Lemma upsert_subset cur df (r : ticket) : In r (upsert cur df) -> In r (cur ++ df).
Proof.
  unfold upsert, sort_values. intros H. apply ddl_In in H.
  now apply StableSort.sort_In in H.
Qed.

Lemma upsert_covers cur df (r' : ticket) :
  In r' (cur ++ df) ->
  exists r, In r (upsert cur df) /\ issue_key r = issue_key r'.
Proof.
  intros H. apply ddl_covers. unfold sort_values.
  now apply StableSort.sort_In.
Qed.

End UpsertProps.

(** ** Sample data

    Timestamps of 18 August 2025, in nanoseconds since the epoch. *)

Module Sample.

Definition T_10_00 : Z := 1755511200000000000.
Definition T_11_00 : Z := 1755514800000000000.
Definition T_12_00 : Z := 1755518400000000000.
Definition T_13_00 : Z := 1755522000000000000.

(** The date parser on the texts used below. *)
Definition to_datetime (s : pystr) : timestamp :=
  if pystr_eqb s (py "18/Aug/25 10:00 AM") then Some T_10_00
  else if pystr_eqb s (py "18/Aug/25 11:00 AM") then Some T_11_00
  else if pystr_eqb s (py "18/Aug/25 12:00 PM") then Some T_12_00
  else if pystr_eqb s (py "18/Aug/25 1:00 PM") then Some T_13_00
  else None.

(** The number parser on the texts used below. *)
Definition parse_number (s : pystr) : option num :=
  if pystr_eqb s (py "3") then Some (NInt 3)
  else if pystr_eqb s (py "-1") then Some (NInt (-1))
  else None.

(** A closed ticket of Acme with the given key, dates and reopen count. *)
Definition closed_ticket (k : string) (target actual made done : timestamp)
           (rc : Z) : ticket :=
  Upload.typed
    (mkFields (Some (py k)) None (Some (py "Severity 1"))
              (Some PERMANENTLY_CLOSED) target actual made None done
              (Some (py "ann")) None (Some (py "api")) None
              (Some (py "Acme")))
    rc.

(** Two rows for the key ["SUP-1"]: one resolved at 13:00, one whose
    resolution date is missing. *)
Definition dated : ticket :=
  closed_ticket "SUP-1" (Some T_11_00) (Some T_11_00) (Some T_10_00)
                (Some T_13_00) 0.

Definition undated : ticket :=
  closed_ticket "SUP-1" (Some T_11_00) (Some T_11_00) (Some T_10_00) None 0.

End Sample.

(** C4, as the code has it.  After the upsert of a batch [df] into the
    stored rows [cur]: no two stored rows share an [issue_key]; every key of
    the concatenation is still stored; and the stored row of a key is the
    one that comes last in the stable sort by [resolved] with missing dates
    last: no row of that key sorts after it (a missing [resolved] counts as
    the greatest), and no later row of the concatenation has both its key
    and its [resolved]. *)
Theorem upsert_keeps_last_in_resolved_order :
  forall cur df : list ticket,
    NoDup (map (fun t : ticket => issue_key t) (Upsert.upsert cur df))
    /\ (forall r' : ticket, In r' (cur ++ df) ->
          exists r : ticket, In r (Upsert.upsert cur df)
                             /\ issue_key r = issue_key r')
    /\ (forall r : ticket, In r (Upsert.upsert cur df) ->
          exists l1 l2,
            cur ++ df = l1 ++ r :: l2
            /\ (forall r' : ticket, In r' (cur ++ df) ->
                  issue_key r' = issue_key r ->
                  Key.le_of (Key.na_last Z.compare (resolved r') (resolved r))
                  = true)
            /\ (forall r' : ticket, In r' l2 ->
                  issue_key r' = issue_key r -> resolved r' <> resolved r)).
Proof.
  intros cur df. split; [|split].
  - apply UpsertProps.ddl_nodup.
  - apply UpsertProps.upsert_covers.
  - apply UpsertProps.upsert_kept.
Qed.

(** C4 on a concrete table: with rows of equal resolution date the later
    one of the concatenation is stored, and a single row per key remains. *)
Lemma upsert_keeps_last_in_resolved_order_witness :
  NoDup (map (fun t : ticket => issue_key t)
             (Upsert.upsert [Sample.dated] [Sample.dated; Sample.undated]))
  /\ exists l1 l2,
       [Sample.dated] ++ [Sample.dated; Sample.undated]
       = l1 ++ Sample.undated :: l2
       /\ (forall r' : ticket, In r' l2 ->
             issue_key r' = issue_key Sample.undated ->
             resolved r' <> resolved Sample.undated).
Proof.
  destruct (upsert_keeps_last_in_resolved_order
              [Sample.dated] [Sample.dated; Sample.undated]) as [Hn [_ Hk]].
  split; [exact Hn|].
  destruct (Hk Sample.undated) as [l1 [l2 [H1 [_ H3]]]].
  - vm_compute. left. reflexivity.
  - exists l1, l2. split; assumption.
Defined.

(** C4 as stated fails: of two rows of one key, the one without a
    resolution date is stored, whichever was uploaded first, although the
    other one carries the only (hence the maximum) resolved timestamp. *)
Lemma upsert_prefers_missing_resolved :
  Upsert.upsert [Sample.dated] [Sample.undated] = [Sample.undated]
  /\ Upsert.upsert [Sample.undated] [Sample.dated] = [Sample.undated]
  /\ resolved Sample.dated = Some Sample.T_13_00
  /\ resolved Sample.undated = None
  /\ issue_key Sample.dated = issue_key Sample.undated.
Proof. vm_compute. repeat split. Qed.

(** C10. In the sorted concatenation a row without [resolved] comes after
    every row of its key that has one; hence, as soon as a key has a row
    without [resolved], the upsert stores exactly one row of that key, it
    is a row without [resolved] (the last such row of the concatenation),
    and every duplicate of the key with a date is dropped. *)
Theorem missing_resolved_sorts_last_and_is_kept :
  (forall (l l1 l2 l3 : list ticket) (a b : ticket),
     Upsert.sort_values l = l1 ++ a :: l2 ++ b :: l3 ->
     issue_key a = issue_key b ->
     resolved a = None -> resolved b = None)
  /\ (forall (cur df : list ticket) (r' : ticket),
        In r' (cur ++ df) -> resolved r' = None ->
        exists (r : ticket) (s1 s2 : list ticket),
          Upsert.upsert cur df = s1 ++ r :: s2
          /\ issue_key r = issue_key r'
          /\ resolved r = None
          /\ (forall x : ticket, In x (s1 ++ s2) ->
                issue_key x <> issue_key r')
          /\ exists l1 l2 : list ticket,
               cur ++ df = l1 ++ r :: l2
               /\ (forall y : ticket, In y l2 ->
                     issue_key y = issue_key r' -> resolved y <> None)).
Proof.
  split.
  - intros l l1 l2 l3 a b Hs Hk Ha.
    pose proof (UpsertProps.sort_values_sorted l) as Hsorted.
    rewrite Hs in Hsorted.
    apply StableSort.sorted_app_inv in Hsorted.
    destruct Hsorted as [_ [Hs2 _]].
    inversion Hs2 as [|? ? Hall _]; subst.
    assert (Hle : Upsert.key_leb a b = true).
    { apply Hall, in_or_app. right. simpl. auto. }
    rewrite (UpsertProps.key_leb_same_key a b Hk), Ha in Hle.
    destruct (resolved b); [discriminate|reflexivity].
  - intros cur df r' Hin Hnone.
    destruct (UpsertProps.upsert_covers cur df r' Hin) as [r [Hr Hk]].
    destruct (UpsertProps.upsert_kept cur df r Hr)
      as [l1 [l2 [Hsplit [Hmax Hlast]]]].
    assert (Hres : resolved r = None).
    { specialize (Hmax r' Hin (eq_sym Hk)). rewrite Hnone in Hmax.
      destruct (resolved r); [discriminate|reflexivity]. }
    destruct (in_split r _ Hr) as [s1 [s2 Hs]].
    exists r, s1, s2. split; [exact Hs|]. split; [exact Hk|].
    split; [exact Hres|]. split.
    + intros x Hx Hxk.
      pose proof (UpsertProps.ddl_nodup (Upsert.sort_values (cur ++ df)))
        as Hnd.
      change (Upsert.drop_duplicates_last (Upsert.sort_values (cur ++ df)))
        with (Upsert.upsert cur df) in Hnd.
      rewrite Hs, map_app in Hnd. simpl in Hnd.
      apply NoDup_remove_2 in Hnd. apply Hnd.
      rewrite <- map_app, Hk, <- Hxk.
      apply (in_map (fun t : ticket => issue_key t)). exact Hx.
    + exists l1, l2. split; [exact Hsplit|].
      intros y Hy Hyk. rewrite <- Hres. apply Hlast; [exact Hy|].
      now rewrite Hyk.
Qed.

(** C10 on the sample rows: the row without a date that was stored first
    is all that is stored of its key once the dated row has been
    uploaded. *)
Lemma missing_resolved_sorts_last_and_is_kept_witness :
  Upsert.upsert [Sample.undated] [Sample.dated] = [Sample.undated]
  /\ exists (r : ticket) (s1 s2 : list ticket),
       Upsert.upsert [Sample.undated] [Sample.dated] = s1 ++ r :: s2
       /\ issue_key r = issue_key Sample.undated
       /\ resolved r = None
       /\ (forall x : ticket, In x (s1 ++ s2) ->
             issue_key x <> issue_key Sample.undated)
       /\ exists l1 l2 : list ticket,
            [Sample.undated] ++ [Sample.dated] = l1 ++ r :: l2
            /\ (forall y : ticket, In y l2 ->
                  issue_key y = issue_key Sample.undated ->
                  resolved y <> None).
Proof.
  split; [vm_compute; reflexivity|].
  apply (proj2 missing_resolved_sorts_last_and_is_kept
               [Sample.undated] [Sample.dated] Sample.undated).
  - simpl. left. reflexivity.
  - reflexivity.
Defined.

(** ** Properties of the ticket upload *)

Module UploadProps.
Import Upload.

Lemma mem_In c l : mem c l = true <-> In c l.
Proof.
  unfold mem. rewrite existsb_exists. split.
  - intros [x [Hx E]]. apply UpsertProps.pystr_eqb_eq in E. now subst.
  - intros H. exists c. split; auto. now apply UpsertProps.pystr_eqb_eq.
Qed.

Lemma normalize_crm_columns df : columns (normalize_crm df) = columns df.
Proof. unfold normalize_crm. destruct (mem _ _); reflexivity. Qed.

Lemma missing_columns_normalize df :
  missing_columns (normalize_crm df) = missing_columns df.
Proof. unfold missing_columns. now rewrite normalize_crm_columns. Qed.

Lemma missing_columns_spec df h :
  In h (missing_columns df)
  <-> In h REQUIRED_TICKET_COLS /\ ~ In h (columns df).
Proof.
  unfold missing_columns. rewrite filter_In, negb_true_iff.
  rewrite <- (mem_In h (columns df)).
  destruct (mem h (columns df)); intuition congruence.
Qed.

Lemma required_nodup : NoDup REQUIRED_TICKET_COLS.
Proof.
  unfold REQUIRED_TICKET_COLS.
  repeat (constructor; [vm_compute; intuition discriminate|]).
  constructor.
Qed.

Lemma pystr_leb_total a b :
  Key.le_of (Key.pystr_compare a b) = true
  \/ Key.le_of (Key.pystr_compare b a) = true.
Proof. apply (Key.le_total _ Key.pystr_cmp_ok). Qed.

Lemma pystr_leb_trans a b c :
  Key.le_of (Key.pystr_compare a b) = true ->
  Key.le_of (Key.pystr_compare b c) = true ->
  Key.le_of (Key.pystr_compare a c) = true.
Proof. apply (Key.le_trans _ Key.pystr_cmp_ok). Qed.

(** *** The typed batch, row by row *)

Section WithParsers.
Variable to_datetime : pystr -> timestamp.
Variable parse_number : pystr -> option num.

Lemma sequence_Forall2 {A} (l : list (option A)) r :
  sequence l = Some r -> Forall2 (fun o a => o = Some a) l r.
Proof.
  revert r. induction l as [|[a|] l IH]; simpl; intros r H.
  - inversion H. constructor.
  - destruct (sequence l) as [r'|]; [|discriminate].
    inversion H. subst. constructor; auto.
  - discriminate.
Qed.

Lemma typed_combine (P : cell -> Z -> Prop) (cands : list (fields * cell)) rcs :
  Forall2 P (map snd cands) rcs ->
  Forall2 (fun (p : fields * cell) (t : ticket) =>
             cols t = fst p /\ P (snd p) (reopen_count t))
          cands
          (map (fun p => typed (fst (fst p)) (snd p)) (combine cands rcs)).
Proof.
  revert rcs. induction cands as [|p cands IH]; intros rcs H.
  - inversion H. constructor.
  - inversion H as [|? rc ? rcs' Hp Hrest]; subst. simpl.
    constructor; [split; [reflexivity|exact Hp]|]. now apply IH.
Qed.

Lemma Forall2_impl_In {A B} (P Q : A -> B -> Prop) l r :
  (forall a b, In a l -> P a b -> Q a b) ->
  Forall2 P l r -> Forall2 Q l r.
Proof.
  intros H F. induction F as [|a b l r Hab F IH]; constructor.
  - apply H; simpl; auto.
  - apply IH. intros a' b' Hin. apply H. simpl. auto.
Qed.

Lemma Forall2_Forall_r {A B} (P : A -> B -> Prop) (Q : B -> Prop) l r :
  (forall a b, In a l -> P a b -> Q b) -> Forall2 P l r -> Forall Q r.
Proof.
  intros H F. induction F as [|a b l r Hab F IH]; constructor.
  - eapply H; [|exact Hab]. simpl. auto.
  - apply IH. intros a' b' Hin. apply H. simpl. auto.
Qed.

(** The number a cell stands for is negative. *)
Definition negative (v : option num) : bool :=
  match v with
  | Some (NInt z) => z <? 0
  | Some (NFloat f) =>
      match F64.sign_of f with Some s => s | None => false end
  | None => false
  end.

Lemma trunc_nonneg f : F64.sign_of f = Some false -> 0 <= trunc f.
Proof.
  destruct f as [s|s| |s m e]; intros H; try (simpl; lia).
  inversion H. subst s. unfold trunc, cond_Zopp.
  destruct e.
  - apply Z.shiftl_nonneg. lia.
  - apply Z.shiftl_nonneg. lia.
  - apply Z.shiftr_nonneg. lia.
Qed.

Lemma as_float_sign v :
  F64.sign_of (as_float v) = Some true -> negative v = true.
Proof.
  destruct v as [[z|f]|]; simpl.
  - rewrite F64.of_Z_sign. intros H. now inversion H.
  - intros ->. reflexivity.
  - discriminate.
Qed.

(** What the cast stores for a number that is not an infinity: 0 for NaN,
    else the number without its fraction, or the least [int64] when that
    does not fit. *)
Definition float_to_int64 (f : F64.float) : Z :=
  if F64.is_nan f then 0
  else if (INT64_MIN <=? trunc f) && (trunc f <=? INT64_MAX) then trunc f
       else INT64_MIN.

(** What line 109 makes of one cell in a [float64] column. *)
Lemma cast_cell_value v rc :
  cast_int64 (fillna0 (as_float v)) = Some rc ->
  F64.is_inf (as_float v) = false /\ rc = float_to_int64 (as_float v).
Proof.
  unfold cast_int64, fillna0, float_to_int64.
  destruct (as_float v) as [s|s| |s m e]; simpl; intros H;
    try discriminate; split; try reflexivity; congruence.
Qed.

Lemma cast_cell_spec v rc :
  cast_int64 (fillna0 (as_float v)) = Some rc ->
  (v = None -> rc = 0)
  /\ (rc < 0 -> negative v = true \/ INT64_MAX < trunc (as_float v)).
Proof.
  intros H. split.
  - intros ->. vm_compute in H. congruence.
  - intros Hneg. unfold cast_int64 in H.
    destruct (F64.is_finite (fillna0 (as_float v))) eqn:Ef; [|discriminate].
    inversion H as [Hrc]. clear H.
    assert (Hf : fillna0 (as_float v) = as_float v \/ rc = 0).
    { unfold fillna0 in *. destruct (F64.is_nan (as_float v)); auto. }
    destruct Hf as [Hf|Hz]; [|lia]. rewrite Hf in *.
    destruct (F64.sign_of (as_float v)) as [[|]|] eqn:Es.
    + left. now apply as_float_sign.
    + right. pose proof (trunc_nonneg _ Es) as Hnn.
      destruct ((INT64_MIN <=? trunc (as_float v))
                && (trunc (as_float v) <=? INT64_MAX)) eqn:Er.
      * lia.
      * apply andb_false_iff in Er. unfold INT64_MIN in *.
        destruct Er as [Er|Er]; [apply Z.leb_gt in Er; lia|].
        now apply Z.leb_gt in Er.
    + destruct (as_float v); discriminate.
Qed.

(** Truncation drops the fraction: the quotient that rounds toward zero. *)
Lemma trunc_toward_zero s m e :
  trunc (S754_finite s m e)
  = if 0 <=? e then cond_Zopp s (Zpos m) * 2 ^ e
    else Z.quot (cond_Zopp s (Zpos m)) (2 ^ (- e)).
Proof.
  unfold trunc. destruct e as [|k|k].
  - simpl. destruct s; simpl; lia.
  - change (0 <=? Zpos k) with true. cbv iota.
    rewrite Z.shiftl_mul_pow2 by lia.
    destruct s; unfold cond_Zopp; [|reflexivity].
    change (Zneg m) with (- Zpos m). rewrite Z.mul_opp_l. reflexivity.
  - change (0 <=? Zneg k) with false. cbv iota.
    change (- Zneg k) with (Zpos k).
    rewrite Z.shiftr_div_pow2 by lia.
    assert (Hp : 0 < 2 ^ Zpos k) by (apply Z.pow_pos_nonneg; lia).
    destruct s; unfold cond_Zopp.
    + change (Zneg m) with (- Zpos m). rewrite Z.quot_opp_l by lia.
      rewrite Z.quot_div_nonneg by lia. reflexivity.
    + rewrite Z.quot_div_nonneg by lia. reflexivity.
Qed.

(** The relation between a closed row of the file and the ticket made of
    it, given the type [dt] of the column of reopen counts: what is stored
    for each type, and two consequences. *)
Definition typed_from (dt : dtype) (p : fields * cell) (t : ticket) : Prop :=
  let v := to_numeric parse_number (snd p) in
  cols t = fst p
  /\ match dt with
     | Int64 =>
         v = Some (NInt (reopen_count t))
         /\ INT64_MIN <= reopen_count t <= INT64_MAX
     | UInt64 =>
         exists z : Z,
           v = Some (NInt z) /\ 0 <= z <= UINT64_MAX
           /\ reopen_count t = (if z <=? INT64_MAX then z else z - 2 ^ 64)
     | Float64 =>
         F64.is_inf (as_float v) = false
         /\ reopen_count t
            = (if F64.is_nan (as_float v) then 0
               else if (INT64_MIN <=? trunc (as_float v))
                       && (trunc (as_float v) <=? INT64_MAX)
                    then trunc (as_float v)
                    else INT64_MIN)
     end
  /\ (v = None -> reopen_count t = 0)
  /\ (reopen_count t < 0 ->
      negative v = true
      \/ INT64_MAX < trunc (as_float v)
      \/ INT64_MAX < int_value v).

Lemma typed_combine_map (h : cell -> Z) (cands : list (fields * cell)) :
  Forall2 (fun (p : fields * cell) (t : ticket) =>
             cols t = fst p /\ reopen_count t = h (snd p))
          cands
          (map (fun p => typed (fst (fst p)) (snd p))
               (combine cands (map h (map snd cands)))).
Proof.
  apply (typed_combine (fun c rc => rc = h c)).
  induction cands; simpl; constructor; auto.
Qed.

Lemma column_dtype_int vs :
  column_dtype vs <> Float64 -> forallb is_int vs = true.
Proof.
  unfold column_dtype. destruct (forallb is_int vs); congruence.
Qed.

Lemma column_dtype_int64 vs :
  column_dtype vs = Int64 ->
  forallb (fun v => int_value v <=? INT64_MAX) vs = true.
Proof.
  unfold column_dtype. destruct (forallb is_int vs); [|discriminate].
  destruct (forallb (fun v => int_value v <=? INT64_MAX) vs); auto.
  destruct (forallb _ vs); discriminate.
Qed.

Lemma column_dtype_uint64 vs :
  column_dtype vs = UInt64 ->
  forallb (fun v => 0 <=? int_value v) vs = true.
Proof.
  unfold column_dtype. destruct (forallb is_int vs); [|discriminate].
  destruct (forallb (fun v => int_value v <=? INT64_MAX) vs); [discriminate|].
  destruct (forallb _ vs); auto. discriminate.
Qed.

Lemma is_int_value v :
  is_int v = true ->
  v = Some (NInt (int_value v)) /\ INT64_MIN <= int_value v <= UINT64_MAX.
Proof.
  destruct v as [[z|f]|]; simpl; try discriminate.
  intros H. apply andb_true_iff in H. destruct H as [H1 H2].
  apply Z.leb_le in H1. apply Z.leb_le in H2. auto.
Qed.

Lemma prepare_rows df new :
  prepare to_datetime parse_number df = Some new ->
  Forall2 (typed_from
             (column_dtype
                (map (to_numeric parse_number)
                     (map snd (candidates to_datetime df)))))
          (candidates to_datetime df) new.
Proof.
  unfold prepare, reopen_counts.
  set (cands := candidates to_datetime df).
  destruct (column_dtype (map (to_numeric parse_number) (map snd cands)))
    eqn:Edt.
  - intros H. inversion H as [Hnew]. clear H Hnew.
    rewrite (map_map (to_numeric parse_number)).
    eapply Forall2_impl_In;
      [|apply (typed_combine_map
                 (fun c => int_value (to_numeric parse_number c)))].
    intros p t Hin [Hc Hrc]. simpl in Hrc.
    assert (Hi : is_int (to_numeric parse_number (snd p)) = true).
    { assert (Hd : forallb is_int
                     (map (to_numeric parse_number) (map snd cands)) = true)
        by (apply column_dtype_int; congruence).
      rewrite forallb_forall in Hd. apply Hd, in_map, in_map. exact Hin. }
    assert (Hs : (int_value (to_numeric parse_number (snd p)) <=? INT64_MAX)
                 = true).
    { apply column_dtype_int64 in Edt. rewrite forallb_forall in Edt.
      apply (Edt (to_numeric parse_number (snd p))), in_map, in_map.
      exact Hin. }
    apply Z.leb_le in Hs. apply is_int_value in Hi. destruct Hi as [Hv Hr].
    unfold typed_from. cbv zeta. rewrite <- Hrc in Hv, Hr, Hs.
    split; [exact Hc|]. split; [split; [exact Hv|lia]|].
    split; [intros E; rewrite E in Hv; discriminate|].
    intros Hz. left. rewrite Hv. simpl. now apply Z.ltb_lt.
  - intros H. inversion H as [Hnew]. clear H Hnew.
    rewrite (map_map (to_numeric parse_number)).
    eapply Forall2_impl_In;
      [|apply (typed_combine_map
                 (fun c => wrap_int64 (int_value (to_numeric parse_number c))))].
    intros p t Hin [Hc Hrc]. simpl in Hrc.
    assert (Hi : is_int (to_numeric parse_number (snd p)) = true).
    { assert (Hd : forallb is_int
                     (map (to_numeric parse_number) (map snd cands)) = true)
        by (apply column_dtype_int; congruence).
      rewrite forallb_forall in Hd. apply Hd, in_map, in_map. exact Hin. }
    assert (Hs : (0 <=? int_value (to_numeric parse_number (snd p))) = true).
    { apply column_dtype_uint64 in Edt. rewrite forallb_forall in Edt.
      apply (Edt (to_numeric parse_number (snd p))), in_map, in_map.
      exact Hin. }
    apply Z.leb_le in Hs. apply is_int_value in Hi. destruct Hi as [Hv Hr].
    unfold typed_from. cbv zeta. unfold wrap_int64 in Hrc.
    split; [exact Hc|].
    split; [exists (int_value (to_numeric parse_number (snd p)));
            split; [exact Hv|split; [lia|exact Hrc]]|].
    split; [intros E; rewrite E in Hv; discriminate|].
    intros Hz. right. right. rewrite Hrc in Hz.
    destruct (int_value (to_numeric parse_number (snd p)) <=? INT64_MAX)
      eqn:El; [lia|]. now apply Z.leb_gt in El.
  - destruct (sequence _) as [rcs|] eqn:Es; [|discriminate].
    intros H. inversion H as [Hnew]. clear H Hnew.
    apply sequence_Forall2 in Es.
    eapply Forall2_impl_In;
      [|apply (typed_combine
                 (fun c rc => cast_int64
                                (fillna0 (as_float (to_numeric parse_number c)))
                              = Some rc))].
    + intros p t _ [Hc Hrc].
      pose proof (cast_cell_value _ _ Hrc) as [Hinf Hval].
      apply cast_cell_spec in Hrc.
      destruct Hrc as [H0 Hn]. unfold typed_from. cbv zeta.
      split; [exact Hc|]. split; [split; [exact Hinf|exact Hval]|].
      split; [exact H0|]. intros Hz. destruct (Hn Hz); auto.
    + rewrite !map_map in Es.
      clear - Es. revert Es. generalize rcs.
      induction cands as [|p cands IH]; intros r Es; inversion Es; subst;
        simpl; constructor; auto.
Qed.

Lemma candidates_closed df p :
  In p (candidates to_datetime df) -> status (fst p) = Some PERMANENTLY_CLOSED.
Proof.
  unfold candidates. rewrite filter_In. intros [_ H].
  unfold is_closed in H. destruct (status (fst p)) as [s|]; [|discriminate].
  apply UpsertProps.pystr_eqb_eq in H. now subst.
Qed.

Lemma prepare_closed df new :
  prepare to_datetime parse_number df = Some new ->
  Forall (fun t : ticket => status t = Some PERMANENTLY_CLOSED) new.
Proof.
  intros H. apply prepare_rows in H.
  eapply Forall2_Forall_r; [|exact H].
  intros p t Hin [Hc _]. simpl. rewrite Hc.
  now apply (candidates_closed df).
Qed.

End WithParsers.

End UploadProps.

(** ** Where stored rows come from *)

Module Provenance.
Import Upload.

Section WithParsers.
Variable to_datetime : pystr -> timestamp.
Variable parse_number : pystr -> option num.

(** An upload leaves the store alone or replaces the ticket table by the
    upsert of its batch. *)
Lemma upload_outcome name df st :
  snd (upload_tickets to_datetime parse_number name df st) = st
  \/ exists new,
       prepare to_datetime parse_number (normalize_crm df) = Some new
       /\ current (snd (upload_tickets to_datetime parse_number name df st))
          = Upsert.upsert (current st) new.
Proof.
  unfold upload_tickets.
  destruct (negb (endswith (lower name) (py ".csv"))); [now left|].
  destruct (missing_columns (normalize_crm df)); [|now left].
  destruct (prepare to_datetime parse_number (normalize_crm df)) as [new|] eqn:E; [|now left].
  right. exists new. split; reflexivity.
Qed.

Lemma uploads_provenance reqs : forall st (t : ticket),
  In t (current (uploads to_datetime parse_number st reqs)) ->
  In t (current st)
  \/ exists name df new,
       In (name, df) reqs
       /\ prepare to_datetime parse_number (normalize_crm df) = Some new /\ In t new.
Proof.
  induction reqs as [|[name df] reqs IH]; intros st t H; simpl in H.
  - now left.
  - destruct (IH _ _ H) as [Hin|[n [d [new [Hr [Hb Ht]]]]]].
    + destruct (upload_outcome name df st) as [E|[new [Hb E]]].
      * rewrite E in Hin. now left.
      * rewrite E in Hin. apply UpsertProps.upsert_subset in Hin.
        apply in_app_or in Hin. destruct Hin as [Hin|Hin]; [now left|].
        right. exists name, df, new. simpl. auto.
    + right. exists n, d, new. simpl. auto.
Qed.

Lemma Forall2_In_r {A B} (P : A -> B -> Prop) l r b :
  Forall2 P l r -> In b r -> exists a, In a l /\ P a b.
Proof.
  induction 1 as [|a' b' l r Hab F IH]; simpl; [contradiction|].
  intros [->|H]; [exists a'; auto|].
  destruct (IH H) as [a [Ha Hp]]. exists a. auto.
Qed.

End WithParsers.

End Provenance.

Module SampleUpload.

Definition raw (key status created resolved : string) (reopen : cell)
  : raw_ticket :=
  mkRaw (Some (py key)) (Some (py "10001")) (Some (py "Severity 1"))
        (Some (py status))
        (Some (py "18/Aug/25 11:00 AM")) (Some (py "18/Aug/25 11:00 AM"))
        (Some (py created)) None (Some (py resolved))
        (Some (py "ann")) None (Some (py "api")) (Some (py "login fails"))
        (Some (py "Acme   Inc. ")) reopen.

(** A complete file whose only row counts minus one reopening. *)
Definition negative_reopen : frame :=
  mkFrame EXPECTED_TICKET_COLS
          [ raw "SUP-7" "Permanently Closed" "18/Aug/25 10:00 AM"
                "18/Aug/25 1:00 PM" (CNum (NInt (-1))) ].

(** A file without the [Status] and [Created] headers. *)
Definition headers_missing : frame :=
  mkFrame [ py "Issue key"; py "Custom field (Severity)";
            py "Custom field (First Response SLA Target Date)";
            py "Custom field (First Response SLA Actual Date)";
            py "Resolved"; py "Assignee"; py "Custom field (Product)";
            py "Custom field (CRM Company)"; py "Custom field (Reopen Count)" ]
          [ raw "SUP-7" "Permanently Closed" "18/Aug/25 10:00 AM"
                "18/Aug/25 1:00 PM" (CNum (NInt 2)) ].

(** A file with an open row, a closed row without reopen count and a
    closed row whose count is not a number. *)
Definition mixed : frame :=
  mkFrame EXPECTED_TICKET_COLS
          [ raw "SUP-1" "Open" "18/Aug/25 10:00 AM" "18/Aug/25 1:00 PM"
                (CText (py "3"));
            raw "SUP-2" "Permanently Closed" "18/Aug/25 10:00 AM"
                "18/Aug/25 12:00 PM" CNaN;
            raw "SUP-3" "Permanently Closed" "18/Aug/25 10:00 AM"
                "18/Aug/25 1:00 PM" (CText (py "many")) ].

(** A complete file whose only row counts 2^63 reopenings: the column is
    [uint64]. *)
Definition unsigned_reopen : frame :=
  mkFrame EXPECTED_TICKET_COLS
          [ raw "SUP-8" "Permanently Closed" "18/Aug/25 10:00 AM"
                "18/Aug/25 1:00 PM" (CNum (NInt (2 ^ 63))) ].

(** A complete file with the counts 2.5 and -2.5. *)
Definition fractional_reopen : frame :=
  mkFrame EXPECTED_TICKET_COLS
          [ raw "SUP-8" "Permanently Closed" "18/Aug/25 10:00 AM"
                "18/Aug/25 1:00 PM"
                (CNum (NFloat (F64.div (F64.of_Z 5) (F64.of_Z 2))));
            raw "SUP-9" "Permanently Closed" "18/Aug/25 10:00 AM"
                "18/Aug/25 1:00 PM"
                (CNum (NFloat (F64.div (F64.of_Z (-5)) (F64.of_Z 2)))) ].

Definition upload :=
  Upload.upload_tickets Sample.to_datetime Sample.parse_number.

End SampleUpload.

(** C6. When the file name ends in [.csv] and a required header is absent,
    the upload fails with [MissingColumns]; the names it lists are exactly
    the required headers absent from the file, each once, in ascending
    order; and the store is the one before the request. *)
Theorem missing_required_header_is_rejected :
  forall (to_datetime : pystr -> timestamp)
         (parse_number : pystr -> option num)
         (filename : pystr) (df : frame) (st : store),
    Upload.endswith (Upload.lower filename) (py ".csv") = true ->
    (exists h, In h REQUIRED_TICKET_COLS /\ ~ In h (columns df)) ->
    exists names,
      Upload.upload_tickets to_datetime parse_number filename df st
      = (Err (MissingColumns names), st)
      /\ (forall h, In h names
                    <-> In h REQUIRED_TICKET_COLS /\ ~ In h (columns df))
      /\ NoDup names
      /\ StableSort.sorted pystr
           (fun a b => Key.le_of (Key.pystr_compare a b)) names.
Proof.
  intros td pn filename df st Hcsv [h Hh].
  exists (Upload.sorted_names (Upload.missing_columns df)).
  split; [|split; [|split]].
  - unfold Upload.upload_tickets. rewrite Hcsv. simpl negb. cbv iota.
    rewrite UploadProps.missing_columns_normalize.
    apply UploadProps.missing_columns_spec in Hh.
    destruct (Upload.missing_columns df); [contradiction|reflexivity].
  - intros x. unfold Upload.sorted_names.
    rewrite StableSort.sort_In. apply UploadProps.missing_columns_spec.
  - unfold Upload.sorted_names. apply StableSort.sort_nodup.
    unfold Upload.missing_columns. apply NoDup_filter.
    apply UploadProps.required_nodup.
  - unfold Upload.sorted_names. apply StableSort.sort_sorted.
    + apply UploadProps.pystr_leb_total.
    + apply UploadProps.pystr_leb_trans.
Qed.

(** C6 on a file without [Status] and [Created]. *)
Lemma missing_required_header_is_rejected_witness :
  exists names,
    SampleUpload.upload (py "Export.CSV") SampleUpload.headers_missing
                        empty_store
    = (Err (MissingColumns names), empty_store)
    /\ (forall h, In h names
                  <-> In h REQUIRED_TICKET_COLS
                      /\ ~ In h (columns SampleUpload.headers_missing))
    /\ NoDup names
    /\ StableSort.sorted pystr
         (fun a b => Key.le_of (Key.pystr_compare a b)) names.
Proof.
  apply (missing_required_header_is_rejected
           Sample.to_datetime Sample.parse_number (py "Export.CSV")
           SampleUpload.headers_missing empty_store).
  - reflexivity.
  - exists (py "Status"). split.
    + vm_compute. tauto.
    + vm_compute. intuition discriminate.
Defined.

(** The same file, evaluated: the two names come out in order. *)
Example headers_missing_response :
  SampleUpload.upload (py "Export.CSV") SampleUpload.headers_missing
                      empty_store
  = (Err (MissingColumns [py "Created"; py "Status"]), empty_store).
Proof. vm_compute. reflexivity. Qed.

(** C8. Whatever the sequence of uploads from the empty store, every stored
    row has status ["Permanently Closed"]; and so has every row of the batch
    an upload prepares. *)
Theorem only_permanently_closed_rows_are_stored :
  forall (to_datetime : pystr -> timestamp)
         (parse_number : pystr -> option num),
    (forall reqs : list (pystr * frame),
       Forall (fun t : ticket => status t = Some PERMANENTLY_CLOSED)
              (Upload.current
                 (Upload.uploads to_datetime parse_number empty_store reqs)))
    /\ (forall (df : frame) (new : list ticket),
          Upload.prepare to_datetime parse_number df = Some new ->
          Forall (fun t : ticket => status t = Some PERMANENTLY_CLOSED) new).
Proof.
  intros td pn. split.
  - intros reqs. apply Forall_forall. intros t Ht.
    apply Provenance.uploads_provenance in Ht.
    destruct Ht as [[]|[name [df [new [_ [Hb Ht]]]]]].
    apply UploadProps.prepare_closed in Hb.
    rewrite Forall_forall in Hb. now apply Hb.
  - intros df new. apply UploadProps.prepare_closed.
Qed.

(** C8 on an upload that stores rows. *)
Lemma only_permanently_closed_rows_are_stored_witness :
  Upload.current
    (Upload.uploads Sample.to_datetime Sample.parse_number empty_store
                    [ (py "tickets.csv", SampleUpload.mixed) ]) <> []
  /\ Forall (fun t : ticket => status t = Some PERMANENTLY_CLOSED)
            (Upload.current
               (Upload.uploads Sample.to_datetime Sample.parse_number
                               empty_store
                               [ (py "tickets.csv", SampleUpload.mixed) ])).
Proof.
  split.
  - vm_compute. discriminate.
  - apply (proj1 (only_permanently_closed_rows_are_stored
                    Sample.to_datetime Sample.parse_number)).
Defined.

(** C8 on a file with an open row: only the two closed rows are stored. *)
Example mixed_upload_stores_closed_rows :
  map (fun t : ticket => (issue_key t, status t, reopen_count t))
      (Upload.current
         (snd (SampleUpload.upload (py "tickets.csv") SampleUpload.mixed
                                   empty_store)))
  = [ (Some (py "SUP-2"), Some PERMANENTLY_CLOSED, 0);
      (Some (py "SUP-3"), Some PERMANENTLY_CLOSED, 0) ].
Proof. vm_compute. reflexivity. Qed.

(** C5, as the code has it.  Every stored row was made from a permanently
    closed line of some uploaded file, and its [reopen_count] is determined
    by the number read on that line and the type of the file's column of
    closed counts: the uploaded integer itself in an [int64] column; the
    integer less 2^64 from 2^63 on in a [uint64] column; in a [float64]
    column 0 for a missing or unreadable value and else the number
    truncated toward zero (the least [int64] beyond the range).  So the
    count is 0 when the uploaded value is missing or not a number, and
    negative only when the uploaded number is negative or exceeds the
    [int64] range.  Truncation is the quotient rounding toward zero. *)
Theorem stored_reopen_count_is_the_uploaded_integer :
  forall (to_datetime : pystr -> timestamp)
         (parse_number : pystr -> option num)
         (reqs : list (pystr * frame)),
    Forall
      (fun t : ticket =>
         exists (name : pystr) (df : frame) (p : fields * cell),
           In (name, df) reqs
           /\ In p (Upload.candidates to_datetime (Upload.normalize_crm df))
           /\ UploadProps.typed_from parse_number
                (Upload.column_dtype
                   (map (Upload.to_numeric parse_number)
                        (map snd (Upload.candidates to_datetime
                                    (Upload.normalize_crm df)))))
                p t)
      (Upload.current
         (Upload.uploads to_datetime parse_number empty_store reqs))
    /\ (forall (s : bool) (m : positive) (e : Z),
          Upload.trunc (S754_finite s m e)
          = if 0 <=? e then cond_Zopp s (Zpos m) * 2 ^ e
            else Z.quot (cond_Zopp s (Zpos m)) (2 ^ (- e))).
Proof.
  intros td pn reqs. split; [|apply UploadProps.trunc_toward_zero].
  apply Forall_forall. intros t Ht.
  apply Provenance.uploads_provenance in Ht.
  destruct Ht as [[]|[name [df [new [Hr [Hb Ht]]]]]].
  apply UploadProps.prepare_rows in Hb.
  destruct (Provenance.Forall2_In_r _ _ _ _ Hb Ht) as [p [Hp Hty]].
  exists name, df, p. auto.
Qed.

(** C5 on an upload with a missing and an unparseable reopen count. *)
Lemma stored_reopen_count_is_the_uploaded_integer_witness :
  map (fun t : ticket => reopen_count t)
      (Upload.current
         (Upload.uploads Sample.to_datetime Sample.parse_number empty_store
                         [ (py "tickets.csv", SampleUpload.mixed) ]))
  = [0; 0]
  /\ Forall
       (fun t : ticket =>
          exists (name : pystr) (df : frame) (p : fields * cell),
            In (name, df) [ (py "tickets.csv", SampleUpload.mixed) ]
            /\ In p (Upload.candidates Sample.to_datetime
                                       (Upload.normalize_crm df))
            /\ UploadProps.typed_from Sample.parse_number
                 (Upload.column_dtype
                    (map (Upload.to_numeric Sample.parse_number)
                         (map snd (Upload.candidates Sample.to_datetime
                                     (Upload.normalize_crm df)))))
                 p t)
       (Upload.current
          (Upload.uploads Sample.to_datetime Sample.parse_number empty_store
                          [ (py "tickets.csv", SampleUpload.mixed) ])).
Proof.
  split.
  - vm_compute. reflexivity.
  - apply (proj1 (stored_reopen_count_is_the_uploaded_integer
                    Sample.to_datetime Sample.parse_number
                    [ (py "tickets.csv", SampleUpload.mixed) ])).
Defined.

(** C5 as stated fails: a file whose reopen count is the integer -1 is
    stored with [reopen_count = -1]. *)
Lemma negative_reopen_count_is_stored :
  map (fun t : ticket => (issue_key t, reopen_count t))
      (Upload.current
         (snd (SampleUpload.upload (py "tickets.csv")
                                   SampleUpload.negative_reopen empty_store)))
  = [ (Some (py "SUP-7"), -1) ].
Proof. vm_compute. reflexivity. Qed.

(** The stored count by type of column: 2^63 in a column of unsigned
    integers is stored as -2^63, and a fraction is dropped toward zero. *)
Example reopen_count_by_column_type :
  map (fun t : ticket => reopen_count t)
      (Upload.current
         (snd (SampleUpload.upload (py "tickets.csv")
                                   SampleUpload.unsigned_reopen empty_store)))
  = [ - 2 ^ 63 ]
  /\ map (fun t : ticket => reopen_count t)
         (Upload.current
            (snd (SampleUpload.upload (py "tickets.csv")
                                      SampleUpload.fractional_reopen
                                      empty_store)))
     = [ 2; -2 ].
Proof. vm_compute. split; reflexivity. Qed.

(** ** Order and subtraction on binary64

    The comparison of two numbers reads their sign, exponent and mantissa;
    on the canonical representations that binary64 values have, it agrees
    with the sign of their difference. *)

Module F64Order.
Import F64.

Definition valid (x : float) : bool := valid_binary prec emax x.

Lemma digits2_bounds m :
  2 ^ (Zpos (digits2_pos m) - 1) <= Zpos m < 2 ^ Zpos (digits2_pos m).
Proof.
  induction m as [m IH|m IH|]; simpl digits2_pos.
  - rewrite Pos2Z.inj_succ.
    replace (Z.succ (Zpos (digits2_pos m)) - 1)
      with (Z.succ (Zpos (digits2_pos m) - 1)) by lia.
    rewrite !Z.pow_succ_r by lia. lia.
  - rewrite Pos2Z.inj_succ.
    replace (Z.succ (Zpos (digits2_pos m)) - 1)
      with (Z.succ (Zpos (digits2_pos m) - 1)) by lia.
    rewrite !Z.pow_succ_r by lia. lia.
  - simpl. lia.
Qed.

Lemma iter_xO m d : Zpos (Pos.iter xO m d) = Zpos m * 2 ^ Zpos d.
Proof.
  induction d as [|d IH] using Pos.peano_ind.
  - simpl. lia.
  - rewrite Pos.iter_succ, Pos2Z.inj_xO, IH, Pos2Z.inj_succ,
      Z.pow_succ_r by lia. lia.
Qed.

Lemma shl_align_value m e ez :
  ez <= e -> Zpos (fst (shl_align m e ez)) = Zpos m * 2 ^ (e - ez).
Proof.
  intros H. unfold shl_align.
  destruct (ez - e) as [|d|d] eqn:E; cbn [fst].
  - replace (e - ez) with 0 by lia. rewrite Z.pow_0_r. lia.
  - lia.
  - rewrite iter_xO. f_equal. f_equal. lia.
Qed.

(** Of two canonical numbers the one with the smaller exponent is the
    smaller. *)
Lemma canonical_exponent_order m1 e1 m2 e2 :
  bounded prec emax m1 e1 = true ->
  bounded prec emax m2 e2 = true ->
  e1 < e2 ->
  Zpos m1 < Zpos m2 * 2 ^ (e2 - e1).
Proof.
  unfold bounded, canonical_mantissa, fexp, emin, prec, emax.
  intros H1 H2 Hlt.
  apply andb_prop in H1, H2. destruct H1 as [H1 _], H2 as [H2 _].
  apply Z.eqb_eq in H1, H2.
  pose proof (digits2_bounds m1) as [_ B1].
  pose proof (digits2_bounds m2) as [B2 _].
  assert (D2 : Zpos (digits2_pos m2) = 53) by lia.
  assert (D1 : Zpos (digits2_pos m1) <= 53) by lia.
  rewrite D2 in B2.
  assert (P1 : 2 ^ Zpos (digits2_pos m1) <= 2 ^ 53)
    by (apply Z.pow_le_mono_r; lia).
  assert (P2 : 2 ^ 1 <= 2 ^ (e2 - e1)) by (apply Z.pow_le_mono_r; lia).
  change (2 ^ (53 - 1)) with 4503599627370496 in B2.
  change (2 ^ 53) with 9007199254740992 in P1.
  change (2 ^ 1) with 2 in P2.
  nia.
Qed.

(** The integer whose rounding is [x - y], on aligned mantissas. *)
Definition aligned_diff sx mx ex sy my ey : Z :=
  let ez := Z.min ex ey in
  cond_Zopp sx (Zpos (fst (shl_align mx ex ez)))
  - cond_Zopp sy (Zpos (fst (shl_align my ey ez))).

Lemma normalize_not_pos d ez :
  d <= 0 -> is_pos (binary_normalize prec emax d ez false) = false.
Proof.
  intros H. destruct d as [|d|d]; [reflexivity|lia|].
  apply sign_true_not_pos. simpl. apply binary_round_sign.
Qed.

Lemma leb_aligned_diff sx mx ex sy my ey :
  bounded prec emax mx ex = true ->
  bounded prec emax my ey = true ->
  leb (S754_finite sx mx ex) (S754_finite sy my ey) = true ->
  aligned_diff sx mx ex sy my ey <= 0.
Proof.
  intros Bx By Hle. unfold aligned_diff.
  rewrite (shl_align_value mx ex (Z.min ex ey)) by lia.
  rewrite (shl_align_value my ey (Z.min ex ey)) by lia.
  assert (Px : 0 < 2 ^ (ex - Z.min ex ey)) by (apply Z.pow_pos_nonneg; lia).
  assert (Py : 0 < 2 ^ (ey - Z.min ex ey)) by (apply Z.pow_pos_nonneg; lia).
  unfold leb, SFleb, SFcompare in Hle.
  destruct sx, sy; unfold cond_Zopp; try discriminate.
  - (* both negative *)
    destruct (ex ?= ey) eqn:E; try discriminate.
    + apply Z.compare_eq in E. subst ey.
      rewrite Z.min_id, Z.sub_diag in *. change (2 ^ 0) with 1.
      rewrite Pos.compare_cont_spec in Hle. simpl in Hle.
      destruct (mx ?= my)%positive eqn:Em; simpl in Hle; try discriminate.
      * apply Pos.compare_eq in Em. subst. lia.
      * apply Pos.compare_gt_iff in Em. lia.
    + apply Z.compare_gt_iff in E.
      rewrite Z.min_r by lia. rewrite Z.sub_diag. change (2 ^ 0) with 1.
      pose proof (canonical_exponent_order my ey mx ex By Bx E). lia.
  - (* negative and positive *)
    nia.
  - (* both positive *)
    destruct (ex ?= ey) eqn:E; try discriminate.
    + apply Z.compare_eq in E. subst ey.
      rewrite Z.min_id, Z.sub_diag in *. change (2 ^ 0) with 1.
      rewrite Pos.compare_cont_spec in Hle. simpl in Hle.
      destruct (mx ?= my)%positive eqn:Em; simpl in Hle; try discriminate.
      * apply Pos.compare_eq in Em. subst. lia.
      * change (mx < my)%positive in Em. lia.
    + change (ex < ey) in E.
      rewrite Z.min_l by lia. rewrite Z.sub_diag. change (2 ^ 0) with 1.
      pose proof (canonical_exponent_order mx ex my ey Bx By E). lia.
Qed.

(** [x <= y] makes [x - y] zero, negative or NaN: never positive. *)
Lemma leb_sub_not_pos x y :
  valid x = true -> valid y = true ->
  leb x y = true -> is_pos (sub x y) = false.
Proof.
  destruct x as [sx|sx| |sx mx ex], y as [sy|sy| |sy my ey];
    unfold valid; simpl valid_binary; intros Vx Vy Hle;
    try discriminate;
    try (destruct sx, sy; (discriminate || reflexivity));
    try (destruct sx; (discriminate || reflexivity));
    try (destruct sy; (discriminate || reflexivity)).
  unfold sub, SFsub.
  apply normalize_not_pos.
  apply (leb_aligned_diff sx mx ex sy my ey Vx Vy Hle).
Qed.

End F64Order.

(** ** The SLA join and its metrics *)

Module Join.

(** The row of the joined frame: the ticket, the two SLA columns of the
    matching SLA row (NaN without a match) and the four computed columns. *)
Record joined := mkJoined {
  jticket :> ticket;
  sla_first_response : F64.float;
  sla_resolution : F64.float;
  first_response_within_sla : bool;
  first_response_exceed_pct : F64.float;
  resolution_within_sla : bool;
  resolution_exceed_pct : F64.float
}.

Definition opt_eqb (a b : option pystr) : bool :=
  match a, b with
  | Some x, Some y => pystr_eqb x y
  | None, None => true
  | _, _ => false
  end.

(** Equality of the join keys [crm_company] and [severity]. *)
Definition on_key (t : ticket) (s : sla_row) : bool :=
  opt_eqb (crm_company t) (sla_company s)
  && opt_eqb (severity t) (sla_severity s).

(** [t.merge(s, how="left", on=["crm_company","severity"])]: every ticket
    once per matching SLA row, and once with missing SLA columns when there
    is none. *)
Definition merge (t : list ticket) (s : list sla_row)
  : list (ticket * F64.float * F64.float) :=
  flat_map
    (fun tk =>
       match filter (on_key tk) s with
       | [] => [(tk, F64.nan, F64.nan)]
       | ms => map (fun m => (tk, first_response m, resolution m)) ms
       end)
    t.

(** [np.where(delta > 0, (delta / np.clip(ref, 1.0, None)) * 100.0, 0.0)] *)
Definition exceed_pct (delta ref : F64.float) : F64.float :=
  if F64.ltb F64.zero delta
  then F64.mul (F64.div delta (F64.clip_min ref F64.one)) F64.hundred
  else F64.zero.

(** Lines 183-201 on one row of the merged frame. *)
Definition metrics (row : ticket * F64.float * F64.float) : joined :=
  let '(tk, sla_fr, sla_res) := row in
  let delta_fr := Time.minutes_between (fr_actual tk) (fr_target tk) in
  let target_fr := Time.minutes_between (fr_target tk) (created tk) in
  let delta_res := F64.sub (resolution_minutes tk) sla_res in
  mkJoined tk sla_fr sla_res
    (Time.ts_leb (fr_actual tk) (fr_target tk)
     && Time.notna (fr_actual tk) && Time.notna (fr_target tk))
    (exceed_pct delta_fr target_fr)
    (F64.leb (resolution_minutes tk) sla_res)
    (exceed_pct delta_res sla_res).

(** [_load_joined].  Line 195 reads the column [resolution] of the merged
    frame, which is there when the SLA table has it. *)
Definition load_joined (st : store) : result (list joined) :=
  match tickets_parquet st, sla_parquet st with
  | Some t, Some s =>
      if resolution_stored st
      then Ok (map metrics (merge t s))
      else Err (KeyError (py "resolution"))
  | _, _ => Err DataNotReady
  end.

End Join.

(** ** Facts about the exceed percentage *)

Module JoinProps.
Import F64 Join.

Lemma one_eq : one = S754_finite false 4503599627370496 (-52).
Proof. reflexivity. Qed.

Lemma sixty_eq : sixty = S754_finite false 8444249301319680 (-47).
Proof. reflexivity. Qed.

Lemma hundred_eq : hundred = S754_finite false 7036874417766400 (-46).
Proof. reflexivity. Qed.

Lemma billion_eq :
  of_Z 1000000000 = S754_finite false 8388608000000000 (-23).
Proof. reflexivity. Qed.

Lemma leb_one_pos r : leb one r = true -> is_pos r = true.
Proof.
  rewrite one_eq. destruct r as [s|[|]| |[|] m e]; simpl; auto; discriminate.
Qed.

(** The denominator: NaN for a NaN reference, else the greater of the
    reference and 1. *)
Lemma clip_cases r :
  (r = nan /\ clip_min r one = nan)
  \/ (leb one r = true /\ clip_min r one = r)
  \/ (leb one r = false /\ r <> nan /\ clip_min r one = one).
Proof.
  unfold clip_min, maximum.
  destruct (leb one r) eqn:E; simpl.
  - right. left. auto.
  - destruct r; simpl; auto; right; right; repeat split; discriminate.
Qed.

Lemma clip_pos r : r <> nan -> is_pos (clip_min r one) = true.
Proof.
  intros H. destruct (clip_cases r) as [[E _]|[[E ->]|[_ [_ ->]]]].
  - contradiction.
  - now apply leb_one_pos.
  - reflexivity.
Qed.

Lemma div_not_pos x y :
  is_pos x = false -> sign_of y = Some false -> is_pos (div x y) = false.
Proof.
  intros Hx Hy.
  destruct (sign_of x) as [[|]|] eqn:Sx.
  - destruct (div_sign x y true false Sx Hy) as [H|H].
    + now apply sign_true_not_pos.
    + now rewrite H.
  - destruct x as [s|s| |s m e]; simpl in *; try discriminate.
    + inversion Sx. subst s.
      destruct y as [t|t| |t m e]; simpl in *; try discriminate;
        inversion Hy; subst; reflexivity.
    + inversion Sx. subst. discriminate.
    + inversion Sx. subst. discriminate.
  - destruct x; try discriminate. reflexivity.
Qed.

(** A delay that is not positive gives no positive number of minutes. *)
Lemma minutes_not_pos a b ns :
  Time.td_sub a b = Some ns -> ns <= 0 ->
  is_pos (Time.minutes_between a b) = false.
Proof.
  intros E H. unfold Time.minutes_between, Time.total_seconds. rewrite E.
  apply div_not_pos; [|reflexivity].
  apply div_not_pos; [|reflexivity].
  pose proof (of_Z_sign ns) as S.
  destruct (ns <? 0) eqn:L.
  - now apply sign_true_not_pos.
  - apply Z.ltb_ge in L. assert (ns = 0) by lia. subst. reflexivity.
Qed.

Lemma minutes_nat a b :
  Time.td_sub a b = None -> Time.minutes_between a b = nan.
Proof. intros E. unfold Time.minutes_between. now rewrite E. Qed.

Lemma div_finite_not_nan x y :
  sign_of x <> None -> is_finite y = true -> is_pos y = true ->
  sign_of (div x y) <> None.
Proof.
  intros Hx Hf Hp Hn.
  assert (E : div x y = nan)
    by (destruct (div x y); simpl in Hn; try discriminate; reflexivity).
  apply div_nan in E.
  destruct E as [E|[E|[[_ E]|[s [t [_ E]]]]]].
  - destruct x; simpl in *; try discriminate. now apply Hx.
  - destruct y; discriminate.
  - destruct y; discriminate.
  - subst. discriminate.
Qed.

(** Between two present timestamps the number of minutes is a number. *)
Lemma minutes_not_nan a b ns :
  Time.td_sub a b = Some ns -> Time.minutes_between a b <> nan.
Proof.
  intros E. unfold Time.minutes_between, Time.total_seconds. rewrite E.
  intros H.
  apply (div_finite_not_nan (div (of_Z ns) (of_Z 1000000000)) sixty);
    try reflexivity; [|now rewrite H].
  apply div_finite_not_nan; try reflexivity.
  rewrite of_Z_sign. discriminate.
Qed.

Lemma exceed_pct_not_late delta ref :
  is_pos delta = false -> exceed_pct delta ref = zero.
Proof. unfold exceed_pct. rewrite ltb_zero_is_pos. now intros ->. Qed.

(** The percentage is NaN or carries no minus sign. *)
Lemma exceed_pct_sign delta ref :
  exceed_pct delta ref = nan
  \/ sign_of (exceed_pct delta ref) = Some false.
Proof.
  unfold exceed_pct. rewrite ltb_zero_is_pos.
  destruct (is_pos delta) eqn:Hd; [|now right].
  destruct (clip_cases ref) as [[-> ->]|Hc].
  - left. destruct delta; reflexivity.
  - assert (Hs : sign_of (clip_min ref one) = Some false).
    { apply is_pos_sign, clip_pos. destruct Hc as [[E _]|[_ [E _]]]; auto.
      intros ->. discriminate. }
    destruct (div_sign delta _ false false (is_pos_sign _ Hd) Hs) as [H|H].
    + destruct (mul_sign _ hundred false false H eq_refl); auto.
    + left. now rewrite H.
Qed.

(** It is NaN only for a late delay over a NaN reference, or for an
    infinite delay over an infinite reference. *)
Lemma exceed_pct_nan delta ref :
  exceed_pct delta ref = nan ->
  is_pos delta = true /\ (ref = nan \/ (delta = pinf /\ ref = pinf)).
Proof.
  unfold exceed_pct. rewrite ltb_zero_is_pos.
  destruct (is_pos delta) eqn:Hd; [|discriminate].
  intros H. split; auto.
  destruct (clip_cases ref) as [[-> _]|Hc]; [now left|].
  assert (Hr : ref <> nan).
  { destruct Hc as [[E _]|[_ [E _]]]; auto. intros ->. discriminate. }
  pose proof (clip_pos ref Hr) as Hp.
  apply mul_nan in H.
  destruct H as [H|[H|[[_ [_ [t H]]]|[H _]]]]; try discriminate.
  assert (E : div delta (clip_min ref one) = nan)
    by (destruct (div delta (clip_min ref one)); try discriminate; auto).
  apply div_nan in E.
  destruct E as [E|[E|[[E1 E2]|[s [t [E _]]]]]].
  - destruct delta; discriminate.
  - destruct (clip_min ref one); discriminate.
  - right. split.
    + destruct delta as [|[|]| |]; try discriminate. reflexivity.
    + destruct Hc as [[_ E]|[_ [_ E]]]; rewrite E in *.
      * destruct ref as [|[|]| |]; try discriminate. reflexivity.
      * discriminate.
  - subst. discriminate.
Qed.

End JoinProps.

(** ** Magnitudes on binary64

    [mag_le K x] says that [x] is a finite number below [2^K] in absolute
    value.  Rounding adds at most one binary digit, which is enough to show
    that the computations of the join stay finite. *)

Module F64Mag.
Import F64.

Definition mag_le (K : Z) (x : float) : Prop :=
  match x with
  | S754_zero _ => True
  | S754_finite _ m e => Zpos (digits2_pos m) + e <= K
  | _ => False
  end.

Lemma mag_le_mono K K' x : K <= K' -> mag_le K x -> mag_le K' x.
Proof. destruct x; simpl; auto. lia. Qed.

Lemma mag_le_finite K x : mag_le K x -> is_finite x = true.
Proof. destruct x; simpl; auto; contradiction. Qed.

Lemma digits_nonneg z : 0 <= Zdigits2 z.
Proof. destruct z; simpl; lia. Qed.

Lemma digits_upper z : 0 <= z -> z < 2 ^ Zdigits2 z.
Proof.
  destruct z as [|p|p]; simpl; intros H; try lia.
  apply F64Order.digits2_bounds.
Qed.

Lemma digits_le z n : 0 <= n -> 0 <= z < 2 ^ n -> Zdigits2 z <= n.
Proof.
  intros Hn [H0 Hz]. destruct z as [|p|p]; simpl; try lia.
  pose proof (F64Order.digits2_bounds p) as [B _].
  assert (L : 2 ^ (Zpos (digits2_pos p) - 1) < 2 ^ n) by lia.
  apply Z.pow_lt_mono_r_iff in L; lia.
Qed.

Lemma digits_mono a b : 0 <= a <= b -> Zdigits2 a <= Zdigits2 b.
Proof.
  intros H. apply digits_le; [apply digits_nonneg|].
  pose proof (digits_upper b). lia.
Qed.

Lemma digits_succ z : 0 <= z -> Zdigits2 (z + 1) <= Zdigits2 z + 1.
Proof.
  intros H. pose proof (digits_nonneg z). pose proof (digits_upper z H).
  apply digits_le; [lia|]. rewrite Z.pow_add_r by lia. lia.
Qed.

Lemma digits_shiftl m s :
  0 <= m -> 0 <= s -> Zdigits2 (Z.shiftl m s) <= Zdigits2 m + s.
Proof.
  intros Hm Hs. pose proof (digits_nonneg m). pose proof (digits_upper m Hm).
  rewrite Z.shiftl_mul_pow2 by lia.
  assert (0 < 2 ^ s) by (apply Z.pow_pos_nonneg; lia).
  apply digits_le; [lia|]. rewrite Z.pow_add_r by lia. nia.
Qed.

Lemma digits_iter_xO m d :
  Zpos (digits2_pos (Pos.iter xO m d)) = Zpos (digits2_pos m) + Zpos d.
Proof.
  induction d as [|d IH] using Pos.peano_ind.
  - simpl. lia.
  - rewrite Pos.iter_succ. simpl digits2_pos. lia.
Qed.

(** *** Shifting right *)

Lemma shr_1_digits mrs :
  0 <= shr_m mrs ->
  Zdigits2 (shr_m (shr_1 mrs)) <= Z.max 0 (Zdigits2 (shr_m mrs) - 1).
Proof.
  destruct mrs as [m r s]. cbn [shr_m shr_1].
  destruct m as [|[q|q|]|[q|q|]]; cbn [shr_m Zdigits2 digits2_pos];
    rewrite ?Pos2Z.inj_succ; lia.
Qed.

Lemma iter_shr_1_digits n : forall mrs,
  0 <= shr_m mrs ->
  Zdigits2 (shr_m (iter_pos shr_1 n mrs))
  <= Z.max 0 (Zdigits2 (shr_m mrs) - Zpos n).
Proof.
  induction n as [n IH|n IH|]; intros mrs H; simpl iter_pos.
  - pose proof (shr_1_digits mrs H) as H1.
    pose proof (shr_1_nonneg mrs H) as N1.
    pose proof (IH _ N1) as H2.
    pose proof (iter_shr_1_nonneg n _ N1) as N2.
    pose proof (IH _ N2) as H3. lia.
  - pose proof (IH _ H) as H2.
    pose proof (iter_shr_1_nonneg n _ H) as N2.
    pose proof (IH _ N2) as H3. lia.
  - pose proof (shr_1_digits mrs H). lia.
Qed.

Lemma shr_fexp_bound m e l :
  0 <= m ->
  0 <= shr_m (fst (shr_fexp prec emax m e l))
  /\ snd (shr_fexp prec emax m e l)
     = Z.max e (fexp prec emax (Zdigits2 m + e))
  /\ Zdigits2 (shr_m (fst (shr_fexp prec emax m e l)))
     + snd (shr_fexp prec emax m e l)
     <= Z.max (Zdigits2 m + e) (snd (shr_fexp prec emax m e l)).
Proof.
  intros H. split; [now apply shr_fexp_nonneg|].
  unfold shr_fexp, shr.
  pose proof (shr_m_of_loc m l) as Hm.
  destruct (fexp prec emax (Zdigits2 m + e) - e) as [|n|n] eqn:E;
    cbn [fst snd]; rewrite ?Hm.
  - split; lia.
  - pose proof (iter_shr_1_digits n (shr_record_of_loc m l)) as D.
    rewrite Hm in D. specialize (D H). split; lia.
  - split; lia.
Qed.

Lemma round_digits m l :
  0 <= m -> Zdigits2 (round_nearest_even m l) <= Zdigits2 m + 1.
Proof.
  intros H. pose proof (digits_succ m H).
  destruct l as [|[ | | ]]; simpl; try lia.
  destruct (Z.even m); lia.
Qed.

(** *** One rounding step *)

Lemma binary_round_aux_bound K sx mx ex lx :
  0 <= mx -> Zdigits2 mx + ex <= K -> emin prec emax <= K -> K <= 970 ->
  mag_le (K + 1) (binary_round_aux prec emax sx mx ex lx).
Proof.
  intros Hm HK Hlo Hhi. unfold binary_round_aux.
  destruct (shr_fexp_bound mx ex lx Hm) as [N1 [E1 D1]].
  destruct (shr_fexp prec emax mx ex lx) as [mrs' e'] eqn:S1.
  cbn [fst snd] in N1, E1, D1.
  pose proof (round_nearest_even_nonneg (shr_m mrs') (loc_of_shr_record mrs') N1)
    as Nr.
  pose proof (round_digits (shr_m mrs') (loc_of_shr_record mrs') N1) as Dr.
  destruct (shr_fexp_bound
              (round_nearest_even (shr_m mrs') (loc_of_shr_record mrs'))
              e' loc_Exact Nr) as [N2 [E2 D2]].
  destruct (shr_fexp prec emax
              (round_nearest_even (shr_m mrs') (loc_of_shr_record mrs'))
              e' loc_Exact) as [mrs'' e''] eqn:S2.
  cbn [fst snd] in N2, E2, D2.
  pose proof (digits_nonneg mx) as P0.
  pose proof (digits_nonneg (shr_m mrs')) as P1.
  pose proof (digits_nonneg
                (round_nearest_even (shr_m mrs') (loc_of_shr_record mrs')))
    as P2.
  unfold fexp, emin, prec, emax in *.
  destruct (shr_m mrs'') as [|m|m] eqn:Em; [exact I| |lia].
  assert (Hle : (e'' <=? 1024 - 53) = true) by (apply Z.leb_le; lia).
  rewrite Hle. simpl in D2 |- *. lia.
Qed.

Lemma shl_align_bound m e e' :
  Zpos (digits2_pos (fst (shl_align m e e'))) + snd (shl_align m e e')
  = Zpos (digits2_pos m) + e.
Proof.
  unfold shl_align. destruct (e' - e) as [|d|d] eqn:E; cbn [fst snd]; auto.
  rewrite digits_iter_xO. lia.
Qed.

Lemma binary_round_bound K sx m e :
  Zpos (digits2_pos m) + e <= K -> emin prec emax <= K -> K <= 970 ->
  mag_le (K + 1) (binary_round prec emax sx m e).
Proof.
  intros HK Hlo Hhi. unfold binary_round.
  pose proof (shl_align_bound m e
                (fexp prec emax (Zpos (digits2_pos m) + e))) as B.
  destruct (shl_align m e _) as [mz ez]. cbn [fst snd] in B.
  apply binary_round_aux_bound;
    [lia | cbn [Zdigits2]; lia | exact Hlo | exact Hhi].
Qed.

(** *** The operations *)

Lemma of_Z_bound K z :
  Z.abs z < 2 ^ K -> 0 <= K <= 970 -> mag_le (K + 1) (of_Z z).
Proof.
  intros Hz HK. unfold of_Z, binary_normalize.
  assert (Hlo : emin prec emax <= K) by (unfold emin, prec, emax; lia).
  destruct z as [|p|p]; [exact I| |];
    apply binary_round_bound; try lia;
    (assert (D : Zdigits2 (Zpos p) <= K) by (apply digits_le; lia));
    simpl in D; lia.
Qed.

Lemma div_core_bound m1 e1 m2 e2 :
  0 <= fst (fst (SFdiv_core_binary prec emax (Zpos m1) e1 (Zpos m2) e2))
  /\ Zdigits2 (fst (fst (SFdiv_core_binary prec emax (Zpos m1) e1 (Zpos m2) e2)))
     + snd (fst (SFdiv_core_binary prec emax (Zpos m1) e1 (Zpos m2) e2))
     <= Zpos (digits2_pos m1) + e1 - e2.
Proof.
  split; [apply SFdiv_core_nonneg|].
  unfold SFdiv_core_binary.
  set (e' := Z.min _ (e1 - e2)).
  set (s := e1 - e2 - e').
  set (m' := match s with Z0 => _ | Zpos _ => _ | Zneg _ => _ end).
  assert (Hs : 0 <= s) by (subst s e'; lia).
  assert (Hm : 0 <= m' /\ Zdigits2 m' <= Zpos (digits2_pos m1) + s).
  { subst m'. destruct s as [|p|p] eqn:Es; try lia.
    - simpl. lia.
    - split; [apply Z.shiftl_nonneg; lia|].
      change (Zpos (digits2_pos m1)) with (Zdigits2 (Zpos m1)).
      apply digits_shiftl; lia. }
  destruct Hm as [Hm0 Hmd].
  pose proof (Z.div_pos m' (Zpos m2) Hm0 ltac:(lia)) as Hq.
  assert (Hqm : m' / Zpos m2 <= m').
  { apply Z.div_le_upper_bound; nia. }
  unfold Z.div in Hq, Hqm.
  destruct (Z.div_eucl m' (Zpos m2)) as [q r]. cbn [fst snd].
  pose proof (digits_mono q m' ltac:(lia)). subst s. lia.
Qed.

(** A quotient by a finite number whose exponent is at least [-L]. *)
Lemma div_bound K L x sy my ey :
  mag_le K x -> - L <= ey -> emin prec emax <= K + L -> K + L <= 970 ->
  mag_le (K + L + 1) (div x (S754_finite sy my ey)).
Proof.
  intros Hx Hy Hlo Hhi.
  destruct x as [sx|sx| |sx mx ex]; cbn [mag_le] in Hx; try contradiction.
  - exact I.
  - unfold div, SFdiv.
    destruct (div_core_bound mx ex my ey) as [Hq Hd].
    destruct (SFdiv_core_binary prec emax (Zpos mx) ex (Zpos my) ey)
      as [[mz ez] lz]. cbn [fst snd] in Hq, Hd.
    apply binary_round_aux_bound; auto. lia.
Qed.

Lemma mul_bound K1 K2 x y :
  mag_le K1 x -> mag_le K2 y ->
  emin prec emax <= K1 + K2 -> K1 + K2 <= 970 ->
  mag_le (K1 + K2 + 1) (mul x y).
Proof.
  intros Hx Hy Hlo Hhi.
  destruct x as [sx|sx| |sx mx ex], y as [sy|sy| |sy my ey];
    cbn [mag_le] in Hx, Hy; try contradiction; try exact I.
  unfold mul, SFmul.
  apply binary_round_aux_bound; auto; [lia|].
  assert (D : Zdigits2 (Zpos (mx * my))
              <= Zpos (digits2_pos mx) + Zpos (digits2_pos my)).
  { pose proof (F64Order.digits2_bounds mx) as [_ Bx].
    pose proof (F64Order.digits2_bounds my) as [_ By].
    apply digits_le; [lia|]. rewrite Z.pow_add_r by lia.
    rewrite Pos2Z.inj_mul. nia. }
  lia.
Qed.

Lemma aligned_bound K m e ez :
  ez <= e -> Zpos (digits2_pos m) + e <= K ->
  Zpos (fst (shl_align m e ez)) < 2 ^ (K - ez).
Proof.
  intros He HK. rewrite F64Order.shl_align_value by assumption.
  pose proof (F64Order.digits2_bounds m) as [_ B].
  assert (P : 0 < 2 ^ (e - ez)) by (apply Z.pow_pos_nonneg; lia).
  assert (L : 2 ^ Zpos (digits2_pos m) * 2 ^ (e - ez) <= 2 ^ (K - ez)).
  { rewrite <- Z.pow_add_r by lia. apply Z.pow_le_mono_r; lia. }
  nia.
Qed.

Lemma normalize_bound K d ez :
  Zdigits2 d + ez <= K -> emin prec emax <= K -> K <= 970 ->
  mag_le (K + 1) (binary_normalize prec emax d ez false).
Proof.
  intros HK Hlo Hhi. unfold binary_normalize.
  destruct d as [|p|p]; [exact I| |]; now apply binary_round_bound.
Qed.

(** A difference of two numbers below [2^K]. *)
Lemma sub_bound K x y :
  mag_le K x -> mag_le K y -> emin prec emax <= K + 1 -> K + 1 <= 970 ->
  mag_le (K + 2) (sub x y).
Proof.
  intros Hx Hy Hlo Hhi.
  destruct x as [sx|sx| |sx mx ex], y as [sy|sy| |sy my ey];
    cbn [mag_le] in Hx, Hy; try contradiction.
  - destruct sx, sy; exact I.
  - cbn [sub SFsub mag_le]. lia.
  - cbn [sub SFsub mag_le]. lia.
  - unfold sub, SFsub.
    replace (K + 2) with (K + 1 + 1) by lia.
    apply normalize_bound; auto.
    set (ez := Z.min ex ey).
    pose proof (aligned_bound K mx ex ez ltac:(subst ez; lia) Hx) as Bx.
    pose proof (aligned_bound K my ey ez ltac:(subst ez; lia) Hy) as By.
    set (a := Zpos (fst (shl_align mx ex ez))) in *.
    set (b := Zpos (fst (shl_align my ey ez))) in *.
    assert (Pa : 0 < a) by (subst a; lia).
    assert (Pb : 0 < b) by (subst b; lia).
    assert (Hn : 0 <= K - ez).
    { pose proof (Pos2Z.is_pos (digits2_pos mx)). subst ez. lia. }
    assert (D : Zdigits2 (Z.abs (cond_Zopp sx a - cond_Zopp sy b))
                <= K - ez + 1).
    { apply digits_le; [lia|]. rewrite Z.pow_add_r by lia.
      change (2 ^ 1) with 2. unfold cond_Zopp. destruct sx, sy; lia. }
    assert (A : forall z, Zdigits2 (Z.abs z) = Zdigits2 z)
      by (intros [|q|q]; reflexivity).
    rewrite A in D. lia.
Qed.

End F64Mag.

(** ** The joined rows of well-formed tables *)

Module JoinFacts.
Import F64 Join.

(** A [datetime64[ns]] value fits 64 bits. *)
Definition int64 (t : timestamp) : Prop :=
  match t with
  | Some z => - 2 ^ 63 <= z < 2 ^ 63
  | None => True
  end.

(** The stored ticket holds [int64] timestamps and a binary64 number of
    minutes. *)
Definition ticket_wf (tk : ticket) : Prop :=
  int64 (fr_actual tk) /\ int64 (fr_target tk) /\ int64 (created tk)
  /\ F64Order.valid (resolution_minutes tk) = true.

(** The merged row: a well-formed ticket beside a binary64 SLA target. *)
Definition row_wf (row : ticket * float * float) : Prop :=
  ticket_wf (fst (fst row)) /\ F64Order.valid (snd row) = true.

Lemma minutes_bound a b :
  int64 a -> int64 b ->
  Time.minutes_between a b = nan
  \/ F64Mag.mag_le 137 (Time.minutes_between a b).
Proof.
  intros Ha Hb. unfold Time.minutes_between, Time.total_seconds.
  destruct (Time.td_sub a b) as [ns|] eqn:E; [right|now left].
  destruct a as [x|], b as [y|]; try discriminate.
  inversion E. subst ns. simpl in Ha, Hb.
  assert (Hns : Z.abs (x - y) < 2 ^ 64).
  { change (2 ^ 64) with (2 * 2 ^ 63). lia. }
  pose proof (F64Mag.of_Z_bound 64 (x - y) Hns ltac:(lia)) as B0.
  rewrite JoinProps.billion_eq, JoinProps.sixty_eq.
  pose proof (F64Mag.div_bound 65 23 _ false 8388608000000000 (-23) B0
                ltac:(lia) ltac:(unfold emin, prec, emax; lia) ltac:(lia))
    as B1.
  exact (F64Mag.div_bound 89 47 _ false 8444249301319680 (-47) B1
           ltac:(lia) ltac:(unfold emin, prec, emax; lia) ltac:(lia)).
Qed.

Lemma leb_one_exponent s m e :
  leb one (S754_finite s m e) = true -> - 52 <= e.
Proof.
  rewrite JoinProps.one_eq. unfold leb, SFleb, SFcompare.
  destruct s; [discriminate|].
  destruct (-52 ?= e) eqn:E; try discriminate; intros _.
  - apply Z.compare_eq in E. lia.
  - change (-52 < e) in E. lia.
Qed.

(** A bounded delay gives a finite percentage, whatever the reference. *)
Lemma exceed_pct_finite K delta ref :
  F64Mag.mag_le K delta -> ref <> nan -> -1100 <= K -> K <= 900 ->
  is_finite (exceed_pct delta ref) = true.
Proof.
  intros Hd Hr Hlo Hhi. unfold exceed_pct.
  destruct (ltb zero delta); [|reflexivity].
  assert (Hq : F64Mag.mag_le (K + 52 + 1) (div delta (clip_min ref one))).
  { destruct (JoinProps.clip_cases ref) as [[E _]|[[E ->]|[_ [_ ->]]]].
    - contradiction.
    - destruct ref as [s|s| |s m e]; try discriminate.
      + destruct s; [discriminate|].
        destruct delta; cbn [F64Mag.mag_le] in Hd; try contradiction;
          exact I.
      + apply F64Mag.div_bound; auto.
        * now apply leb_one_exponent in E.
        * unfold emin, prec, emax. lia.
        * lia.
    - rewrite JoinProps.one_eq. apply F64Mag.div_bound; auto; try lia.
      unfold emin, prec, emax. lia. }
  assert (Hh : F64Mag.mag_le 7 hundred)
    by (rewrite JoinProps.hundred_eq; simpl; lia).
  apply (F64Mag.mag_le_finite (K + 52 + 1 + 7 + 1)).
  apply F64Mag.mul_bound; auto; unfold emin, prec, emax; lia.
Qed.

(** *** First response *)

Lemma fr_pct_within tk :
  Time.ts_leb (fr_actual tk) (fr_target tk) = true ->
  exceed_pct (Time.minutes_between (fr_actual tk) (fr_target tk))
             (Time.minutes_between (fr_target tk) (created tk)) = zero.
Proof.
  intros H. apply JoinProps.exceed_pct_not_late.
  destruct (fr_actual tk) as [a|], (fr_target tk) as [t|]; try discriminate.
  apply (JoinProps.minutes_not_pos _ _ (a - t)); [reflexivity|].
  simpl in H. apply Z.leb_le in H. lia.
Qed.

Lemma fr_pct_missing tk :
  fr_actual tk = None \/ fr_target tk = None ->
  exceed_pct (Time.minutes_between (fr_actual tk) (fr_target tk))
             (Time.minutes_between (fr_target tk) (created tk)) = zero.
Proof.
  intros H. apply JoinProps.exceed_pct_not_late.
  rewrite JoinProps.minutes_nat; [reflexivity|].
  destruct H as [-> | ->]; [reflexivity|].
  destruct (fr_actual tk); reflexivity.
Qed.

Lemma exceed_pct_nan_ref delta :
  exceed_pct delta nan = if is_pos delta then nan else zero.
Proof.
  unfold exceed_pct. rewrite ltb_zero_is_pos.
  destruct delta as [s|[|]| |[|] m e]; reflexivity.
Qed.

Lemma fr_pct_no_created tk :
  created tk = None ->
  exceed_pct (Time.minutes_between (fr_actual tk) (fr_target tk))
             (Time.minutes_between (fr_target tk) (created tk))
  = if is_pos (Time.minutes_between (fr_actual tk) (fr_target tk))
    then nan else zero.
Proof.
  intros H. rewrite (JoinProps.minutes_nat (fr_target tk) (created tk)).
  - apply exceed_pct_nan_ref.
  - rewrite H. destruct (fr_target tk); reflexivity.
Qed.

(** With [created] present the percentage is a finite number. *)
Lemma fr_pct_finite tk :
  int64 (fr_actual tk) -> int64 (fr_target tk) -> int64 (created tk) ->
  created tk <> None ->
  is_finite
    (exceed_pct (Time.minutes_between (fr_actual tk) (fr_target tk))
                (Time.minutes_between (fr_target tk) (created tk))) = true.
Proof.
  intros Ha Ht Hc Hsome.
  destruct (minutes_bound (fr_actual tk) (fr_target tk) Ha Ht) as [E|B].
  - rewrite E. reflexivity.
  - destruct (fr_target tk) as [t|] eqn:Et.
    + destruct (created tk) as [c|] eqn:Ec; [|contradiction].
      apply (exceed_pct_finite 137); auto; try lia.
      apply (JoinProps.minutes_not_nan _ _ (t - c)). reflexivity.
    + rewrite JoinProps.exceed_pct_not_late; [reflexivity|].
      rewrite JoinProps.minutes_nat; [reflexivity|].
      destruct (fr_actual tk); reflexivity.
Qed.

(** *** Resolution *)

Lemma res_pct_not_nan rm res : exceed_pct (sub rm res) res <> nan.
Proof.
  intros H. apply JoinProps.exceed_pct_nan in H.
  destruct H as [Hp [->|[Hd ->]]].
  - destruct rm; discriminate.
  - destruct rm as [s|[|]| |s m e]; discriminate.
Qed.

Lemma res_pct_nonneg rm res : leb zero (exceed_pct (sub rm res) res) = true.
Proof.
  destruct (JoinProps.exceed_pct_sign (sub rm res) res) as [H|H].
  - now apply res_pct_not_nan in H.
  - now apply sign_false_leb_zero.
Qed.

Lemma res_pct_within rm res :
  F64Order.valid rm = true -> F64Order.valid res = true ->
  leb rm res = true -> exceed_pct (sub rm res) res = zero.
Proof.
  intros V1 V2 H. apply JoinProps.exceed_pct_not_late.
  now apply F64Order.leb_sub_not_pos.
Qed.

Lemma res_pct_finite K rm res :
  F64Mag.mag_le K rm -> F64Mag.mag_le K res -> -1000 <= K -> K <= 890 ->
  is_finite (exceed_pct (sub rm res) res) = true.
Proof.
  intros B1 B2 Hlo Hhi.
  apply (exceed_pct_finite (K + 2)); try lia.
  - apply F64Mag.sub_bound; auto; unfold emin, prec, emax; lia.
  - destruct res; cbn [F64Mag.mag_le] in B2; try contradiction; discriminate.
Qed.

Lemma never_negative delta ref : ltb (exceed_pct delta ref) zero = false.
Proof.
  destruct (JoinProps.exceed_pct_sign delta ref) as [H|H].
  - now rewrite H.
  - now apply sign_false_not_neg.
Qed.

End JoinFacts.

Module StoreFacts.
Import F64 Join JoinFacts.

(** Both tables hold well-formed rows. *)
Definition store_wf (st : store) : Prop :=
  match tickets_parquet st, sla_parquet st with
  | Some t, Some s =>
      Forall ticket_wf t
      /\ Forall (fun m : sla_row => F64Order.valid (resolution m) = true) s
  | _, _ => True
  end.

Lemma merge_wf t s :
  Forall ticket_wf t ->
  Forall (fun m : sla_row => F64Order.valid (resolution m) = true) s ->
  Forall row_wf (merge t s).
Proof.
  intros Ht Hs. apply Forall_forall. intros row Hin.
  unfold merge in Hin. apply in_flat_map in Hin.
  destruct Hin as [tk [Htk Hrow]].
  rewrite Forall_forall in Ht, Hs. specialize (Ht tk Htk).
  destruct (filter (on_key tk) s) as [|m ms] eqn:E.
  - destruct Hrow as [<-|[]]. split; [exact Ht|reflexivity].
  - apply in_map_iff in Hrow. destruct Hrow as [m' [<- Hm']].
    split; [exact Ht|]. simpl. apply Hs.
    assert (Hf : In m' (filter (on_key tk) s)) by (rewrite E; exact Hm').
    apply filter_In in Hf. tauto.
Qed.

(** What C1 keeps of a joined row. *)
Definition pct_ok (j : joined) : Prop :=
  leb zero (resolution_exceed_pct j) = true
  /\ ltb (first_response_exceed_pct j) zero = false
  /\ (created j <> None ->
      leb zero (first_response_exceed_pct j) = true)
  /\ (first_response_within_sla j = true ->
      first_response_exceed_pct j = zero)
  /\ (resolution_within_sla j = true -> resolution_exceed_pct j = zero).

Lemma metrics_pct_ok row : row_wf row -> pct_ok (metrics row).
Proof.
  destruct row as [[tk sla_fr] sla_res].
  intros [[Ha [Ht [Hc Hv]]] Hr]. cbn [fst snd] in *.
  unfold pct_ok, metrics. cbn.
  repeat split.
  - apply res_pct_nonneg.
  - apply never_negative.
  - intros Hsome. apply sign_false_leb_zero.
    pose proof (fr_pct_finite tk Ha Ht Hc Hsome) as Hf.
    destruct (JoinProps.exceed_pct_sign
                (Time.minutes_between (fr_actual tk) (fr_target tk))
                (Time.minutes_between (fr_target tk) (created tk)))
      as [E|E]; [|exact E].
    rewrite E in Hf. discriminate.
  - intros H. apply fr_pct_within.
    apply andb_prop in H. destruct H as [H _].
    apply andb_prop in H. tauto.
  - intros H. now apply res_pct_within.
Qed.

End StoreFacts.

Module SampleJoin.
Import Sample.

(** The first response came at 12:00 for a target of 11:00, and the
    creation date of the ticket is missing. *)
Definition late_no_created : ticket :=
  closed_ticket "SUP-9" (Some T_11_00) (Some T_12_00) None (Some T_13_00) 0.

(** Target and creation at 10:00, first response at 11:00. *)
Definition late_no_window : ticket :=
  closed_ticket "SUP-8" (Some T_10_00) (Some T_11_00) (Some T_10_00)
                (Some T_13_00) 0.

(** Created at 10:00, target 11:00, first response at 12:00, resolved at
    13:00. *)
Definition late_one_hour : ticket :=
  closed_ticket "SUP-8" (Some T_11_00) (Some T_12_00) (Some T_10_00)
                (Some T_13_00) 0.

Definition sla (res : F64.float) : sla_row :=
  mkSla (Some (py "Acme")) (Some (py "Severity 1")) (F64.of_Z 30) res.

Definition store_of (tk : ticket) (res : F64.float) : store :=
  mkStore (Some [tk]) (Some [sla res]) false true.

(** The most negative binary64 number, about -1.8e308. *)
Definition lowest : F64.float := S754_finite true 9007199254740991 971.

End SampleJoin.

(** The end-to-end example of the specification: created 10:00, resolved
    13:00, SLA resolution 120 minutes. *)
Example resolution_end_to_end :
  exists j,
    Join.load_joined (SampleJoin.store_of Sample.dated (F64.of_Z 120))
    = Ok [j]
    /\ resolution_minutes (Join.jticket j) = F64.of_Z 180
    /\ Join.resolution_within_sla j = false
    /\ Join.resolution_exceed_pct j = F64.of_Z 50
    /\ Join.first_response_within_sla j = true
    /\ Join.first_response_exceed_pct j = F64.zero.
Proof. eexists. split; [reflexivity|]. vm_compute. repeat split. Qed.

(** C1, as the code has it.  On well-formed tables every joined row has
    [resolution_exceed_pct >= 0]; its [first_response_exceed_pct] is never
    negative and is [>= 0] as soon as [created] is present; and each
    percentage is exactly 0 when its within-SLA flag is true. *)
Theorem exceed_pct_nonnegative_and_zero_within_sla :
  forall (st : store) (js : list Join.joined),
    StoreFacts.store_wf st ->
    Join.load_joined st = Ok js ->
    Forall StoreFacts.pct_ok js.
Proof.
  intros st js Hwf Hload. unfold Join.load_joined in Hload.
  unfold StoreFacts.store_wf in Hwf.
  destruct (tickets_parquet st) as [t|]; [|discriminate].
  destruct (sla_parquet st) as [s|]; [|discriminate].
  destruct (resolution_stored st); [|discriminate].
  inversion Hload. subst js. destruct Hwf as [Ht Hs].
  pose proof (StoreFacts.merge_wf t s Ht Hs) as Hm.
  apply Forall_forall. intros j Hj. apply in_map_iff in Hj.
  destruct Hj as [row [<- Hrow]].
  apply StoreFacts.metrics_pct_ok.
  rewrite Forall_forall in Hm. now apply Hm.
Qed.

(** C1 on the end-to-end example. *)
Lemma exceed_pct_nonnegative_and_zero_within_sla_witness :
  exists js,
    Join.load_joined (SampleJoin.store_of Sample.dated (F64.of_Z 120))
    = Ok js
    /\ js <> [] /\ Forall StoreFacts.pct_ok js.
Proof.
  eexists. split; [reflexivity|]. split; [discriminate|].
  apply (exceed_pct_nonnegative_and_zero_within_sla
           (SampleJoin.store_of Sample.dated (F64.of_Z 120))).
  - split.
    + constructor; [|constructor].
      repeat split; try reflexivity; discriminate.
    + constructor; [reflexivity|constructor].
  - reflexivity.
Defined.

(** C1 as stated fails: a late first response on a ticket without creation
    date has a NaN percentage, which is not [>= 0]. *)
Lemma late_response_without_created_is_not_nonnegative :
  exists j,
    Join.load_joined
      (SampleJoin.store_of SampleJoin.late_no_created (F64.of_Z 120))
    = Ok [j]
    /\ Join.first_response_exceed_pct j = F64.nan
    /\ F64.leb F64.zero (Join.first_response_exceed_pct j) = false.
Proof. eexists. split; [reflexivity|]. vm_compute. split; reflexivity. Qed.

(** C2, as the code has it.  A joined row whose [fr_actual] or [fr_target]
    is missing has [first_response_exceed_pct = 0].  When [created] is
    missing the percentage is 0 unless the first response is late, and NaN
    when it is late. *)
Theorem first_response_pct_with_missing_timestamp :
  forall row : ticket * F64.float * F64.float,
    let tk := fst (fst row) in
    let pct := Join.first_response_exceed_pct (Join.metrics row) in
    (fr_actual tk = None \/ fr_target tk = None -> pct = F64.zero)
    /\ (created tk = None ->
        Time.ts_leb (fr_actual tk) (fr_target tk) = true -> pct = F64.zero)
    /\ (created tk = None ->
        pct = if F64.ltb F64.zero
                   (Time.minutes_between (fr_actual tk) (fr_target tk))
              then F64.nan else F64.zero).
Proof.
  intros [[tk sla_fr] sla_res]. cbn. repeat split.
  - apply JoinFacts.fr_pct_missing.
  - intros _. apply JoinFacts.fr_pct_within.
  - intros H. rewrite F64.ltb_zero_is_pos.
    now apply JoinFacts.fr_pct_no_created.
Qed.

(** C2 on a ticket without first response. *)
Lemma first_response_pct_with_missing_timestamp_witness :
  Join.first_response_exceed_pct
    (Join.metrics
       (Sample.closed_ticket "SUP-4" (Some Sample.T_11_00) None
                             (Some Sample.T_10_00) (Some Sample.T_13_00) 0,
        F64.of_Z 30, F64.of_Z 120))
  = F64.zero.
Proof.
  apply (proj1 (first_response_pct_with_missing_timestamp
                  (Sample.closed_ticket "SUP-4" (Some Sample.T_11_00) None
                     (Some Sample.T_10_00) (Some Sample.T_13_00) 0,
                   F64.of_Z 30, F64.of_Z 120))).
  left. reflexivity.
Defined.

(** C2 as stated fails: [created] is missing, the first response is one
    hour late, and the percentage is NaN, not 0. *)
Lemma missing_created_gives_nan_not_zero :
  exists j,
    Join.load_joined
      (SampleJoin.store_of SampleJoin.late_no_created (F64.of_Z 120))
    = Ok [j]
    /\ created (Join.jticket j) = None
    /\ Join.first_response_exceed_pct j = F64.nan
    /\ F64.eqb (Join.first_response_exceed_pct j) F64.zero = false.
Proof.
  eexists. split; [reflexivity|]. vm_compute. repeat split.
Qed.

(** C3, as the code has it.  The percentage of a late row (delta > 0) is
    the delta divided by the greater of the reference and 1.0, times 100,
    and the percentage of any other row is 0: the first response is
    measured against the window from [created] to [fr_target], the
    resolution against the SLA minutes; a reference of at least 1.0 is the
    denominator itself, and a smaller one, zero or negative, gives exactly
    1.0, in particular when [fr_target] equals [created].  No percentage is
    negative; the first-response percentage is never infinite; and the
    resolution percentage is finite when the stored minutes and the SLA
    target are below [2^890] in absolute value. *)
Theorem exceed_pct_denominator_has_floor_one :
  (forall r : F64.float,
     r <> F64.nan ->
     F64.clip_min r F64.one = (if F64.leb F64.one r then r else F64.one)
     /\ F64.leb F64.one (F64.clip_min r F64.one) = true)
  /\ (forall r : F64.float,
        F64.leb r F64.zero = true -> F64.clip_min r F64.one = F64.one)
  /\ (forall t : Z,
        Time.minutes_between (Some t) (Some t) = F64.zero)
  /\ (forall row : ticket * F64.float * F64.float,
        F64.ltb (Join.first_response_exceed_pct (Join.metrics row)) F64.zero
        = false
        /\ F64.ltb (Join.resolution_exceed_pct (Join.metrics row)) F64.zero
           = false)
  /\ (forall row : ticket * F64.float * F64.float,
        JoinFacts.ticket_wf (fst (fst row)) ->
        F64.is_inf (Join.first_response_exceed_pct (Join.metrics row))
        = false)
  /\ (forall row : ticket * F64.float * F64.float,
        F64Mag.mag_le 890 (resolution_minutes (fst (fst row))) ->
        F64Mag.mag_le 890 (snd row) ->
        F64.is_finite (Join.resolution_exceed_pct (Join.metrics row))
        = true)
  /\ (forall (tk : ticket) (sla_fr sla_res : F64.float),
        let delta := Time.minutes_between (fr_actual tk) (fr_target tk) in
        let window := Time.minutes_between (fr_target tk) (created tk) in
        Join.first_response_exceed_pct (Join.metrics (tk, sla_fr, sla_res))
        = if F64.ltb F64.zero delta
          then F64.mul (F64.div delta (F64.clip_min window F64.one))
                       F64.hundred
          else F64.zero)
  /\ (forall (tk : ticket) (sla_fr sla_res : F64.float),
        let delta := F64.sub (resolution_minutes tk) sla_res in
        Join.resolution_exceed_pct (Join.metrics (tk, sla_fr, sla_res))
        = if F64.ltb F64.zero delta
          then F64.mul (F64.div delta (F64.clip_min sla_res F64.one))
                       F64.hundred
          else F64.zero)
  /\ (forall (tk : ticket) (sla_fr sla_res : F64.float),
        let delta := Time.minutes_between (fr_actual tk) (fr_target tk) in
        let window := Time.minutes_between (fr_target tk) (created tk) in
        F64.ltb F64.zero delta = true ->
        (F64.leb F64.one window = true ->
         Join.first_response_exceed_pct (Join.metrics (tk, sla_fr, sla_res))
         = F64.mul (F64.div delta window) F64.hundred)
        /\ (F64.leb window F64.zero = true ->
            Join.first_response_exceed_pct
              (Join.metrics (tk, sla_fr, sla_res))
            = F64.mul (F64.div delta F64.one) F64.hundred))
  /\ (forall (tk : ticket) (sla_fr sla_res : F64.float),
        let delta := F64.sub (resolution_minutes tk) sla_res in
        F64.ltb F64.zero delta = true ->
        (F64.leb F64.one sla_res = true ->
         Join.resolution_exceed_pct (Join.metrics (tk, sla_fr, sla_res))
         = F64.mul (F64.div delta sla_res) F64.hundred)
        /\ (F64.leb sla_res F64.zero = true ->
            Join.resolution_exceed_pct (Join.metrics (tk, sla_fr, sla_res))
            = F64.mul (F64.div delta F64.one) F64.hundred)).
Proof.
  assert (Hfloor : forall r : F64.float,
             F64.leb r F64.zero = true -> F64.clip_min r F64.one = F64.one).
  { intros r H. rewrite JoinProps.one_eq.
    destruct r as [s|[|]| |[|] m e]; try discriminate; reflexivity. }
  assert (Hself : forall r : F64.float,
             F64.leb F64.one r = true -> F64.clip_min r F64.one = r).
  { intros r H. unfold F64.clip_min, F64.maximum. now rewrite H. }
  split; [|split; [|split; [|split; [|split; [|split; [|split; [|split;
    [|split]]]]]]]].
  - intros r Hr.
    destruct (JoinProps.clip_cases r) as [[E _]|[[E ->]|[E [_ ->]]]];
      [contradiction| |]; rewrite E; split; auto.
  - exact Hfloor.
  - intros t. unfold Time.minutes_between, Time.td_sub.
    rewrite Z.sub_diag. reflexivity.
  - intros [[tk f] r]. split; apply JoinFacts.never_negative.
  - intros [[tk f] r] [Ha [Ht [Hc _]]]. cbn in *.
    destruct (created tk) as [c|] eqn:Ec.
    + assert (Hf : F64.is_finite
                (Join.exceed_pct
                   (Time.minutes_between (fr_actual tk) (fr_target tk))
                   (Time.minutes_between (fr_target tk) (created tk)))
              = true).
      { apply JoinFacts.fr_pct_finite; auto; rewrite Ec;
          [exact Hc|discriminate]. }
      rewrite Ec in Hf.
      destruct (Join.exceed_pct _ _); try discriminate; reflexivity.
    + pose proof (JoinFacts.fr_pct_no_created tk Ec) as E.
      rewrite Ec in E. rewrite E.
      destruct (F64.is_pos _); reflexivity.
  - intros [[tk f] r] H1 H2. cbn in *.
    apply (JoinFacts.res_pct_finite 890); auto; lia.
  - intros tk f r. reflexivity.
  - intros tk f r. reflexivity.
  - intros tk f r delta window Hlate.
    change (Join.first_response_exceed_pct (Join.metrics (tk, f, r)))
      with (Join.exceed_pct delta window).
    unfold Join.exceed_pct. rewrite Hlate. split; intros H.
    + now rewrite (Hself _ H).
    + now rewrite (Hfloor _ H).
  - intros tk f r delta Hlate.
    change (Join.resolution_exceed_pct (Join.metrics (tk, f, r)))
      with (Join.exceed_pct delta r).
    unfold Join.exceed_pct. rewrite Hlate. split; intros H.
    + now rewrite (Hself _ H).
    + now rewrite (Hfloor _ H).
Qed.

(** C3 on two tickets whose first response came one hour late.  With the
    target at the creation date the window is 0, the denominator 1.0 and
    the percentage 6000; with the target one hour after the creation date
    the denominator is the window of 60 minutes and the percentage 100. *)
Lemma exceed_pct_denominator_has_floor_one_witness :
  F64.clip_min
    (Time.minutes_between (fr_target SampleJoin.late_no_window)
                          (created SampleJoin.late_no_window))
    F64.one
  = F64.one
  /\ Join.first_response_exceed_pct
       (Join.metrics (SampleJoin.late_no_window, F64.of_Z 30, F64.of_Z 120))
     = F64.of_Z 6000
  /\ Join.first_response_exceed_pct
       (Join.metrics (SampleJoin.late_one_hour, F64.of_Z 30, F64.of_Z 120))
     = F64.mul (F64.div (F64.of_Z 60) (F64.of_Z 60)) F64.hundred
  /\ Join.first_response_exceed_pct
       (Join.metrics (SampleJoin.late_one_hour, F64.of_Z 30, F64.of_Z 120))
     = F64.of_Z 100
  /\ Join.resolution_exceed_pct
       (Join.metrics (SampleJoin.late_one_hour, F64.of_Z 30, F64.of_Z 120))
     = F64.mul (F64.div (F64.of_Z 60) (F64.of_Z 120)) F64.hundred.
Proof.
  pose proof exceed_pct_denominator_has_floor_one
    as [_ [H [H0 [_ [_ [_ [_ [_ [Hfr Hres]]]]]]]]].
  split; [|split; [reflexivity|split; [|split; [reflexivity|]]]].
  - apply H.
    exact (f_equal (fun x => F64.leb x F64.zero) (H0 Sample.T_10_00)).
  - destruct (Hfr SampleJoin.late_one_hour (F64.of_Z 30) (F64.of_Z 120))
      as [Hwin _]; [reflexivity|].
    rewrite Hwin; reflexivity.
  - destruct (Hres SampleJoin.late_one_hour (F64.of_Z 30) (F64.of_Z 120))
      as [Hwin _]; [reflexivity|].
    rewrite Hwin; reflexivity.
Defined.

(** C3 as stated fails: with an SLA resolution of minus infinity, or of
    the most negative binary64 number, the denominator is 1.0 and the
    resolution percentage of a ticket resolved in 180 minutes is plus
    infinity. *)
Lemma negative_sla_resolution_gives_infinite_pct :
  (exists j,
     Join.load_joined (SampleJoin.store_of Sample.dated F64.ninf) = Ok [j]
     /\ F64.clip_min (Join.sla_resolution j) F64.one = F64.one
     /\ Join.resolution_exceed_pct j = F64.pinf)
  /\ (exists j,
        Join.load_joined (SampleJoin.store_of Sample.dated SampleJoin.lowest)
        = Ok [j]
        /\ F64Order.valid (Join.sla_resolution j) = true
        /\ F64.clip_min (Join.sla_resolution j) F64.one = F64.one
        /\ Join.resolution_exceed_pct j = F64.pinf).
Proof.
  split; eexists; (split; [reflexivity|]); vm_compute; repeat split.
Qed.

(** ** The reports *)

Module Reports.
Import F64.

(** A value of a report frame, by the type of its column. *)
Inductive val :=
| VText (s : option pystr)
| VTime (t : timestamp)
| VInt (z : Z)
| VFloat (f : float)
| VBool (b : bool).

(** A value handed to the JSON encoder. *)
Inductive jval :=
| JNull
| JStr (s : pystr)
| JIso (ns : Z)        (* the ISO-8601 text of a timestamp *)
| JInt (z : Z)
| JFloat (f : float)
| JBool (b : bool).

Definition record (A : Type) := list (pystr * A).

(** [df.to_dict(orient="records")] on one value: nothing is replaced, a
    missing number stays NaN. *)
Definition to_dict (v : val) : jval :=
  match v with
  | VText (Some s) => JStr s
  | VText None => JFloat nan
  | VTime (Some ns) => JIso ns
  | VTime None => JNull
  | VInt z => JInt z
  | VFloat f => JFloat f
  | VBool b => JBool b
  end.

(** [_json_records] on one value: timestamps to ISO text (missing to
    [None]) and infinities to NaN; then [out.where(pd.notna(out), None)]
    puts [None] for a missing text, and leaves a [float64] column as it
    is: NaN stays NaN. *)
Definition json_safe (v : val) : jval :=
  match v with
  | VTime (Some ns) => JIso ns
  | VTime None => JNull
  | VFloat f => JFloat (if is_inf f then nan else f)
  | VText (Some s) => JStr s
  | VText None => JNull
  | VInt z => JInt z
  | VBool b => JBool b
  end.

(** [_json_records] *)
Definition json_records (df : list (record val)) : list (record jval) :=
  map (map (fun kv => (fst kv, json_safe (snd kv)))) df.

(** [np.rint]: the nearest integer, ties to even. *)
Definition rint (x : float) : float :=
  match x with
  | S754_finite s m e =>
      match e with
      | Zneg k =>
          let q := Z.shiftr (Zpos m) (Zpos k) in
          let r := Zpos m - Z.shiftl q (Zpos k) in
          let half := Z.shiftl 1 (Zpos k - 1) in
          let n := if r <? half then q
                   else if half <? r then q + 1
                   else if Z.even q then q else q + 1 in
          binary_normalize prec emax (cond_Zopp s n) 0 s
      | _ => x
      end
  | _ => x
  end.

(** [Series.round(2)], which numpy computes as [rint(x * 100) / 100]. *)
Definition round2 (x : float) : float := div (rint (mul x hundred)) hundred.

(** [replace([np.inf, -np.inf], np.nan)] *)
Definition replace_inf (x : float) : float := if is_inf x then nan else x.

(** The mean of a group as [groupby(...).mean()] computes it: NaN is
    skipped, the sum is compensated, and a group without a number has a
    NaN mean. *)
Fixpoint group_sum (vals : list float) (sumx comp : float) (nobs : Z)
  : float * Z :=
  match vals with
  | [] => (sumx, nobs)
  | v :: vals' =>
      if is_nan v then group_sum vals' sumx comp nobs
      else
        let y := sub v comp in
        let t := add sumx y in
        let c := sub (sub t sumx) y in
        let c := if is_nan c then zero else c in
        group_sum vals' t c (nobs + 1)
  end.

Definition group_mean (vals : list float) : float :=
  let '(sumx, nobs) := group_sum vals zero zero 0 in
  if nobs =? 0 then nan else div sumx (of_Z nobs).

(** Order of a float sort key, ascending, NaN last. *)
Definition float_compare (a b : float) : comparison :=
  match SFcompare a b with
  | Some c => c
  | None =>
      match is_nan a, is_nan b with
      | true, true => Eq
      | true, false => Gt
      | _, _ => Lt
      end
  end.

(** The same key in descending order; NaN stays last. *)
Definition float_compare_desc (a b : float) : comparison :=
  match SFcompare a b with
  | Some c => CompOpp c
  | None =>
      match is_nan a, is_nan b with
      | true, true => Eq
      | true, false => Gt
      | _, _ => Lt
      end
  end.

(** The distinct present keys of a column, sorted: the groups of
    [groupby(key)]. *)
Definition group_keys (keys : list (option pystr)) : list pystr :=
  Upload.sorted_names
    (nodup (list_eq_dec N.eq_dec)
           (flat_map (fun k => match k with Some s => [s] | None => [] end)
                     keys)).

(** [d.groupby(key, as_index=False)["resolution_minutes"].mean()], rounded
    and sorted by mean then key, as records. *)
Definition average_by (name : pystr) (key : Join.joined -> option pystr)
           (d : list Join.joined) : list (record val) :=
  let g := map (fun k =>
                  (k, group_mean
                        (map (fun j => resolution_minutes (Join.jticket j))
                             (filter (fun j => Join.opt_eqb (key j) (Some k))
                                     d))))
               (group_keys (map key d)) in
  let g := map (fun p => (fst p, round2 (snd p))) g in
  let g := StableSort.sort _
             (fun a b =>
                Key.le_of (Key.lex (float_compare (snd a) (snd b))
                                   (Key.pystr_compare (fst a) (fst b))))
             g in
  map (fun p => [ (name, VText (Some (fst p)));
                  (py "resolution_minutes", VFloat (snd p)) ])
      g.

Definition bind {A B} (r : result A) (f : A -> result B) : result B :=
  match r with
  | Ok a => f a
  | Err e => Err e
  end.

(** [assignee_avg]: the records handed to [JSONResponse], as [to_dict]
    gives them. *)
Definition assignee_avg (st : store) : result (list (record jval)) :=
  bind (Join.load_joined st) (fun d =>
    Ok (map (map (fun kv => (fst kv, to_dict (snd kv))))
            (average_by (py "assignee")
                        (fun j => assignee (Join.jticket j)) d))).

(** [product_avg] *)
Definition product_avg (st : store) : result (list (record jval)) :=
  bind (Join.load_joined st) (fun d =>
    Ok (map (map (fun kv => (fst kv, to_dict (snd kv))))
            (average_by (py "product")
                        (fun j => product (Join.jticket j)) d))).

(** Order of a timestamp sort key, ascending, [NaT] last. *)
Definition timestamp_compare (a b : timestamp) : comparison :=
  Key.na_last Z.compare a b.

(** A row of the violations frame: the ticket columns, the two flags and
    the two cleaned percentages. *)
Definition vrow : Type := (ticket * bool * float * bool * float)%type.

(** Order of [sort_values(by=["resolution_exceed_pct",
    "first_response_exceed_pct","created"], ascending=[False, False, True],
    na_position="last")]. *)
Definition violation_leb (a b : vrow) : bool :=
  let '(ta, _, fa, _, ra) := a in
  let '(tb, _, fb, _, rb) := b in
  Key.le_of
    (Key.lex (float_compare_desc ra rb)
       (Key.lex (float_compare_desc fa fb)
                (timestamp_compare (created ta) (created tb)))).

(** [violations]: the records handed to [JSONResponse]. *)
Definition violations (st : store) : result (list (record jval)) :=
  bind (Join.load_joined st) (fun d =>
    let v := filter (fun j => negb (Join.first_response_within_sla j)
                              || negb (Join.resolution_within_sla j)) d in
    let out := map (fun j : Join.joined =>
                      (Join.jticket j,
                       Join.first_response_within_sla j,
                       round2 (replace_inf (Join.first_response_exceed_pct j)),
                       Join.resolution_within_sla j,
                       round2 (replace_inf (Join.resolution_exceed_pct j))))
                   v in
    let out := StableSort.sort vrow violation_leb out in
    Ok (json_records
          (map (fun r : vrow =>
                  let '(t, fw, fp, rw, rp) := r in
                  [ (py "issue_key", VText (issue_key t));
                    (py "created", VTime (created t));
                    (py "assignee", VText (assignee t));
                    (py "product", VText (product t));
                    (py "reopen_count", VInt (reopen_count t));
                    (py "first_response_within_sla", VBool fw);
                    (py "first_response_exceed_pct", VFloat fp);
                    (py "resolution_within_sla", VBool rw);
                    (py "resolution_exceed_pct", VFloat rp) ])
               out))).

(** [reopens]: the records handed to [JSONResponse].  The selection
    [r[cols]] needs the column [summary], which the stored table has only
    after an upload with the header ["Summary"].  The last loop rounds the
    percentages and leaves their NaN in place. *)
Definition reopens (st : store) : result (list (record jval)) :=
  bind (Join.load_joined st) (fun d =>
    let r := filter (fun j => 1 <? reopen_count (Join.jticket j)) d in
    if negb (summary_stored st) then Err (KeyError (py "summary")) else
    let r := StableSort.sort _
               (fun a b =>
                  Key.le_of
                    (Key.lex
                       (CompOpp (reopen_count (Join.jticket a)
                                 ?= reopen_count (Join.jticket b)))
                       (Key.lex
                          (float_compare_desc (Join.resolution_exceed_pct a)
                                              (Join.resolution_exceed_pct b))
                          (float_compare_desc
                             (Join.first_response_exceed_pct a)
                             (Join.first_response_exceed_pct b)))))
               r in
    Ok (json_records
          (map (fun j =>
                  let t := Join.jticket j in
                  [ (py "reopen_count", VInt (reopen_count t));
                    (py "summary", VText (summary t));
                    (py "issue_key", VText (issue_key t));
                    (py "created", VTime (created t));
                    (py "assignee", VText (assignee t));
                    (py "product", VText (product t));
                    (py "first_response_exceed_pct",
                     VFloat (round2 (Join.first_response_exceed_pct j)));
                    (py "resolution_exceed_pct",
                     VFloat (round2 (Join.resolution_exceed_pct j))) ])
               r))).

(** No number of a record is NaN or infinite. *)
Definition finite_numbers (r : record jval) : Prop :=
  Forall (fun kv => match snd kv with
                    | JFloat f => is_finite f = true
                    | _ => True
                    end) r.

(** [_json_records] emits no infinity; a NaN it does emit. *)
Lemma json_safe_not_inf v :
  match json_safe v with JFloat f => is_inf f = false | _ => True end.
Proof.
  destruct v as [[s|]|[t|]|z|f|b]; simpl; auto.
  destruct f as [s|s| |s m e]; reflexivity.
Qed.

Lemma json_safe_nan : json_safe (VFloat nan) = JFloat nan.
Proof. reflexivity. Qed.

End Reports.

(** ** The responses

    Every report ends in [JSONResponse(records)].  Its encoder is
    [json.dumps] with [allow_nan=False], which raises [ValueError] on a NaN
    and on an infinity; the request then fails. *)

Module Endpoint.

Definition encodable (v : Reports.jval) : bool :=
  match v with
  | Reports.JFloat f => F64.is_finite f
  | _ => true
  end.

(** [JSONResponse(records)] *)
Definition json_response (rs : list (Reports.record Reports.jval))
  : result (list (Reports.record Reports.jval)) :=
  if forallb (forallb (fun kv => encodable (snd kv))) rs
  then Ok rs
  else Err JsonValueError.

(** [GET /reports/assignee_avg] *)
Definition assignee_avg (st : store) :=
  Reports.bind (Reports.assignee_avg st) json_response.

(** [GET /reports/product_avg] *)
Definition product_avg (st : store) :=
  Reports.bind (Reports.product_avg st) json_response.

(** [GET /reports/violations] *)
Definition violations (st : store) :=
  Reports.bind (Reports.violations st) json_response.

(** [GET /reports/reopens] *)
Definition reopens (st : store) :=
  Reports.bind (Reports.reopens st) json_response.

Lemma json_response_ok rs rs' :
  json_response rs = Ok rs' ->
  rs' = rs /\ Forall Reports.finite_numbers rs.
Proof.
  unfold json_response.
  destruct (forallb (forallb (fun kv => encodable (snd kv))) rs) eqn:E;
    [|discriminate].
  intros H. injection H as <-. split; [reflexivity|].
  rewrite forallb_forall in E. apply Forall_forall. intros r Hr.
  specialize (E r Hr). rewrite forallb_forall in E.
  apply Forall_forall. intros kv Hkv. specialize (E kv Hkv).
  unfold encodable in E. destruct (snd kv); auto.
Qed.

Lemma json_response_err rs e :
  json_response rs = Err e -> e = JsonValueError.
Proof.
  unfold json_response.
  destruct (forallb (forallb (fun kv => encodable (snd kv))) rs);
    [discriminate|].
  intros H. now injection H as <-.
Qed.

End Endpoint.

Module SampleReport.

(** A complete file whose only row is closed and carries [n/a] as
    resolution date. *)
Definition unresolved_closed : frame :=
  mkFrame EXPECTED_TICKET_COLS
          [ SampleUpload.raw "SUP-5" "Permanently Closed"
                             "18/Aug/25 10:00 AM" "n/a" (CNum (NInt 0)) ].

(** The store after that upload, an SLA table being present. *)
Definition store_after_upload : store :=
  snd (SampleUpload.upload (py "tickets.csv") unresolved_closed
         (mkStore None (Some [SampleJoin.sla (F64.of_Z 120)]) false true)).

End SampleReport.

(** C9 fails on the two average reports.  After the upload of a closed
    ticket whose resolution date cannot be parsed, [assignee_avg] and
    [product_avg] hand a NaN mean to the JSON response: their records are
    taken from [to_dict] and never pass through [_json_records], while
    [violations] and [reopens] on the same store emit finite numbers
    only. *)
Theorem average_reports_emit_nan :
  Reports.assignee_avg SampleReport.store_after_upload
  = Ok [ [ (py "assignee", Reports.JStr (py "ann"));
           (py "resolution_minutes", Reports.JFloat F64.nan) ] ]
  /\ Reports.product_avg SampleReport.store_after_upload
     = Ok [ [ (py "product", Reports.JStr (py "api"));
              (py "resolution_minutes", Reports.JFloat F64.nan) ] ]
  /\ (exists rs,
        Reports.violations SampleReport.store_after_upload = Ok rs
        /\ rs <> [] /\ Forall Reports.finite_numbers rs)
  /\ (exists rs,
        Reports.reopens SampleReport.store_after_upload = Ok rs
        /\ Forall Reports.finite_numbers rs).
Proof.
  split; [vm_compute; reflexivity|].
  split; [vm_compute; reflexivity|].
  split.
  - eexists. split; [vm_compute; reflexivity|].
    split; [discriminate|].
    repeat (constructor; try exact I; try reflexivity).
  - eexists. split; [vm_compute; reflexivity|]. constructor.
Qed.

(** On that store the two average requests end in the encoder's
    [ValueError], and the two other reports answer. *)
Example average_requests_fail_on_nan :
  Endpoint.assignee_avg SampleReport.store_after_upload = Err JsonValueError
  /\ Endpoint.product_avg SampleReport.store_after_upload
     = Err JsonValueError
  /\ Endpoint.violations SampleReport.store_after_upload
     = Reports.violations SampleReport.store_after_upload
  /\ Endpoint.reopens SampleReport.store_after_upload = Ok [].
Proof. vm_compute. repeat split. Qed.

(** * Further properties of the code

    The company normaliser, the upsert and the upload beyond what the
    statements above need. *)

(** ** The normaliser in one pass *)

Module NormalizerFacts.
Import Normalizer.

(** Where a left-to-right reading of a name stands: before its first
    character of text, inside text, or in white space that follows text. *)
Inductive phase := Start | Text | Gap.

Definition space_seen (p : phase) : phase :=
  match p with Start => Start | _ => Gap end.

(** The name read from phase [p], a space being written only once the text
    goes on. *)
Fixpoint squeeze (p : phase) (s : pystr) : pystr :=
  match s with
  | [] => []
  | c :: s' =>
      if isspace c then squeeze (space_seen p) s'
      else match p with
           | Gap => SPACE :: c :: squeeze Text s'
           | _ => c :: squeeze Text s'
           end
  end.

(** The phase reached after reading [s]. *)
Fixpoint after (p : phase) (s : pystr) : phase :=
  match s with
  | [] => p
  | c :: s' => after (if isspace c then space_seen p else Text) s'
  end.

Lemma squeeze_app p a b :
  squeeze p (a ++ b) = squeeze p a ++ squeeze (after p a) b.
Proof.
  revert p. induction a as [|c a IH]; intros p; [reflexivity|].
  simpl. destruct (isspace c).
  - apply IH.
  - destruct p; simpl; now rewrite IH.
Qed.

Lemma squeeze_spaces p w : forallb isspace w = true -> squeeze p w = [].
Proof.
  revert p. induction w as [|c w IH]; intros p H; [reflexivity|].
  simpl in H. apply andb_prop in H. destruct H as [Hc Hw].
  simpl. rewrite Hc. now apply IH.
Qed.

Lemma after_spaces p w :
  forallb isspace w = true -> w <> [] -> after p w = space_seen p.
Proof.
  revert p. induction w as [|c w IH]; intros p H Hne; [congruence|].
  simpl in H. apply andb_prop in H. destruct H as [Hc Hw].
  simpl. rewrite Hc. destruct w as [|d w]; [reflexivity|].
  rewrite IH; [now destruct p | exact Hw | discriminate].
Qed.

Lemma after_spaces_start w :
  forallb isspace w = true -> after Start w = Start.
Proof.
  destruct w as [|c w]; [reflexivity|]. intros H.
  now rewrite after_spaces.
Qed.

(** On a name without white space at its end, the substitution of the
    source and the one-pass reading agree. *)
Lemma squeeze_sub_ws s :
  no_trail s = true ->
  squeeze Text s = sub_ws false s
  /\ (s <> [] -> squeeze Gap s = SPACE :: sub_ws true s).
Proof.
  induction s as [|c s IH]; intros H; [split; [reflexivity|congruence]|].
  assert (Hs : s = [] \/ (s <> [] /\ no_trail s = true)).
  { destruct s; [now left|right]. split; [discriminate|exact H]. }
  simpl. destruct (isspace c) eqn:E.
  - destruct Hs as [->|[Hne Hs]]; [simpl in H; rewrite E in H; discriminate|].
    destruct (IH Hs) as [_ Hb]. rewrite (Hb Hne). split; reflexivity.
  - assert (Ha : squeeze Text s = sub_ws false s).
    { destruct Hs as [->|[_ Hs]]; [reflexivity|]. now apply IH. }
    rewrite Ha. split; reflexivity.
Qed.

Lemma squeeze_start s : no_lead s = true -> squeeze Start s = squeeze Text s.
Proof.
  destruct s as [|c s]; [reflexivity|]. simpl.
  destruct (isspace c); [discriminate|reflexivity].
Qed.

(** The pipeline of the source is the one-pass reading from [Start]. *)
Lemma normalize_squeeze v :
  normalize_company v = squeeze Start (astype_str v).
Proof.
  unfold normalize_company. set (s := astype_str v).
  destruct (strip_shape s) as [Hl Ht].
  rewrite <- (proj1 (squeeze_sub_ws _ Ht)), <- (squeeze_start _ Hl).
  destruct (lstrip_app_spaces s) as [p [Hp Hps]].
  destruct (rstrip_prefix (lstrip s)) as [q [Hq Hqs]].
  fold (strip s) in Hq.
  rewrite Hp at 2. rewrite Hq.
  rewrite squeeze_app, (squeeze_spaces _ _ Hps), (after_spaces_start _ Hps).
  simpl. rewrite squeeze_app, (squeeze_spaces _ _ Hqs). now rewrite app_nil_r.
Qed.

Lemma squeeze_keeps_text p s :
  filter (fun c => negb (isspace c)) (squeeze p s)
  = filter (fun c => negb (isspace c)) s.
Proof.
  revert p. induction s as [|c s IH]; intros p; [reflexivity|].
  simpl. destruct (isspace c) eqn:E; simpl.
  - apply IH.
  - destruct p; simpl; rewrite E; simpl; now rewrite IH.
Qed.

(** A normalised name is left as it is. *)
Lemma normalize_fixed v :
  normalize_company (Some (normalize_company v)) = normalize_company v.
Proof.
  destruct (normalize_shape v) as [Hl Ht].
  unfold normalize_company at 1. simpl astype_str.
  rewrite strip_fixed; auto using tidy_no_trail.
  now apply tidy_sub_ws.
Qed.

End NormalizerFacts.

(** X1. White space around a company name is ignored: with [l] and [r] made
    of white space only, the padded cell normalises to the same name as the
    cell itself.  In particular a cell of white space alone becomes the
    empty name. *)
Theorem normalize_company_ignores_padding :
  forall l s r : pystr,
    forallb isspace l = true -> forallb isspace r = true ->
    Normalizer.normalize_company (Some (l ++ s ++ r))
    = Normalizer.normalize_company (Some s).
Proof.
  intros l s r Hl Hr. rewrite !NormalizerFacts.normalize_squeeze. simpl.
  rewrite NormalizerFacts.squeeze_app,
    (NormalizerFacts.squeeze_spaces _ _ Hl),
    (NormalizerFacts.after_spaces_start _ Hl).
  simpl. rewrite NormalizerFacts.squeeze_app,
    (NormalizerFacts.squeeze_spaces _ _ Hr).
  apply app_nil_r.
Qed.

Lemma normalize_company_ignores_padding_witness :
  Normalizer.normalize_company
    (Some (py "  " ++ py "Acme Inc." ++ [9%N; 160%N]))
  = Normalizer.normalize_company (Some (py "Acme Inc.")).
Proof.
  apply (normalize_company_ignores_padding (py "  ") (py "Acme Inc.")
           [9%N; 160%N]); reflexivity.
Defined.

(** X2. Inside a name, one run of white space is as good as another: two
    cells that differ by the length or the characters of a run (a tab, two
    spaces, a no-break space) normalise to the same name. *)
Theorem normalize_company_equates_whitespace_runs :
  forall a w1 w2 b : pystr,
    forallb isspace w1 = true -> w1 <> [] ->
    forallb isspace w2 = true -> w2 <> [] ->
    Normalizer.normalize_company (Some (a ++ w1 ++ b))
    = Normalizer.normalize_company (Some (a ++ w2 ++ b)).
Proof.
  intros a w1 w2 b H1 N1 H2 N2. rewrite !NormalizerFacts.normalize_squeeze.
  simpl. rewrite !NormalizerFacts.squeeze_app.
  rewrite (NormalizerFacts.squeeze_spaces _ _ H1),
    (NormalizerFacts.squeeze_spaces _ _ H2),
    (NormalizerFacts.after_spaces _ _ H1 N1),
    (NormalizerFacts.after_spaces _ _ H2 N2).
  reflexivity.
Qed.

Lemma normalize_company_equates_whitespace_runs_witness :
  Normalizer.normalize_company (Some (py "Acme" ++ [9%N] ++ py "Inc."))
  = Normalizer.normalize_company (Some (py "Acme" ++ py "   " ++ py "Inc.")).
Proof.
  apply (normalize_company_equates_whitespace_runs
           (py "Acme") [9%N] (py "   ") (py "Inc."));
    solve [reflexivity | discriminate].
Defined.

(** X3. The normaliser changes white space only.  The characters of the
    name that are not white space come out unchanged and in order; the
    result neither starts nor ends with white space, and each of its
    white-space characters is one U+0020 followed by text. *)
Theorem normalize_company_changes_whitespace_only :
  forall v : option pystr,
    filter (fun c => negb (isspace c)) (Normalizer.normalize_company v)
    = filter (fun c => negb (isspace c)) (Normalizer.astype_str v)
    /\ Normalizer.no_lead (Normalizer.normalize_company v) = true
    /\ Normalizer.no_trail (Normalizer.normalize_company v) = true
    /\ Normalizer.tidy (Normalizer.normalize_company v) = true.
Proof.
  intros v. destruct (Normalizer.normalize_shape v) as [Hl Ht].
  repeat split; auto using Normalizer.tidy_no_trail.
  rewrite NormalizerFacts.normalize_squeeze.
  apply NormalizerFacts.squeeze_keeps_text.
Qed.

(** ** The upsert as a choice of rows *)

Module UpsertFacts.
Import Upsert UpsertProps.

(** Rows with the same key and the same resolution date. *)
Definition eqv (a b : ticket) : bool := StableSort.equiv ticket key_leb a b.

(** [r] stands in [l] at a place after which no row has both its key and
    its resolution date. *)
Definition last_of (l : list ticket) (r : ticket) : Prop :=
  exists l1 l2, l = l1 ++ r :: l2 /\ forall y, In y l2 -> eqv r y = false.

(** No row of [l] with the key of [r] sorts after [r]. *)
Definition top (l : list ticket) (r : ticket) : Prop :=
  forall r' : ticket,
    In r' l -> issue_key r' = issue_key r -> key_leb r' r = true.

Lemma eqv_refl (r : ticket) : eqv r r = true.
Proof. apply equiv_iff. auto. Qed.

Lemma eqv_ext (r s : ticket) : eqv r s = true -> forall y, eqv r y = eqv s y.
Proof.
  intros H y. apply equiv_iff in H. destruct H as [Hk Hr].
  destruct (eqv s y) eqn:E.
  - apply equiv_iff in E. apply equiv_iff. destruct E. split; congruence.
  - destruct (eqv r y) eqn:E'; auto.
    apply equiv_iff in E'. destruct E' as [E1 E2].
    assert (eqv s y = true) by (apply equiv_iff; split; congruence).
    congruence.
Qed.

Lemma filter_none {A} (p : A -> bool) l :
  (forall y, In y l -> p y = false) -> filter p l = [].
Proof.
  induction l as [|a l IH]; intros H; [reflexivity|].
  simpl. rewrite (H a) by (simpl; auto). apply IH.
  intros y Hy. apply H. simpl. auto.
Qed.

Lemma last_unique l (r s : ticket) :
  last_of l r -> last_of l s -> eqv r s = true -> r = s.
Proof.
  intros [l1 [l2 [H1 H2]]] [m1 [m2 [G1 G2]]] E.
  assert (Hr : filter (eqv r) l = filter (eqv r) l1 ++ [r]).
  { rewrite H1, filter_app. simpl. rewrite eqv_refl.
    now rewrite (filter_none _ _ H2). }
  assert (Hs : filter (eqv s) l = filter (eqv s) m1 ++ [s]).
  { rewrite G1, filter_app. simpl. rewrite eqv_refl.
    now rewrite (filter_none _ _ G2). }
  rewrite (filter_ext _ _ (eqv_ext r s E) l) in Hr.
  rewrite Hr in Hs. apply app_inj_tail in Hs. tauto.
Qed.

Lemma upsert_last cur df (r : ticket) :
  In r (upsert cur df) -> last_of (cur ++ df) r /\ top (cur ++ df) r.
Proof.
  intros H. destruct (upsert_kept cur df r H) as [l1 [l2 [Hs [Hmax Hd]]]].
  split.
  - exists l1, l2. split; auto. intros y Hy.
    destruct (eqv r y) eqn:E; auto.
    apply equiv_iff in E. destruct E as [E1 E2].
    exfalso. apply (Hd y Hy); congruence.
  - intros r' Hin Hk. rewrite (key_leb_same_key r' r Hk). now apply Hmax.
Qed.

(** The stored rows are exactly the rows that come last among the greatest
    of their key. *)
Lemma upsert_in_iff cur df (r : ticket) :
  In r (upsert cur df) <-> last_of (cur ++ df) r /\ top (cur ++ df) r.
Proof.
  split; [apply upsert_last|]. intros [Hl Ht].
  assert (Hin : In r (cur ++ df)).
  { destruct Hl as [l1 [l2 [-> _]]]. apply in_elt. }
  destruct (upsert_covers cur df r Hin) as [r2 [H2 Hk]].
  destruct (upsert_last cur df r2 H2) as [Hl2 Ht2].
  assert (E : eqv r r2 = true).
  { unfold eqv, StableSort.equiv. apply andb_true_intro. split.
    - apply Ht2; auto.
    - apply Ht; auto. now apply upsert_subset. }
  now rewrite (last_unique _ _ _ Hl Hl2 E).
Qed.

(** *** The stored table is ordered *)

Lemma ddl_sorted l :
  StableSort.sorted ticket key_leb l ->
  StableSort.sorted ticket key_leb (drop_duplicates_last l).
Proof.
  induction 1 as [|x l Hall Hs IH]; simpl; [constructor|].
  destruct (existsb (same_key x) l); auto.
  constructor; auto. intros y Hy. apply Hall. now apply ddl_In.
Qed.

Lemma upsert_sorted cur df :
  StableSort.sorted ticket key_leb (upsert cur df).
Proof. apply ddl_sorted, sort_values_sorted. Qed.

Lemma upsert_nodup cur df :
  NoDup (map (fun t : ticket => issue_key t) (upsert cur df)).
Proof. apply ddl_nodup. Qed.

Lemma key_leb_antisym_key (a b : ticket) :
  key_leb a b = true -> key_leb b a = true -> issue_key a = issue_key b.
Proof.
  intros H1 H2.
  assert (E : eqv a b = true)
    by (unfold eqv, StableSort.equiv; now rewrite H1, H2).
  apply equiv_iff in E. tauto.
Qed.

(** Two ordered tables without repeated key that hold the same rows are
    the same table. *)
Lemma sorted_unique (l1 : list ticket) : forall l2 : list ticket,
  StableSort.sorted ticket key_leb l1 ->
  StableSort.sorted ticket key_leb l2 ->
  NoDup (map (fun t : ticket => issue_key t) l1) ->
  NoDup (map (fun t : ticket => issue_key t) l2) ->
  (forall x, In x l1 <-> In x l2) ->
  l1 = l2.
Proof.
  induction l1 as [|a l1 IH]; intros l2 S1 S2 N1 N2 Hm.
  - destruct l2 as [|b l2]; auto. exfalso. apply (Hm b). simpl. auto.
  - destruct l2 as [|b l2]; [exfalso; apply (Hm a); simpl; auto|].
    inversion S1 as [|? ? A1 S1']; inversion S2 as [|? ? A2 S2']; subst.
    simpl in N1, N2. apply NoDup_cons_iff in N1, N2.
    destruct N1 as [Na N1], N2 as [Nb N2].
    assert (Hab : a = b).
    { destruct (proj1 (Hm a)) as [E|Ha]; [simpl; auto|auto|].
      destruct (proj2 (Hm b)) as [E|Hb]; [simpl; auto|auto|].
      exfalso. apply Nb.
      rewrite <- (key_leb_antisym_key a b (A1 _ Hb) (A2 _ Ha)).
      now apply (in_map (fun t : ticket => issue_key t)). }
    subst b. f_equal. apply IH; auto.
    intros x. split; intros Hx.
    + destruct (proj1 (Hm x)) as [E|H]; [simpl; auto| |auto].
      subst x. exfalso. apply Na.
      now apply (in_map (fun t : ticket => issue_key t)).
    + destruct (proj2 (Hm x)) as [E|H]; [simpl; auto| |auto].
      subst x. exfalso. apply Nb.
      now apply (in_map (fun t : ticket => issue_key t)).
Qed.

(** *** Uploading a batch twice *)

Lemma split_app {A} (l b m1 m2 : list A) (r : A) :
  l ++ b = m1 ++ r :: m2 ->
  (exists s2, l = m1 ++ r :: s2 /\ m2 = s2 ++ b)
  \/ (exists b1, m1 = l ++ b1 /\ b = b1 ++ r :: m2).
Proof.
  intros H. apply app_eq_app in H. destruct H as [k [[H1 H2]|[H1 H2]]].
  - destruct k as [|x k].
    + right. exists []. rewrite app_nil_r in H1. simpl in H2.
      rewrite app_nil_r. auto.
    + left. simpl in H2. inversion H2; subst. eauto.
  - right. eauto.
Qed.

Lemma nodup_key_after (s1 s2 : list ticket) (r y : ticket) :
  NoDup (map (fun t : ticket => issue_key t) (s1 ++ r :: s2)) ->
  In y s2 -> eqv r y = false.
Proof.
  intros N Hy. destruct (eqv r y) eqn:E; auto. exfalso.
  apply equiv_iff in E. destruct E as [E _].
  rewrite map_app in N. simpl in N. apply NoDup_remove_2 in N.
  apply N, in_or_app. right. rewrite E.
  now apply (in_map (fun t : ticket => issue_key t)).
Qed.

Lemma upsert_again_in cur df (r : ticket) :
  In r (upsert (upsert cur df) df) <-> In r (upsert cur df).
Proof.
  set (S := upsert cur df).
  rewrite (upsert_in_iff S df). split.
  - intros [[m1 [m2 [Hs Hno]]] Ht].
    destruct (split_app _ _ _ _ _ Hs) as [[s2 [E _]]|[b1 [E1 E2]]].
    + rewrite E. apply in_elt.
    + assert (Hin : In r (cur ++ df)).
      { apply in_or_app. right. rewrite E2. apply in_elt. }
      destruct (upsert_covers cur df r Hin) as [s [Hs' Hk]]. fold S in Hs'.
      destruct (upsert_last cur df s Hs') as [Hl' Ht'].
      assert (E : eqv r s = true).
      { unfold eqv, StableSort.equiv. apply andb_true_intro. split.
        - apply Ht'; auto.
        - apply Ht; auto. apply in_or_app. now left. }
      assert (Hl : last_of (cur ++ df) r).
      { exists (cur ++ b1), m2. split; auto.
        rewrite E2, app_assoc. reflexivity. }
      now rewrite (last_unique _ _ _ Hl Hl' E).
  - intros Hr. destruct (upsert_last cur df r Hr) as [[l1 [l2 [Hs Hno]]] Ht].
    split.
    + destruct (split_app _ _ _ _ _ Hs) as [[c2 [E1 E2]]|[b1 [E1 E2]]].
      * destruct (in_split _ _ Hr) as [s1 [s2 Es]]. fold S in Es.
        exists s1, (s2 ++ df). split.
        -- rewrite Es, <- app_assoc. reflexivity.
        -- intros y Hy. apply in_app_or in Hy. destruct Hy as [Hy|Hy].
           ++ apply (nodup_key_after s1 s2); auto.
              rewrite <- Es. apply upsert_nodup.
           ++ apply Hno. rewrite E2. apply in_or_app. now right.
      * exists (S ++ b1), l2. split; auto.
        rewrite E2, app_assoc. reflexivity.
    + intros r' Hin Hk. apply Ht; auto.
      apply in_app_or in Hin. destruct Hin as [Hin|Hin].
      * now apply upsert_subset.
      * apply in_or_app. now right.
Qed.

Lemma upsert_again cur df : upsert (upsert cur df) df = upsert cur df.
Proof.
  apply sorted_unique;
    auto using upsert_sorted, upsert_nodup, upsert_again_in.
Qed.

(** *** Keys in strict order *)

(** The key of [a] comes strictly before the key of [b]; a missing key
    comes after every text. *)
Definition key_ltb (a b : ticket) : bool :=
  match Key.na_last Key.pystr_compare (issue_key a) (issue_key b) with
  | Lt => true
  | _ => false
  end.

Lemma strictly_sorted (l : list ticket) :
  StableSort.sorted ticket key_leb l ->
  NoDup (map (fun t : ticket => issue_key t) l) ->
  StableSort.sorted ticket key_ltb l.
Proof.
  induction 1 as [|x l Hall Hs IH]; intros N; [constructor|].
  simpl in N. apply NoDup_cons_iff in N. destruct N as [Nx N].
  constructor; auto. intros y Hy. specialize (Hall y Hy).
  unfold key_leb, key_compare, Key.lex in Hall. unfold key_ltb.
  destruct (Key.na_last Key.pystr_compare (issue_key x) (issue_key y)) eqn:E;
    try reflexivity; try discriminate.
  exfalso. apply Nx.
  apply (Key.cmp_eq _ (Key.na_last_ok _ Key.pystr_cmp_ok)) in E.
  rewrite E. now apply (in_map (fun t : ticket => issue_key t)).
Qed.

Lemma upsert_strictly_sorted cur df :
  StableSort.sorted ticket key_ltb (upsert cur df).
Proof. apply strictly_sorted; [apply upsert_sorted|apply upsert_nodup]. Qed.

Lemma nodup_key_eq (l : list ticket) (a b : ticket) :
  NoDup (map (fun t : ticket => issue_key t) l) ->
  In a l -> In b l -> issue_key a = issue_key b -> a = b.
Proof.
  induction l as [|x l IH]; simpl; [contradiction|].
  intros N Ha Hb E. apply NoDup_cons_iff in N. destruct N as [Nx N].
  destruct Ha as [->|Ha], Hb as [->|Hb]; auto.
  - exfalso. apply Nx. rewrite E.
    now apply (in_map (fun t : ticket => issue_key t)).
  - exfalso. apply Nx. rewrite <- E.
    now apply (in_map (fun t : ticket => issue_key t)).
Qed.

End UpsertFacts.

(** ** The upload, case by case *)

Module UploadFacts.
Import Upload UploadProps.

Lemma endswith_iff s x : endswith s x = true <-> exists p, s = p ++ x.
Proof.
  unfold endswith. rewrite andb_true_iff, Nat.leb_le, UpsertProps.pystr_eqb_eq.
  split.
  - intros [_ E]. remember (List.length s - List.length x)%nat as k.
    exists (firstn k s). rewrite <- E. symmetry. apply firstn_skipn.
  - intros [p ->]. rewrite length_app. split; [lia|].
    replace (List.length p + List.length x - List.length x)%nat
      with (List.length p) by lia.
    rewrite skipn_app, skipn_all, Nat.sub_diag. reflexivity.
Qed.

(** The file-name test reads the last four characters, whatever their
    case. *)
Lemma csv_name_iff name :
  endswith (lower name) (py ".csv") = true
  <-> exists stem ext, name = stem ++ ext /\ lower ext = py ".csv".
Proof.
  rewrite endswith_iff. split.
  - intros [p E]. exists (firstn (List.length p) name),
                         (skipn (List.length p) name).
    split; [symmetry; apply firstn_skipn|].
    unfold lower in *. rewrite <- skipn_map, E.
    rewrite skipn_app, skipn_all, Nat.sub_diag. reflexivity.
  - intros [stem [ext [-> E]]]. exists (lower stem).
    unfold lower in *. now rewrite map_app, E.
Qed.

(** A line of the file whose status is ["Permanently Closed"]. *)
Definition closed_line (r : raw_ticket) : bool :=
  match raw_status r with
  | Some s => pystr_eqb s PERMANENTLY_CLOSED
  | None => false
  end.

Lemma filter_map_length {A B} (p : B -> bool) (f : A -> B) l :
  List.length (filter p (map f l))
  = List.length (filter (fun a => p (f a)) l).
Proof.
  induction l as [|a l IH]; [reflexivity|]. simpl.
  destruct (p (f a)); simpl; now rewrite IH.
Qed.

Lemma ddl_length l :
  (List.length (Upsert.drop_duplicates_last l) <= List.length l)%nat.
Proof.
  induction l as [|x l IH]; simpl; [lia|].
  destruct (existsb (Upsert.same_key x) l); simpl; lia.
Qed.

Lemma upsert_length cur new :
  (List.length (Upsert.upsert cur new)
   <= List.length cur + List.length new)%nat.
Proof.
  unfold Upsert.upsert, Upsert.sort_values.
  rewrite <- length_app.
  rewrite <- (StableSort.sort_length ticket Upsert.key_leb (cur ++ new)).
  apply ddl_length.
Qed.

Lemma upsert_empty_iff cur new :
  Upsert.upsert cur new = [] <-> cur = [] /\ new = [].
Proof.
  split.
  - intros E. destruct (cur ++ new) as [|x l] eqn:El.
    + now apply app_eq_nil in El.
    + destruct (UpsertProps.upsert_covers cur new x) as [r [Hr _]].
      * rewrite El. simpl. auto.
      * rewrite E in Hr. contradiction.
  - intros [-> ->]. reflexivity.
Qed.

Section WithParsers.
Variable to_datetime : pystr -> timestamp.
Variable parse_number : pystr -> option num.

Lemma candidates_length df :
  List.length (candidates to_datetime df)
  = List.length (filter closed_line (rows df)).
Proof. unfold candidates. rewrite filter_map_length. reflexivity. Qed.

Lemma closed_lines_normalize df :
  List.length (filter closed_line (rows (normalize_crm df)))
  = List.length (filter closed_line (rows df)).
Proof.
  unfold normalize_crm. destruct (mem _ _); [|reflexivity].
  simpl. rewrite filter_map_length. reflexivity.
Qed.

Lemma prepare_length df new :
  prepare to_datetime parse_number df = Some new ->
  List.length new = List.length (filter closed_line (rows df)).
Proof.
  intros H. apply prepare_rows in H. apply Forall2_length in H.
  now rewrite <- H, candidates_length.
Qed.

(** An upload either fails and returns the store it was given, or passes
    the three checks and stores the upsert of its batch. *)
Lemma upload_cases name df st :
  (exists e, upload_tickets to_datetime parse_number name df st = (Err e, st))
  \/ exists new,
       endswith (lower name) (py ".csv") = true
       /\ missing_columns df = []
       /\ prepare to_datetime parse_number (normalize_crm df) = Some new
       /\ upload_tickets to_datetime parse_number name df st
          = (Ok (List.length (Upsert.upsert (current st) new), List.length new),
             mkStore (Some (Upsert.upsert (current st) new)) (sla_parquet st)
                     (current_summary st || mem (py "Summary") (columns df))
                     (resolution_stored st)).
Proof.
  unfold upload_tickets.
  destruct (endswith (lower name) (py ".csv")); simpl; [|left; eauto].
  rewrite missing_columns_normalize.
  destruct (missing_columns df); [|left; eauto].
  destruct (prepare to_datetime parse_number (normalize_crm df)) as [new|];
    [|left; eauto].
  right. exists new. rewrite normalize_crm_columns. auto.
Qed.

(** What holds of the stored table after every upsert holds after every
    sequence of uploads. *)
Lemma uploads_invariant (P : list ticket -> Prop) :
  (forall cur new, P (Upsert.upsert cur new)) ->
  forall reqs st, P (current st) ->
    P (current (uploads to_datetime parse_number st reqs)).
Proof.
  intros HP. induction reqs as [|[name df] reqs IH]; intros st H; [exact H|].
  simpl. apply IH.
  destruct (upload_cases name df st) as [[e E]|[new [_ [_ [_ E]]]]];
    rewrite E; [exact H|apply HP].
Qed.

(** Every stored row comes from the batch of an upload that passed the
    header check. *)
Lemma uploads_origin reqs : forall st (t : ticket),
  In t (current (uploads to_datetime parse_number st reqs)) ->
  In t (current st)
  \/ exists name df new,
       In (name, df) reqs
       /\ missing_columns df = []
       /\ prepare to_datetime parse_number (normalize_crm df) = Some new
       /\ In t new.
Proof.
  induction reqs as [|[name df] reqs IH]; intros st t H; simpl in H.
  - now left.
  - destruct (IH _ _ H) as [Hin|[n [d [new [Hr [Hm [Hb Ht]]]]]]].
    + destruct (upload_cases name df st) as [[e E]|[new [_ [Hm [Hb E]]]]];
        rewrite E in Hin.
      * now left.
      * apply UpsertProps.upsert_subset in Hin.
        apply in_app_or in Hin. destruct Hin as [Hin|Hin]; [now left|].
        right. exists name, df, new. simpl. auto.
    + right. exists n, d, new. simpl. auto.
Qed.

(** A row of a batch is a closed line of the file, renamed and typed. *)
Lemma prepare_line df new (t : ticket) :
  prepare to_datetime parse_number df = Some new -> In t new ->
  exists r rc,
    In r (rows df)
    /\ t = typed (fst (select_rename to_datetime df r)) rc.
Proof.
  unfold prepare.
  destruct (reopen_counts parse_number (map snd (candidates to_datetime df)))
    as [rcs|]; [|discriminate].
  intros H Ht. inversion H; subst. clear H.
  apply in_map_iff in Ht. destruct Ht as [[p rc] [<- Hp]].
  apply in_combine_l in Hp. unfold candidates in Hp.
  apply filter_In in Hp. destruct Hp as [Hp _].
  apply in_map_iff in Hp. destruct Hp as [r [<- Hr]].
  exists r, rc. auto.
Qed.

Lemma required_present df h :
  missing_columns df = [] -> In h REQUIRED_TICKET_COLS ->
  mem h (columns df) = true.
Proof.
  intros Hm Hh. destruct (mem h (columns df)) eqn:E; auto.
  assert (Hin : In h (missing_columns df)).
  { apply missing_columns_spec. split; auto.
    rewrite <- (mem_In h (columns df)). congruence. }
  rewrite Hm in Hin. contradiction.
Qed.

End WithParsers.

End UploadFacts.

Module SampleStore.
Import Sample.

(** The ticket ["SUP-1"] as an earlier export had it: resolved at 12:00. *)
Definition earlier : ticket :=
  closed_ticket "SUP-1" (Some T_11_00) (Some T_11_00) (Some T_10_00)
                (Some T_12_00) 0.

(** A store that holds the ticket ["SUP-1"] and no SLA table. *)
Definition one_ticket : store := mkStore (Some [dated]) None false false.

End SampleStore.

(** X4. What a ticket upload does to the store and what it answers.  A
    failed upload returns the store it was given.  A successful one leaves
    the SLA table alone and writes the ticket table, which has a [summary]
    column when the table before had one or the file has the header;
    [tickets_stored] is
    the number of rows of that table, [new_rows] is the number of
    permanently closed lines of the file, the table holds at most
    [new_rows] more rows than before, and it is empty only when it was
    empty and the file had no closed line. *)
Theorem ticket_upload_outcome :
  forall (to_datetime : pystr -> timestamp)
         (parse_number : pystr -> option num)
         (filename : pystr) (df : frame) (st : store),
    match Upload.upload_tickets to_datetime parse_number filename df st with
    | (Err _, st') => st' = st
    | (Ok (stored, new_rows), st') =>
        sla_parquet st' = sla_parquet st
        /\ resolution_stored st' = resolution_stored st
        /\ summary_stored st'
           = (Upload.current_summary st
              || Upload.mem (py "Summary") (columns df))
        /\ option_map (@List.length ticket) (tickets_parquet st') = Some stored
        /\ new_rows = List.length (filter UploadFacts.closed_line (rows df))
        /\ (stored <= List.length (Upload.current st) + new_rows)%nat
        /\ (stored = 0%nat <-> Upload.current st = [] /\ new_rows = 0%nat)
    end.
Proof.
  intros td pn name df st.
  destruct (UploadFacts.upload_cases td pn name df st)
    as [[e E]|[new [_ [_ [Hb E]]]]]; rewrite E; [reflexivity|].
  assert (Hn : List.length new
               = List.length (filter UploadFacts.closed_line (rows df))).
  { rewrite (UploadFacts.prepare_length td pn _ _ Hb).
    apply UploadFacts.closed_lines_normalize. }
  simpl. rewrite <- Hn. repeat split.
  - apply UploadFacts.upsert_length.
  - apply length_zero_iff_nil in H.
    now apply UploadFacts.upsert_empty_iff in H.
  - apply length_zero_iff_nil in H.
    apply UploadFacts.upsert_empty_iff in H. destruct H as [_ ->]. reflexivity.
  - intros [Hc Hl]. apply length_zero_iff_nil in Hl.
    apply length_zero_iff_nil, UploadFacts.upsert_empty_iff. auto.
Qed.

(** X5. The file-name check of the upload.  The request fails with
    ["Only CSV supported"] exactly when the name does not end in [.csv]
    written in some mix of upper and lower case; the content of the file
    and the store play no part. *)
Theorem only_csv_file_names_are_accepted :
  forall (to_datetime : pystr -> timestamp)
         (parse_number : pystr -> option num)
         (filename : pystr) (df : frame) (st : store),
    fst (Upload.upload_tickets to_datetime parse_number filename df st)
    = Err UnsupportedFileType
    <-> ~ (exists stem ext,
             filename = stem ++ ext /\ Upload.lower ext = py ".csv").
Proof.
  intros td pn name df st. rewrite <- UploadFacts.csv_name_iff.
  unfold Upload.upload_tickets.
  destruct (Upload.endswith (Upload.lower name) (py ".csv")); simpl.
  - split; [|intros H; exfalso; now apply H].
    destruct (Upload.missing_columns (Upload.normalize_crm df));
      [|discriminate].
    destruct (Upload.prepare td pn (Upload.normalize_crm df)); discriminate.
  - split; [discriminate|reflexivity].
Qed.

(** X6. Uploading the same file twice in a row is the same as uploading it
    once: the second request gives the answer of the first and leaves the
    store as the first left it. *)
Theorem uploading_a_file_twice_changes_nothing :
  forall (to_datetime : pystr -> timestamp)
         (parse_number : pystr -> option num)
         (filename : pystr) (df : frame) (st : store),
    Upload.upload_tickets to_datetime parse_number filename df
      (snd (Upload.upload_tickets to_datetime parse_number filename df st))
    = Upload.upload_tickets to_datetime parse_number filename df st.
Proof.
  intros td pn name df st.
  destruct (UploadFacts.upload_cases td pn name df st)
    as [[e E]|[new [Hc [Hm [Hb E]]]]]; rewrite E; simpl snd; [exact E|].
  unfold Upload.upload_tickets. rewrite Hc. simpl negb. cbv iota.
  rewrite UploadProps.missing_columns_normalize, Hm, Hb.
  unfold Upload.current, Upload.current_summary.
  simpl tickets_parquet. simpl sla_parquet. simpl summary_stored.
  simpl resolution_stored. cbv iota.
  rewrite UploadProps.normalize_crm_columns.
  now rewrite UpsertFacts.upsert_again, <- orb_assoc, orb_diag.
Qed.

(** X7. Whatever the sequence of uploads from the empty store, the stored
    ticket table is in strictly ascending order of [issue_key] (a row
    without key last); in particular no key is stored twice. *)
Theorem stored_tickets_are_ordered_by_issue_key :
  forall (to_datetime : pystr -> timestamp)
         (parse_number : pystr -> option num)
         (reqs : list (pystr * frame)),
    StableSort.sorted ticket UpsertFacts.key_ltb
      (Upload.current
         (Upload.uploads to_datetime parse_number empty_store reqs)).
Proof.
  intros td pn reqs.
  apply (UploadFacts.uploads_invariant td pn
           (StableSort.sorted ticket UpsertFacts.key_ltb)).
  - apply UpsertFacts.upsert_strictly_sorted.
  - constructor.
Qed.

(** X8. No upload removes a ticket: a key that is stored is still stored
    after any sequence of further uploads, failed or not. *)
Theorem a_stored_issue_key_stays_stored :
  forall (to_datetime : pystr -> timestamp)
         (parse_number : pystr -> option num)
         (reqs : list (pystr * frame)) (st : store) (t : ticket),
    In t (Upload.current st) ->
    exists t' : ticket,
      In t' (Upload.current (Upload.uploads to_datetime parse_number st reqs))
      /\ issue_key t' = issue_key t.
Proof.
  intros td pn. induction reqs as [|[name df] reqs IH]; intros st t Ht.
  - exists t. auto.
  - simpl.
    destruct (UploadFacts.upload_cases td pn name df st)
      as [[e E]|[new [_ [_ [_ E]]]]]; rewrite E; simpl snd.
    + now apply IH.
    + destruct (UpsertProps.upsert_covers (Upload.current st) new t)
        as [r [Hr Hk]]; [apply in_or_app; now left|].
      destruct (IH (mkStore (Some (Upsert.upsert (Upload.current st) new))
                            (sla_parquet st)
                            (Upload.current_summary st
                             || Upload.mem (py "Summary") (columns df))
                            (resolution_stored st)) r Hr) as [t' [Ht' Hk']].
      exists t'. split; [exact Ht'|congruence].
Qed.

Lemma a_stored_issue_key_stays_stored_witness :
  exists t' : ticket,
    In t' (Upload.current
             (Upload.uploads Sample.to_datetime Sample.parse_number
                SampleStore.one_ticket
                [ (py "tickets.csv", SampleUpload.mixed);
                  (py "tickets.txt", SampleUpload.mixed) ]))
    /\ issue_key t' = issue_key Sample.dated.
Proof.
  apply (a_stored_issue_key_stays_stored
           Sample.to_datetime Sample.parse_number
           [ (py "tickets.csv", SampleUpload.mixed);
             (py "tickets.txt", SampleUpload.mixed) ]
           SampleStore.one_ticket Sample.dated).
  simpl. left. reflexivity.
Defined.

(** X9. A stale export does not roll a ticket back.  When the stored table
    has one row per key and every row of the batch with the key of the
    stored row [r] carries a resolution date strictly before that of [r]
    (a missing date of [r] counting as the latest), [r] is still stored
    after the upsert. *)
Theorem older_rows_do_not_replace_a_stored_ticket :
  forall (cur df : list ticket) (r : ticket),
    NoDup (map (fun t : ticket => issue_key t) cur) ->
    In r cur ->
    (forall r' : ticket, In r' df -> issue_key r' = issue_key r ->
       Key.na_last Z.compare (resolved r') (resolved r) = Lt) ->
    In r (Upsert.upsert cur df).
Proof.
  intros cur df r N Hr Hold. apply UpsertFacts.upsert_in_iff. split.
  - destruct (in_split _ _ Hr) as [c1 [c2 Ec]].
    exists c1, (c2 ++ df). split; [rewrite Ec, <- app_assoc; reflexivity|].
    intros y Hy. apply in_app_or in Hy. destruct Hy as [Hy|Hy].
    + apply (UpsertFacts.nodup_key_after c1 c2); auto. now rewrite <- Ec.
    + destruct (UpsertFacts.eqv r y) eqn:E; auto.
      apply UpsertProps.equiv_iff in E. destruct E as [E1 E2].
      specialize (Hold y Hy (eq_sym E1)). rewrite E2 in Hold.
      rewrite (Key.cmp_refl _ _ (Key.na_last_ok _ Key.Z_cmp_ok)) in Hold.
      discriminate.
  - intros r' Hin Hk. apply in_app_or in Hin. destruct Hin as [Hin|Hin].
    + rewrite (UpsertFacts.nodup_key_eq cur r' r N Hin Hr Hk).
      apply UpsertProps.key_leb_refl.
    + rewrite (UpsertProps.key_leb_same_key r' r Hk), (Hold r' Hin Hk).
      reflexivity.
Qed.

Lemma older_rows_do_not_replace_a_stored_ticket_witness :
  In Sample.dated (Upsert.upsert [Sample.dated] [SampleStore.earlier]).
Proof.
  apply (older_rows_do_not_replace_a_stored_ticket
           [Sample.dated] [SampleStore.earlier] Sample.dated).
  - constructor; [intros []|constructor].
  - simpl. left. reflexivity.
  - intros r' [<-|[]] _. reflexivity.
Defined.

(** X10. A row of the batch takes the place of the stored row of its key
    as soon as it is resolved no earlier: when the batch has one row per
    key and no stored row with the key of its row [r] sorts after [r] by
    resolution date (equal dates included, and vacuously for a key that is
    not stored yet), [r] is stored after the upsert. *)
Theorem a_row_resolved_no_earlier_is_stored :
  forall (cur df : list ticket) (r : ticket),
    NoDup (map (fun t : ticket => issue_key t) df) ->
    In r df ->
    (forall r' : ticket, In r' cur -> issue_key r' = issue_key r ->
       Key.le_of (Key.na_last Z.compare (resolved r') (resolved r)) = true) ->
    In r (Upsert.upsert cur df).
Proof.
  intros cur df r N Hr Hnew. apply UpsertFacts.upsert_in_iff. split.
  - destruct (in_split _ _ Hr) as [d1 [d2 Ed]].
    exists (cur ++ d1), d2. split; [rewrite Ed, <- app_assoc; reflexivity|].
    intros y Hy. apply (UpsertFacts.nodup_key_after d1 d2); auto.
    now rewrite <- Ed.
  - intros r' Hin Hk. apply in_app_or in Hin. destruct Hin as [Hin|Hin].
    + rewrite (UpsertProps.key_leb_same_key r' r Hk). now apply Hnew.
    + rewrite (UpsertFacts.nodup_key_eq df r' r N Hin Hr Hk).
      apply UpsertProps.key_leb_refl.
Qed.

Lemma a_row_resolved_no_earlier_is_stored_witness :
  In Sample.dated (Upsert.upsert [SampleStore.earlier] [Sample.dated]).
Proof.
  apply (a_row_resolved_no_earlier_is_stored
           [SampleStore.earlier] [Sample.dated] Sample.dated).
  - constructor; [intros []|constructor].
  - simpl. left. reflexivity.
  - intros r' [<-|[]] _. reflexivity.
Defined.

(** X11. The derived column of every stored ticket.  Whatever the uploads
    from the empty store, [resolution_minutes] of a stored row is the time
    from its [created] to its [resolved] in minutes, and it is NaN exactly
    when one of the two dates is missing. *)
Theorem stored_resolution_minutes_follow_the_dates :
  forall (to_datetime : pystr -> timestamp)
         (parse_number : pystr -> option num)
         (reqs : list (pystr * frame)),
    Forall
      (fun t : ticket =>
         resolution_minutes t
         = Time.minutes_between (resolved t) (created t)
         /\ F64.is_nan (resolution_minutes t)
            = negb (Time.notna (resolved t) && Time.notna (created t)))
      (Upload.current
         (Upload.uploads to_datetime parse_number empty_store reqs)).
Proof.
  intros td pn reqs. apply Forall_forall. intros t Ht.
  apply UploadFacts.uploads_origin in Ht.
  destruct Ht as [[]|[name [df [new [_ [_ [Hb Ht]]]]]]].
  destruct (UploadFacts.prepare_line td pn _ _ _ Hb Ht) as [r [rc [_ ->]]].
  split; [reflexivity|]. simpl.
  destruct (Upload.parse_date td (raw_resolved r)) as [x|],
           (Upload.parse_date td (raw_created r)) as [y|];
    simpl; try reflexivity.
  pose proof (JoinProps.minutes_not_nan (Some x) (Some y) (x - y) eq_refl) as H.
  destruct (Time.minutes_between (Some x) (Some y)); try reflexivity.
  now elim H.
Qed.

(** X12. The company of every stored ticket is in normal form.  Whatever
    the uploads from the empty store, [crm_company] of a stored row is
    present (an empty cell is stored as the text ["nan"]) and normalising
    it again gives it back. *)
Theorem stored_company_names_are_normalised :
  forall (to_datetime : pystr -> timestamp)
         (parse_number : pystr -> option num)
         (reqs : list (pystr * frame)),
    Normalizer.normalize_company None = py "nan"
    /\ Forall
         (fun t : ticket =>
            exists name : pystr,
              crm_company t = Some name
              /\ Normalizer.normalize_company (Some name) = name)
         (Upload.current
            (Upload.uploads to_datetime parse_number empty_store reqs)).
Proof.
  intros td pn reqs. split; [reflexivity|].
  apply Forall_forall. intros t Ht.
  apply UploadFacts.uploads_origin in Ht.
  destruct Ht as [[]|[name [df [new [_ [Hm [Hb Ht]]]]]]].
  destruct (UploadFacts.prepare_line td pn _ _ _ Hb Ht) as [r [rc [Hr ->]]].
  assert (Hc : Upload.mem (py "Custom field (CRM Company)") (columns df)
               = true).
  { apply UploadFacts.required_present; auto. vm_compute. tauto. }
  unfold Upload.normalize_crm in Hr. rewrite Hc in Hr. simpl in Hr.
  apply in_map_iff in Hr. destruct Hr as [r0 [<- _]].
  exists (Normalizer.normalize_company (raw_crm_company r0)).
  split; [reflexivity|apply NormalizerFacts.normalize_fixed].
Qed.

(** ** The left join, row by row *)

Module MergeFacts.
Import F64 Join.

(** The join key of an SLA row. *)
Definition sla_key (r : sla_row) : option pystr * option pystr :=
  (sla_company r, sla_severity r).

Lemma opt_eqb_eq a b : opt_eqb a b = true <-> a = b.
Proof.
  destruct a as [x|], b as [y|]; simpl;
    rewrite ?UpsertProps.pystr_eqb_eq; split; congruence.
Qed.

Lemma on_key_iff (tk : ticket) r :
  on_key tk r = true <-> sla_key r = (crm_company tk, severity tk).
Proof.
  unfold on_key, sla_key. rewrite andb_true_iff, !opt_eqb_eq.
  split; [intros [-> ->]; reflexivity|].
  intros H. inversion H. auto.
Qed.

(** The rows one ticket contributes to the merged frame. *)
Definition matches (s : list sla_row) (tk : ticket)
  : list (ticket * float * float) :=
  match filter (on_key tk) s with
  | [] => [(tk, nan, nan)]
  | ms => map (fun m => (tk, first_response m, resolution m)) ms
  end.

Lemma merge_cons tk t s : merge (tk :: t) s = matches s tk ++ merge t s.
Proof. reflexivity. Qed.

Lemma matches_ticket s tk row : In row (matches s tk) -> fst (fst row) = tk.
Proof.
  unfold matches. destruct (filter (on_key tk) s) as [|m ms].
  - intros [<-|[]]. reflexivity.
  - intros H. apply in_map_iff in H. destruct H as [x [<- _]]. reflexivity.
Qed.

Lemma matches_nonempty s tk : matches s tk <> [].
Proof.
  unfold matches. destruct (filter (on_key tk) s); simpl; discriminate.
Qed.

Lemma metrics_ticket row : jticket (metrics row) = fst (fst row).
Proof. destruct row as [[tk a] b]. reflexivity. Qed.

Lemma merge_In t s row :
  In row (merge t s) <-> exists tk, In tk t /\ In row (matches s tk).
Proof. unfold merge. apply in_flat_map. Qed.

(** With distinct keys in the SLA table a ticket meets one row at most. *)
Lemma filter_unique_key (s : list sla_row) (tk : ticket) :
  NoDup (map sla_key s) -> (List.length (filter (on_key tk) s) <= 1)%nat.
Proof.
  induction s as [|r s IH]; simpl; intros N; [lia|].
  apply NoDup_cons_iff in N. destruct N as [Nr N].
  destruct (on_key tk r) eqn:E; [|auto].
  assert (Hs : filter (on_key tk) s = []).
  { apply UpsertFacts.filter_none. intros y Hy.
    destruct (on_key tk y) eqn:Ey; auto. exfalso. apply Nr.
    apply on_key_iff in E, Ey. rewrite E, <- Ey. now apply in_map. }
  rewrite Hs. simpl. lia.
Qed.

Lemma matches_single s tk :
  (List.length (filter (on_key tk) s) <= 1)%nat ->
  map (fun row => fst (fst row)) (matches s tk) = [tk].
Proof.
  unfold matches. destruct (filter (on_key tk) s) as [|m [|m' ms]]; simpl;
    auto. lia.
Qed.

(** *** A missing operand of the resolution percentage *)

Lemma sub_nan_r x : sub x nan = nan.
Proof. destruct x; reflexivity. Qed.

Lemma sub_nan_l y : sub nan y = nan.
Proof. destruct y; reflexivity. Qed.

Lemma leb_nan_r x : leb x nan = false.
Proof. destruct x; reflexivity. Qed.

Lemma leb_nan_l y : leb nan y = false.
Proof. destruct y; reflexivity. Qed.

Lemma is_nan_eq x : is_nan x = true -> x = nan.
Proof. destruct x; simpl; intros H; try discriminate; reflexivity. Qed.

Lemma resolution_missing rm res :
  is_nan rm = true \/ is_nan res = true ->
  leb rm res = false /\ exceed_pct (sub rm res) res = zero.
Proof.
  intros [H|H]; apply is_nan_eq in H; subst.
  - rewrite sub_nan_l, leb_nan_l. auto.
  - rewrite sub_nan_r, leb_nan_r. auto.
Qed.

(** A join that succeeds read both tables and found the [resolution]
    column. *)
Lemma load_joined_ok st d :
  Join.load_joined st = Ok d ->
  exists t s,
    tickets_parquet st = Some t /\ sla_parquet st = Some s
    /\ resolution_stored st = true
    /\ d = map Join.metrics (Join.merge t s).
Proof.
  unfold Join.load_joined.
  destruct (tickets_parquet st) as [t|]; [|discriminate].
  destruct (sla_parquet st) as [s|]; [|discriminate].
  destruct (resolution_stored st); [|discriminate].
  intros H. injection H as <-. exists t, s. auto.
Qed.

End MergeFacts.

Module SampleMerge.

(** A ticket of a company that the SLA table of [SampleJoin] does not
    list. *)
Definition stranger : ticket :=
  Upload.typed
    (mkFields (Some (py "SUP-4")) None (Some (py "Severity 1"))
              (Some PERMANENTLY_CLOSED)
              (Some Sample.T_11_00) (Some Sample.T_11_00)
              (Some Sample.T_10_00) None (Some Sample.T_12_00)
              (Some (py "bob")) None (Some (py "api")) None
              (Some (py "Zenith")))
    0.

End SampleMerge.

(** X13. The reports and the two tables.  Each of the four report
    requests fails with ["Upload both tickets CSV and SLA CSV first."] when
    one of the two tables is missing; and since a ticket upload never
    writes the SLA table, every report request fails that way after any
    sequence of ticket uploads from the empty store. *)
Theorem reports_need_both_tables :
  (forall st : store,
     match tickets_parquet st, sla_parquet st with
     | Some _, Some _ => True
     | _, _ =>
         Endpoint.assignee_avg st = Err DataNotReady
         /\ Endpoint.product_avg st = Err DataNotReady
         /\ Endpoint.violations st = Err DataNotReady
         /\ Endpoint.reopens st = Err DataNotReady
     end)
  /\ (forall (to_datetime : pystr -> timestamp)
             (parse_number : pystr -> option num)
             (reqs : list (pystr * frame)),
        Endpoint.assignee_avg
          (Upload.uploads to_datetime parse_number empty_store reqs)
        = Err DataNotReady
        /\ Endpoint.product_avg
             (Upload.uploads to_datetime parse_number empty_store reqs)
           = Err DataNotReady
        /\ Endpoint.violations
             (Upload.uploads to_datetime parse_number empty_store reqs)
           = Err DataNotReady
        /\ Endpoint.reopens
             (Upload.uploads to_datetime parse_number empty_store reqs)
           = Err DataNotReady).
Proof.
  assert (A : forall st : store,
     match tickets_parquet st, sla_parquet st with
     | Some _, Some _ => True
     | _, _ =>
         Endpoint.assignee_avg st = Err DataNotReady
         /\ Endpoint.product_avg st = Err DataNotReady
         /\ Endpoint.violations st = Err DataNotReady
         /\ Endpoint.reopens st = Err DataNotReady
     end).
  { intros st.
    unfold Endpoint.assignee_avg, Endpoint.product_avg, Endpoint.violations,
      Endpoint.reopens, Reports.assignee_avg, Reports.product_avg,
      Reports.violations, Reports.reopens, Reports.bind, Join.load_joined.
    destruct (tickets_parquet st), (sla_parquet st); auto. }
  split; [exact A|].
  intros td pn reqs.
  assert (H : forall st,
            sla_parquet (Upload.uploads td pn st reqs) = sla_parquet st).
  { induction reqs as [|[name df] reqs IH]; intros st; [reflexivity|].
    simpl. rewrite IH.
    destruct (UploadFacts.upload_cases td pn name df st)
      as [[e E]|[new [_ [_ [_ E]]]]]; now rewrite E. }
  specialize (A (Upload.uploads td pn empty_store reqs)).
  rewrite H in A. simpl in A.
  destruct (tickets_parquet (Upload.uploads td pn empty_store reqs));
    exact A.
Qed.

(** With both tables stored, the join still fails when the SLA table has
    no [resolution] column, and so does every report; and the reopen
    report fails when the ticket table has no [summary] column. *)
Example reports_fail_on_a_missing_column :
  Join.load_joined
    (mkStore (Some [Sample.dated]) (Some [SampleJoin.sla F64.nan])
             true false)
  = Err (KeyError (py "resolution"))
  /\ Endpoint.violations
       (mkStore (Some [Sample.dated]) (Some [SampleJoin.sla F64.nan])
                true false)
     = Err (KeyError (py "resolution"))
  /\ Endpoint.assignee_avg
       (mkStore (Some [Sample.dated]) (Some [SampleJoin.sla F64.nan])
                true false)
     = Err (KeyError (py "resolution"))
  /\ Endpoint.reopens (SampleJoin.store_of Sample.dated (F64.of_Z 120))
     = Err (KeyError (py "summary")).
Proof. vm_compute. repeat split. Qed.

(** X14. The join is a left join: it neither drops nor invents a ticket.
    When the join succeeds, the tickets of the joined rows are exactly the
    stored tickets, and there are at least as many joined rows as
    tickets. *)
Theorem the_join_keeps_every_ticket :
  forall (st : store) (t : list ticket) (d : list Join.joined),
    tickets_parquet st = Some t ->
    Join.load_joined st = Ok d ->
    (forall tk : ticket,
        In tk t <-> exists j, In j d /\ Join.jticket j = tk)
    /\ (List.length t <= List.length d)%nat.
Proof.
  intros st t d Ht Hd.
  destruct (MergeFacts.load_joined_ok st d Hd) as [t' [s [Ht' [_ [_ ->]]]]].
  assert (t' = t) by congruence. subst t'. clear Ht Ht' Hd. split.
  - intros tk. split.
    + intros Hin.
      destruct (MergeFacts.matches s tk) as [|row rows] eqn:E;
        [now apply MergeFacts.matches_nonempty in E|].
      exists (Join.metrics row). split.
      * apply in_map, MergeFacts.merge_In. exists tk. split; auto.
        rewrite E. simpl. auto.
      * rewrite MergeFacts.metrics_ticket.
        apply (MergeFacts.matches_ticket s). rewrite E. simpl. auto.
    + intros [j [Hj <-]]. apply in_map_iff in Hj.
      destruct Hj as [row [<- Hrow]].
      apply MergeFacts.merge_In in Hrow. destruct Hrow as [tk [Htk Hrow]].
      rewrite MergeFacts.metrics_ticket.
      now rewrite (MergeFacts.matches_ticket _ _ _ Hrow).
  - rewrite length_map. induction t as [|tk t IH]; [simpl; lia|].
    rewrite MergeFacts.merge_cons, length_app. simpl.
    pose proof (MergeFacts.matches_nonempty s tk).
    destruct (MergeFacts.matches s tk); [congruence|simpl; lia].
Qed.

(** X14 on a table of two tickets, one of them without SLA row. *)
Lemma the_join_keeps_every_ticket_witness :
  exists d : list Join.joined,
    Join.load_joined
      (mkStore (Some [Sample.dated; SampleMerge.stranger])
               (Some [SampleJoin.sla (F64.of_Z 120)]) false true)
    = Ok d
    /\ (forall tk : ticket,
          In tk [Sample.dated; SampleMerge.stranger]
          <-> exists j, In j d /\ Join.jticket j = tk)
    /\ (2 <= List.length d)%nat.
Proof.
  eexists. split; [reflexivity|].
  apply (the_join_keeps_every_ticket
           (mkStore (Some [Sample.dated; SampleMerge.stranger])
                    (Some [SampleJoin.sla (F64.of_Z 120)]) false true)
           [Sample.dated; SampleMerge.stranger]); reflexivity.
Defined.

(** X15. When no two rows of the SLA table share company and severity, the
    join yields one row per ticket, in the order of the ticket table. *)
Theorem distinct_sla_keys_give_one_row_per_ticket :
  forall (t : list ticket) (s : list sla_row) (summary_column : bool)
         (resolution_column : bool) (d : list Join.joined),
    NoDup (map MergeFacts.sla_key s) ->
    Join.load_joined
      (mkStore (Some t) (Some s) summary_column resolution_column) = Ok d ->
    map Join.jticket d = t.
Proof.
  intros t s b1 b2 d N H.
  destruct (MergeFacts.load_joined_ok _ d H) as [t' [s' [Ht [Hs [_ ->]]]]].
  simpl in Ht, Hs. injection Ht as <-. injection Hs as <-. clear H.
  rewrite map_map.
  rewrite (map_ext _ (fun row => fst (fst row)) MergeFacts.metrics_ticket).
  induction t as [|tk t IH]; [reflexivity|].
  rewrite MergeFacts.merge_cons, map_app, IH.
  rewrite MergeFacts.matches_single; [reflexivity|].
  now apply MergeFacts.filter_unique_key.
Qed.

Lemma distinct_sla_keys_give_one_row_per_ticket_witness :
  map Join.jticket
      (map Join.metrics
           (Join.merge [Sample.dated; SampleMerge.stranger]
                       [SampleJoin.sla (F64.of_Z 120)]))
  = [Sample.dated; SampleMerge.stranger].
Proof.
  apply (distinct_sla_keys_give_one_row_per_ticket
           [Sample.dated; SampleMerge.stranger]
           [SampleJoin.sla (F64.of_Z 120)] false true).
  - constructor; [intros []|constructor].
  - reflexivity.
Defined.

(** X16. A ticket without SLA.  When the join succeeds and no row of the
    SLA table has the company and the severity of a stored ticket, the
    join still holds that ticket, with NaN in both SLA columns; the row is
    not within the resolution SLA and its resolution exceed percentage
    is 0. *)
Theorem a_ticket_without_sla_row_is_not_within_sla :
  forall (st : store) (t : list ticket) (s : list sla_row) (tk : ticket)
         (d : list Join.joined),
    tickets_parquet st = Some t ->
    sla_parquet st = Some s ->
    In tk t ->
    (forall r, In r s -> Join.on_key tk r = false) ->
    Join.load_joined st = Ok d ->
    exists j : Join.joined,
      In j d
      /\ Join.jticket j = tk
      /\ Join.sla_first_response j = F64.nan
      /\ Join.sla_resolution j = F64.nan
      /\ Join.resolution_within_sla j = false
      /\ Join.resolution_exceed_pct j = F64.zero.
Proof.
  intros st t s tk d Ht Hs Hin Hno Hd.
  destruct (MergeFacts.load_joined_ok st d Hd) as [t' [s' [Ht' [Hs' [_ ->]]]]].
  assert (t' = t) by congruence. assert (s' = s) by congruence. subst t' s'.
  exists (Join.metrics (tk, F64.nan, F64.nan)). split.
  - apply in_map, MergeFacts.merge_In. exists tk. split; auto.
    unfold MergeFacts.matches.
    rewrite (UpsertFacts.filter_none _ _ Hno). simpl. auto.
  - simpl.
    destruct (MergeFacts.resolution_missing (resolution_minutes tk) F64.nan)
      as [H1 H2]; [now right|].
    repeat split; assumption.
Qed.

Lemma a_ticket_without_sla_row_is_not_within_sla_witness :
  exists (d : list Join.joined) (j : Join.joined),
    Join.load_joined
      (mkStore (Some [Sample.dated; SampleMerge.stranger])
               (Some [SampleJoin.sla (F64.of_Z 120)]) false true) = Ok d
    /\ In j d
    /\ Join.jticket j = SampleMerge.stranger
    /\ Join.sla_first_response j = F64.nan
    /\ Join.sla_resolution j = F64.nan
    /\ Join.resolution_within_sla j = false
    /\ Join.resolution_exceed_pct j = F64.zero.
Proof.
  exists (map Join.metrics
              (Join.merge [Sample.dated; SampleMerge.stranger]
                          [SampleJoin.sla (F64.of_Z 120)])).
  destruct (a_ticket_without_sla_row_is_not_within_sla
              (mkStore (Some [Sample.dated; SampleMerge.stranger])
                       (Some [SampleJoin.sla (F64.of_Z 120)]) false true)
              [Sample.dated; SampleMerge.stranger]
              [SampleJoin.sla (F64.of_Z 120)] SampleMerge.stranger
              (map Join.metrics
                   (Join.merge [Sample.dated; SampleMerge.stranger]
                               [SampleJoin.sla (F64.of_Z 120)]))
              eq_refl eq_refl) as [j Hj].
  - simpl. right. left. reflexivity.
  - intros r [<-|[]]. reflexivity.
  - reflexivity.
  - exists j. split; [reflexivity|exact Hj].
Defined.

(** X17. A missing operand of the resolution check.  On every joined row
    whose [resolution_minutes] is NaN (a ticket without both dates) or
    whose SLA resolution is NaN, the resolution flag is false and the
    resolution exceed percentage is 0: the row is reported as a violation
    that exceeds nothing. *)
Theorem resolution_check_with_a_missing_operand :
  forall row : ticket * F64.float * F64.float,
    F64.is_nan (resolution_minutes (fst (fst row))) = true
    \/ F64.is_nan (snd row) = true ->
    Join.resolution_within_sla (Join.metrics row) = false
    /\ Join.resolution_exceed_pct (Join.metrics row) = F64.zero.
Proof.
  intros [[tk fr] res] H. simpl in *.
  now apply MergeFacts.resolution_missing.
Qed.

Lemma resolution_check_with_a_missing_operand_witness :
  Join.resolution_within_sla
    (Join.metrics (Sample.undated, F64.of_Z 30, F64.of_Z 120)) = false
  /\ Join.resolution_exceed_pct
       (Join.metrics (Sample.undated, F64.of_Z 30, F64.of_Z 120)) = F64.zero.
Proof.
  apply (resolution_check_with_a_missing_operand
           (Sample.undated, F64.of_Z 30, F64.of_Z 120)).
  left. reflexivity.
Defined.

(** ** Sort keys that do not tell every two values apart *)

Module OrderFacts.

(** A three-way comparison that orders classes of values: binary64 numbers
    compare equal as [+0] and [-0] do, rows compare by some of their
    columns. *)
Record weak_ok {K} (cmp : K -> K -> comparison) : Prop := {
  weak_opp : forall a b, cmp b a = CompOpp (cmp a b);
  weak_eq : forall a b c, cmp a b = Eq -> cmp b c = cmp a c;
  weak_lt : forall a b c, cmp a b = Lt -> cmp b c = Lt -> cmp a c = Lt
}.

Lemma weak_eq_r {K} (cmp : K -> K -> comparison) a b c :
  weak_ok cmp -> cmp b c = Eq -> cmp a b = cmp a c.
Proof.
  intros [Ho He _] H.
  assert (H' : cmp c b = Eq) by (rewrite Ho, H; reflexivity).
  pose proof (He c b a H') as E.
  rewrite (Ho a b), (Ho a c) in E.
  destruct (cmp a b), (cmp a c); simpl in E; congruence.
Qed.

(** A total order read through a function. *)
Lemma weak_pullback {A K} (cmp : K -> K -> comparison) (f : A -> K) :
  Key.cmp_ok cmp -> weak_ok (fun a b => cmp (f a) (f b)).
Proof.
  intros [He Ho Ht]. split.
  - intros a b. apply Ho.
  - intros a b c H. apply He in H. now rewrite H.
  - intros a b c. apply Ht.
Qed.

Lemma weak_lex {A} (c1 c2 : A -> A -> comparison) :
  weak_ok c1 -> weak_ok c2 -> weak_ok (fun a b => Key.lex (c1 a b) (c2 a b)).
Proof.
  intros H1 H2. split.
  - intros a b. rewrite (weak_opp _ H1 a b), (weak_opp _ H2 a b).
    destruct (c1 a b); reflexivity.
  - intros a b c H. unfold Key.lex in *.
    destruct (c1 a b) eqn:E1; try discriminate.
    now rewrite (weak_eq _ H1 _ _ c E1), (weak_eq _ H2 _ _ c H).
  - intros a b c. unfold Key.lex.
    destruct (c1 a b) eqn:E1; try discriminate; intros Ha.
    + rewrite <- (weak_eq _ H1 _ _ c E1).
      destruct (c1 b c); try discriminate; auto.
      apply (weak_lt _ H2); assumption.
    + destruct (c1 b c) eqn:E2; try discriminate; intros Hb.
      * now rewrite <- (weak_eq_r c1 a b c H1 E2), E1.
      * now rewrite (weak_lt _ H1 _ _ _ E1 E2).
Qed.

(** The same comparison, descending. *)
Lemma weak_desc {A} (cmp : A -> A -> comparison) :
  weak_ok cmp -> weak_ok (fun a b => CompOpp (cmp a b)).
Proof.
  intros H. split.
  - intros a b. now rewrite (weak_opp _ H a b).
  - intros a b c E.
    assert (E' : cmp a b = Eq) by (destruct (cmp a b); simpl in E; congruence).
    now rewrite (weak_eq _ H _ _ c E').
  - intros a b c E1 E2.
    assert (G1 : cmp b a = Lt).
    { rewrite (weak_opp _ H a b). exact E1. }
    assert (G2 : cmp c b = Lt).
    { rewrite (weak_opp _ H b c). exact E2. }
    rewrite (weak_opp _ H c a), (weak_lt _ H _ _ _ G2 G1). reflexivity.
Qed.

Section Le.
Context {K : Type} (cmp : K -> K -> comparison) (Hok : weak_ok cmp).

Lemma weak_total a b :
  Key.le_of (cmp a b) = true \/ Key.le_of (cmp b a) = true.
Proof.
  rewrite (weak_opp _ Hok a b). destruct (cmp a b); simpl; auto.
Qed.

Lemma weak_trans a b c :
  Key.le_of (cmp a b) = true -> Key.le_of (cmp b c) = true ->
  Key.le_of (cmp a c) = true.
Proof.
  destruct (cmp a b) eqn:E1; try discriminate; intros _.
  - now rewrite (weak_eq _ Hok _ _ c E1).
  - destruct (cmp b c) eqn:E2; try discriminate; intros _.
    + now rewrite <- (weak_eq_r cmp a b c Hok E2), E1.
    + now rewrite (weak_lt _ Hok _ _ _ E1 E2).
Qed.

End Le.

(** *** The order of binary64 sort keys *)

(** Three integers, the first deciding. *)
Definition tri (p q : Z * (Z * Z)) : comparison :=
  Key.lex (fst p ?= fst q)
     (Key.lex (fst (snd p) ?= fst (snd q)) (snd (snd p) ?= snd (snd q))).

Lemma tri_ok : Key.cmp_ok tri.
Proof.
  apply (Key.lex_ok Z.compare
           (fun p q : Z * Z => Key.lex (fst p ?= fst q) (snd p ?= snd q))).
  - apply Key.Z_cmp_ok.
  - apply (Key.lex_ok Z.compare Z.compare); apply Key.Z_cmp_ok.
Qed.

(** Where a number stands among the sort keys, ascending, NaN last. *)
Definition rank (x : F64.float) : Z * (Z * Z) :=
  match x with
  | S754_nan => (3, (0, 0))
  | S754_infinity true => (-2, (0, 0))
  | S754_infinity false => (2, (0, 0))
  | S754_zero _ => (0, (0, 0))
  | S754_finite true m e => (-1, (- e, Zneg m))
  | S754_finite false m e => (1, (e, Zpos m))
  end.

(** The same, descending, NaN still last. *)
Definition rank_desc (x : F64.float) : Z * (Z * Z) :=
  match x with
  | S754_nan => (3, (0, 0))
  | S754_infinity true => (2, (0, 0))
  | S754_infinity false => (-2, (0, 0))
  | S754_zero _ => (0, (0, 0))
  | S754_finite true m e => (1, (e, Zpos m))
  | S754_finite false m e => (-1, (- e, Zneg m))
  end.

Lemma compare_opp_opp a b : (- a ?= - b) = CompOpp (a ?= b).
Proof. rewrite Z.compare_opp. apply Z.compare_antisym. Qed.

Lemma float_compare_rank a b :
  Reports.float_compare a b = tri (rank a) (rank b).
Proof.
  destruct a as [[|]|[|]| |[|] ma ea], b as [[|]|[|]| |[|] mb eb];
    try reflexivity;
    unfold Reports.float_compare, tri, rank, Key.lex; simpl;
    rewrite ?compare_opp_opp;
    destruct (ea ?= eb); reflexivity.
Qed.

Lemma float_compare_desc_rank a b :
  Reports.float_compare_desc a b = tri (rank_desc a) (rank_desc b).
Proof.
  destruct a as [[|]|[|]| |[|] ma ea], b as [[|]|[|]| |[|] mb eb];
    try reflexivity;
    unfold Reports.float_compare_desc, tri, rank_desc, Key.lex; simpl;
    rewrite ?compare_opp_opp;
    destruct (ea ?= eb); simpl; rewrite ?CompOpp_involutive; reflexivity.
Qed.

Lemma float_compare_ok {A} (f : A -> F64.float) :
  weak_ok (fun a b => Reports.float_compare (f a) (f b)).
Proof.
  destruct (weak_pullback tri (fun a => rank (f a)) tri_ok) as [Ho He Ht].
  split; intros; rewrite !float_compare_rank in *; eauto.
Qed.

Lemma float_compare_desc_ok {A} (f : A -> F64.float) :
  weak_ok (fun a b => Reports.float_compare_desc (f a) (f b)).
Proof.
  destruct (weak_pullback tri (fun a => rank_desc (f a)) tri_ok)
    as [Ho He Ht].
  split; intros; rewrite !float_compare_desc_rank in *; eauto.
Qed.

(** Of two numbers in descending order the first is no smaller. *)
Lemma desc_leb a b :
  Key.le_of (Reports.float_compare_desc a b) = true ->
  F64.is_nan a = false -> F64.is_nan b = false ->
  F64.leb b a = true.
Proof.
  intros H Ha Hb.
  assert (E : SFcompare b a = Some (Reports.float_compare_desc a b)).
  { pose proof (float_compare_rank b a) as R1.
    pose proof (float_compare_desc_rank a b) as R2.
    assert (T : tri (rank_desc a) (rank_desc b) = tri (rank b) (rank a)).
    { destruct a as [[|]|[|]| |[|] ma ea], b as [[|]|[|]| |[|] mb eb];
        try discriminate; try reflexivity;
        unfold tri, rank, rank_desc, Key.lex; simpl;
        rewrite ?compare_opp_opp, ?(Z.compare_antisym ea eb),
          ?(Pos.compare_antisym ma mb);
        destruct (ea ?= eb); simpl; rewrite ?CompOpp_involutive;
        reflexivity. }
    rewrite R2, T, <- R1. unfold Reports.float_compare.
    destruct (SFcompare b a) eqn:E; [reflexivity|].
    destruct a, b; discriminate. }
  unfold F64.leb, SFleb. rewrite E.
  destruct (Reports.float_compare_desc a b); auto; discriminate.
Qed.

(** Of two numbers in ascending order the first is no greater. *)
Lemma asc_leb a b :
  Key.le_of (Reports.float_compare a b) = true ->
  F64.is_nan a = false -> F64.is_nan b = false ->
  F64.leb a b = true.
Proof.
  intros H Ha Hb. unfold F64.leb, SFleb. unfold Reports.float_compare in H.
  destruct (SFcompare a b) as [[| |]|] eqn:E; auto; try discriminate.
  destruct a, b; discriminate.
Qed.

(** *** Sorted lists *)

Lemma insert_perm {A} (leb : A -> A -> bool) x l :
  Permutation (StableSort.insert A leb x l) (x :: l).
Proof.
  induction l as [|y l IH]; simpl; [apply Permutation_refl|].
  destruct (leb x y); [apply Permutation_refl|].
  eapply Permutation_trans; [apply perm_skip, IH|apply perm_swap].
Qed.

Lemma sort_perm {A} (leb : A -> A -> bool) l :
  Permutation (StableSort.sort A leb l) l.
Proof.
  induction l as [|x l IH]; simpl; [apply Permutation_refl|].
  eapply Permutation_trans; [apply insert_perm|now apply perm_skip].
Qed.

Lemma sorted_ext {A} (p q : A -> A -> bool) l :
  (forall a b, p a b = q a b) ->
  StableSort.sorted A p l -> StableSort.sorted A q l.
Proof.
  intros E. induction 1 as [|x l Hall Hs IH]; constructor; auto.
  intros y Hy. rewrite <- E. now apply Hall.
Qed.

(** The values picked from a sorted list, at most one per row, are
    sorted. *)
Lemma sorted_flat_map {A B} (p : A -> A -> bool) (q : B -> B -> bool)
      (g : A -> list B) l :
  (forall x, (List.length (g x) <= 1)%nat) ->
  (forall x y u v, p x y = true -> In u (g x) -> In v (g y) -> q u v = true) ->
  StableSort.sorted A p l -> StableSort.sorted B q (flat_map g l).
Proof.
  intros Hg Hpq. induction 1 as [|x l Hall Hs IH]; simpl; [constructor|].
  pose proof (Hg x) as Hx.
  destruct (g x) as [|u [|u' r]] eqn:E; simpl in *; auto; [|lia].
  constructor; auto. intros v Hv. apply in_flat_map in Hv.
  destruct Hv as [y [Hy Hv]].
  apply (Hpq x y); auto. rewrite E. simpl. auto.
Qed.

Lemma flat_map_map {A B C} (f : B -> list C) (g : A -> B) l :
  flat_map f (map g l) = flat_map (fun a => f (g a)) l.
Proof.
  induction l as [|a l IH]; [reflexivity|]. simpl. now rewrite IH.
Qed.

End OrderFacts.

(** ** The reports, step by step *)

Module ReportFacts.
Import F64 Reports.

(** [record[k]] on a record of the response. *)
Fixpoint field (k : pystr) (r : record jval) : option jval :=
  match r with
  | [] => None
  | (k', v) :: r' => if pystr_eqb k k' then Some v else field k r'
  end.

(** The numbers found under [k] in the records, in order; a [null] is
    skipped. *)
Definition numbers (k : pystr) (rs : list (record jval)) : list float :=
  flat_map (fun r => match field k r with
                     | Some (JFloat f) => [f]
                     | _ => []
                     end) rs.

(** [_json_records] on one record. *)
Definition safe (r : record val) : record jval :=
  map (fun kv => (fst kv, json_safe (snd kv))) r.

(** *** [violations] *)

(** The row filter of [violations]. *)
Definition violating (j : Join.joined) : bool :=
  negb (Join.first_response_within_sla j)
  || negb (Join.resolution_within_sla j).

(** The selected columns, the two percentages cleaned and rounded. *)
Definition cleaned (j : Join.joined) : vrow :=
  (Join.jticket j,
   Join.first_response_within_sla j,
   round2 (replace_inf (Join.first_response_exceed_pct j)),
   Join.resolution_within_sla j,
   round2 (replace_inf (Join.resolution_exceed_pct j))).

Definition violation_record (r : vrow) : record val :=
  let '(t, fw, fp, rw, rp) := r in
  [ (py "issue_key", VText (issue_key t));
    (py "created", VTime (created t));
    (py "assignee", VText (assignee t));
    (py "product", VText (product t));
    (py "reopen_count", VInt (reopen_count t));
    (py "first_response_within_sla", VBool fw);
    (py "first_response_exceed_pct", VFloat fp);
    (py "resolution_within_sla", VBool rw);
    (py "resolution_exceed_pct", VFloat rp) ].

Lemma violations_eq st :
  violations st
  = bind (Join.load_joined st) (fun d =>
      Ok (map safe
            (map violation_record
               (StableSort.sort vrow violation_leb
                  (map cleaned (filter violating d)))))).
Proof. reflexivity. Qed.

(** The three sort keys of a row of [violations]. *)
Definition violation_compare (a b : vrow) : comparison :=
  Key.lex (float_compare_desc (snd a) (snd b))
    (Key.lex (float_compare_desc (snd (fst (fst a))) (snd (fst (fst b))))
       (timestamp_compare
          (created (fst (fst (fst (fst a)))))
          (created (fst (fst (fst (fst b))))))).

Lemma violation_leb_compare a b :
  violation_leb a b = Key.le_of (violation_compare a b).
Proof.
  destruct a as [[[[ta wa] fa] va] ra], b as [[[[tb wb] fb] vb] rb].
  reflexivity.
Qed.

Lemma violation_compare_ok : OrderFacts.weak_ok violation_compare.
Proof.
  unfold violation_compare.
  apply (OrderFacts.weak_lex
           (fun a b : vrow => float_compare_desc (snd a) (snd b))).
  - apply (OrderFacts.float_compare_desc_ok (fun a : vrow => snd a)).
  - apply (OrderFacts.weak_lex
             (fun a b : vrow =>
                float_compare_desc (snd (fst (fst a))) (snd (fst (fst b))))).
    + apply (OrderFacts.float_compare_desc_ok
               (fun a : vrow => snd (fst (fst a)))).
    + apply (OrderFacts.weak_pullback timestamp_compare
               (fun a : vrow => created (fst (fst (fst (fst a)))))).
      apply Key.na_last_ok, Key.Z_cmp_ok.
Qed.

Lemma violation_rows_sorted l :
  StableSort.sorted vrow violation_leb (StableSort.sort vrow violation_leb l).
Proof.
  apply StableSort.sort_sorted.
  - intros x y. rewrite !violation_leb_compare.
    apply (OrderFacts.weak_total _ violation_compare_ok).
  - intros x y z. rewrite !violation_leb_compare.
    apply (OrderFacts.weak_trans _ violation_compare_ok).
Qed.

Lemma violation_field_key (r : vrow) :
  field (py "issue_key") (safe (violation_record r))
  = Some (json_safe (VText (issue_key (fst (fst (fst (fst r))))))).
Proof. destruct r as [[[[t fw] fp] rw] rp]. reflexivity. Qed.

Lemma violation_field_fw (r : vrow) :
  field (py "first_response_within_sla") (safe (violation_record r))
  = Some (JBool (snd (fst (fst (fst r))))).
Proof. destruct r as [[[[t fw] fp] rw] rp]. reflexivity. Qed.

Lemma violation_field_rw (r : vrow) :
  field (py "resolution_within_sla") (safe (violation_record r))
  = Some (JBool (snd (fst r))).
Proof. destruct r as [[[[t fw] fp] rw] rp]. reflexivity. Qed.

Lemma violation_field_rp (r : vrow) :
  field (py "resolution_exceed_pct") (safe (violation_record r))
  = Some (json_safe (VFloat (snd r))).
Proof. destruct r as [[[[t fw] fp] rw] rp]. reflexivity. Qed.

(** What [_json_records] makes of a number that the encoder accepts: the
    number itself, which is no NaN. *)
Lemma finite_replace x :
  is_finite (if is_inf x then nan else x) = true ->
  (if is_inf x then nan else x) = x /\ is_nan x = false.
Proof. destruct x as [s|s| |s m e]; simpl; try discriminate; auto. Qed.

Lemma finite_field k r f :
  finite_numbers r -> field k r = Some (JFloat f) -> is_finite f = true.
Proof.
  unfold finite_numbers. induction r as [|[k' v] r IH]; [discriminate|].
  intros H E. inversion H as [|? ? Hv Hr]; subst. simpl in E.
  destruct (pystr_eqb k k').
  - injection E as ->. exact Hv.
  - now apply IH.
Qed.

Lemma sorted_map_in {A B} (p : A -> A -> bool) (q : B -> B -> bool)
      (f : A -> B) l :
  (forall x y, In x l -> In y l -> p x y = true -> q (f x) (f y) = true) ->
  StableSort.sorted A p l -> StableSort.sorted B q (map f l).
Proof.
  intros Hpq Hs. induction Hs as [|x l Hall Hs IH]; simpl; constructor.
  - intros y Hy. apply in_map_iff in Hy. destruct Hy as [a [<- Ha]].
    apply Hpq; simpl; auto.
  - apply IH. intros a b Ha Hb. apply Hpq; simpl; auto.
Qed.

Lemma numbers_violations rows :
  numbers (py "resolution_exceed_pct") (map safe (map violation_record rows))
  = map (fun x : vrow => if is_inf (snd x) then nan else snd x) rows.
Proof.
  unfold numbers. rewrite map_map, OrderFacts.flat_map_map.
  induction rows as [|x rows IH]; [reflexivity|].
  cbn [flat_map map]. rewrite IH, violation_field_rp. reflexivity.
Qed.

(** *** [reopens] *)

(** The row filter of [reopens]. *)
Definition reopened (j : Join.joined) : bool :=
  1 <? reopen_count (Join.jticket j).

Definition reopen_compare (a b : Join.joined) : comparison :=
  Key.lex
    (CompOpp (reopen_count (Join.jticket a) ?= reopen_count (Join.jticket b)))
    (Key.lex
       (float_compare_desc (Join.resolution_exceed_pct a)
                           (Join.resolution_exceed_pct b))
       (float_compare_desc (Join.first_response_exceed_pct a)
                           (Join.first_response_exceed_pct b))).

Definition reopen_record (j : Join.joined) : record val :=
  let t := Join.jticket j in
  [ (py "reopen_count", VInt (reopen_count t));
    (py "summary", VText (summary t));
    (py "issue_key", VText (issue_key t));
    (py "created", VTime (created t));
    (py "assignee", VText (assignee t));
    (py "product", VText (product t));
    (py "first_response_exceed_pct",
     VFloat (round2 (Join.first_response_exceed_pct j)));
    (py "resolution_exceed_pct",
     VFloat (round2 (Join.resolution_exceed_pct j))) ].

Lemma reopens_eq st :
  reopens st
  = bind (Join.load_joined st) (fun d =>
      if negb (summary_stored st)
      then Err (KeyError (py "summary"))
      else Ok (map safe
                 (map reopen_record
                    (StableSort.sort Join.joined
                       (fun a b => Key.le_of (reopen_compare a b))
                       (filter reopened d))))).
Proof. reflexivity. Qed.

Lemma reopen_compare_ok : OrderFacts.weak_ok reopen_compare.
Proof.
  unfold reopen_compare.
  apply (OrderFacts.weak_lex
           (fun a b : Join.joined =>
              CompOpp (reopen_count (Join.jticket a)
                       ?= reopen_count (Join.jticket b)))).
  - apply (OrderFacts.weak_desc
             (fun a b : Join.joined =>
                reopen_count (Join.jticket a) ?= reopen_count (Join.jticket b))).
    apply (OrderFacts.weak_pullback Z.compare
             (fun a : Join.joined => reopen_count (Join.jticket a))).
    apply Key.Z_cmp_ok.
  - apply (OrderFacts.weak_lex
             (fun a b : Join.joined =>
                float_compare_desc (Join.resolution_exceed_pct a)
                                   (Join.resolution_exceed_pct b))).
    + apply (OrderFacts.float_compare_desc_ok Join.resolution_exceed_pct).
    + apply (OrderFacts.float_compare_desc_ok Join.first_response_exceed_pct).
Qed.

Lemma reopen_rows_sorted l :
  StableSort.sorted Join.joined (fun a b => Key.le_of (reopen_compare a b))
    (StableSort.sort Join.joined
       (fun a b => Key.le_of (reopen_compare a b)) l).
Proof.
  apply StableSort.sort_sorted.
  - apply (OrderFacts.weak_total _ reopen_compare_ok).
  - apply (OrderFacts.weak_trans _ reopen_compare_ok).
Qed.

(** Rows sorted by a comparison are sorted by its first key. *)
Lemma le_lex_first c1 c2 :
  Key.le_of (Key.lex c1 c2) = true -> Key.le_of c1 = true.
Proof. destruct c1; simpl; auto. Qed.

Lemma sorted_map {A B} (p : A -> A -> bool) (q : B -> B -> bool)
      (f : A -> B) l :
  (forall x y, p x y = true -> q (f x) (f y) = true) ->
  StableSort.sorted A p l -> StableSort.sorted B q (map f l).
Proof.
  intros Hpq. induction 1 as [|x l Hall Hs IH]; simpl; constructor; auto.
  intros y Hy. apply in_map_iff in Hy. destruct Hy as [a [<- Ha]]. auto.
Qed.

(** *** The averages *)

Lemma group_sum_skips vals : forall sumx comp nobs,
  group_sum vals sumx comp nobs
  = group_sum (filter (fun v => negb (is_nan v)) vals) sumx comp nobs.
Proof.
  induction vals as [|v vals IH]; intros sumx comp nobs; [reflexivity|].
  simpl. destruct (is_nan v) eqn:E; simpl; [apply IH|].
  rewrite E. apply IH.
Qed.

Lemma group_sum_missing vals : forall sumx comp nobs,
  group_sum (filter is_nan vals) sumx comp nobs = (sumx, nobs).
Proof.
  induction vals as [|v vals IH]; intros sumx comp nobs; [reflexivity|].
  simpl. destruct (is_nan v) eqn:E; [|apply IH].
  simpl. rewrite E. apply IH.
Qed.

(** The rows of an average report before they are written as records:
    one per group, the mean rounded, sorted by mean and name. *)
Definition average_rows (key : Join.joined -> option pystr)
           (d : list Join.joined) : list (pystr * float) :=
  StableSort.sort _
    (fun a b =>
       Key.le_of (Key.lex (float_compare (snd a) (snd b))
                          (Key.pystr_compare (fst a) (fst b))))
    (map (fun p => (fst p, round2 (snd p)))
       (map (fun k =>
               (k, group_mean
                     (map (fun j => resolution_minutes (Join.jticket j))
                          (filter (fun j => Join.opt_eqb (key j) (Some k))
                                  d))))
            (group_keys (map key d)))).

Definition average_record (name : pystr) (p : pystr * float) : record jval :=
  [ (name, JStr (fst p)); (py "resolution_minutes", JFloat (snd p)) ].

Lemma average_by_eq name key d :
  map (map (fun kv => (fst kv, to_dict (snd kv)))) (average_by name key d)
  = map (average_record name) (average_rows key d).
Proof.
  unfold average_by, average_rows. rewrite map_map. reflexivity.
Qed.

Lemma group_keys_In keys a : In a (group_keys keys) <-> In (Some a) keys.
Proof.
  unfold group_keys, Upload.sorted_names.
  rewrite StableSort.sort_In, nodup_In, in_flat_map. split.
  - intros [[k|] [Hk Ha]]; simpl in Ha; [|contradiction].
    destruct Ha as [->|[]]. exact Hk.
  - intros H. exists (Some a). simpl. auto.
Qed.

Lemma group_keys_nodup keys : NoDup (group_keys keys).
Proof.
  unfold group_keys, Upload.sorted_names.
  apply StableSort.sort_nodup, NoDup_nodup.
Qed.

Lemma average_rows_names key d :
  Permutation (map fst (average_rows key d)) (group_keys (map key d)).
Proof.
  unfold average_rows.
  eapply Permutation_trans;
    [apply Permutation_map, OrderFacts.sort_perm|].
  rewrite !map_map. simpl. rewrite map_id. apply Permutation_refl.
Qed.

Lemma average_compare_ok :
  OrderFacts.weak_ok
    (fun a b : pystr * float =>
       Key.lex (float_compare (snd a) (snd b))
               (Key.pystr_compare (fst a) (fst b))).
Proof.
  apply (OrderFacts.weak_lex
           (fun a b : pystr * float => float_compare (snd a) (snd b))).
  - apply (OrderFacts.float_compare_ok (fun a : pystr * float => snd a)).
  - apply (OrderFacts.weak_pullback Key.pystr_compare
             (fun a : pystr * float => fst a)).
    apply Key.pystr_cmp_ok.
Qed.

Lemma average_rows_sorted key d :
  StableSort.sorted float
    (fun x y => Key.le_of (float_compare x y))
    (map snd (average_rows key d)).
Proof.
  apply (sorted_map
           (fun a b : pystr * float =>
              Key.le_of (Key.lex (float_compare (snd a) (snd b))
                                 (Key.pystr_compare (fst a) (fst b))))).
  - intros x y. apply le_lex_first.
  - unfold average_rows. apply StableSort.sort_sorted.
    + apply (OrderFacts.weak_total _ average_compare_ok).
    + apply (OrderFacts.weak_trans _ average_compare_ok).
Qed.

(** What an average report says of the joined rows [d], for the column
    [name] it groups by: the records name each value of the column once,
    in the order of the records; the values named are those that some row
    carries (a row without value belongs to no group); every record holds
    a mean, NaN included; and the means come in ascending order, NaN
    last. *)
Definition average_says (name : pystr) (key : Join.joined -> option pystr)
           (d : list Join.joined) (rs : list (record jval)) : Prop :=
  exists names : list pystr,
    map (field name) rs = map (fun a => Some (JStr a)) names
    /\ NoDup names
    /\ (forall a, In a names <-> exists j, In j d /\ key j = Some a)
    /\ List.length (numbers (py "resolution_minutes") rs) = List.length rs
    /\ StableSort.sorted float (fun x y => Key.le_of (float_compare x y))
         (numbers (py "resolution_minutes") rs).

Lemma average_report name key d :
  name <> py "resolution_minutes" ->
  average_says name key d
    (map (map (fun kv => (fst kv, to_dict (snd kv))))
         (average_by name key d)).
Proof.
  intros Hname. rewrite average_by_eq.
  set (rs := map (average_record name) (average_rows key d)).
  exists (map fst (average_rows key d)).
  assert (Hn : pystr_eqb name name = true)
    by now apply UpsertProps.pystr_eqb_eq.
  assert (Hr : pystr_eqb (py "resolution_minutes") name = false).
  { destruct (pystr_eqb (py "resolution_minutes") name) eqn:E; auto.
    apply UpsertProps.pystr_eqb_eq in E. congruence. }
  assert (Hnum : numbers (py "resolution_minutes") rs
                 = map snd (average_rows key d)).
  { unfold rs, numbers. rewrite OrderFacts.flat_map_map.
    rewrite (flat_map_ext _ (fun p : pystr * float => [snd p])).
    - induction (average_rows key d) as [|p l IH]; [reflexivity|].
      simpl. now rewrite IH.
    - intros p. simpl. now rewrite Hr. }
  split; [|split; [|split; [|split]]].
  - unfold rs. rewrite !map_map. apply map_ext. intros p. simpl.
    now rewrite Hn.
  - eapply Permutation_NoDup;
      [apply Permutation_sym, average_rows_names|apply group_keys_nodup].
  - intros a. split.
    + intros H.
      apply (Permutation_in _ (average_rows_names key d)) in H.
      apply group_keys_In, in_map_iff in H. destruct H as [j [E Hj]]. eauto.
    + intros [j [Hj E]].
      apply (Permutation_in _ (Permutation_sym (average_rows_names key d))).
      apply group_keys_In. rewrite <- E. now apply in_map.
  - rewrite Hnum. unfold rs. now rewrite !length_map.
  - rewrite Hnum. apply average_rows_sorted.
Qed.

Lemma reopen_field_key (j : Join.joined) :
  field (py "issue_key") (safe (reopen_record j))
  = Some (json_safe (VText (issue_key (Join.jticket j)))).
Proof. reflexivity. Qed.

Lemma reopen_field_count (j : Join.joined) :
  field (py "reopen_count") (safe (reopen_record j))
  = Some (JInt (reopen_count (Join.jticket j))).
Proof. reflexivity. Qed.

End ReportFacts.

Module SampleRequests.

(** Two tickets of Acme reopened twice and five times, with the ticket
    ["SUP-1"] and the ticket of an unlisted company, in a ticket table
    that has the [summary] column; the SLA table of [SampleJoin]. *)
Definition four_tickets : store :=
  mkStore
    (Some [ Sample.closed_ticket "SUP-2" (Some Sample.T_11_00)
              (Some Sample.T_11_00) (Some Sample.T_10_00)
              (Some Sample.T_12_00) 2;
            Sample.closed_ticket "SUP-3" (Some Sample.T_11_00)
              (Some Sample.T_11_00) (Some Sample.T_10_00)
              (Some Sample.T_13_00) 5;
            Sample.dated; SampleMerge.stranger ])
    (Some [SampleJoin.sla (F64.of_Z 120)]) true true.

End SampleRequests.


(** A NaN percentage passes [_json_records] and makes the response
    fail. *)
Example nan_passes_json_records :
  Reports.json_records
    [ [ (py "resolution_exceed_pct", Reports.VFloat F64.nan) ];
      [ (py "resolution_exceed_pct", Reports.VFloat F64.pinf) ] ]
  = [ [ (py "resolution_exceed_pct", Reports.JFloat F64.nan) ];
      [ (py "resolution_exceed_pct", Reports.JFloat F64.nan) ] ]
  /\ Endpoint.json_response
       [ [ (py "resolution_exceed_pct", Reports.JFloat F64.nan) ] ]
     = Err JsonValueError.
Proof. split; reflexivity. Qed.

(** X19. The violations report lists each violating row once.  When the
    request answers, the join has succeeded and the records are, up to
    order, the joined rows that miss the first-response SLA or the
    resolution SLA, told by their issue keys; each record carries [false]
    in at least one of its two flags; and every number in it is finite. *)
Theorem violations_lists_each_violating_row_once :
  forall (st : store) (rs : list (Reports.record Reports.jval)),
    Endpoint.violations st = Ok rs ->
    exists d : list Join.joined,
      Join.load_joined st = Ok d
      /\ Permutation
           (map (ReportFacts.field (py "issue_key")) rs)
           (map (fun j : Join.joined =>
                   Some (Reports.json_safe
                           (Reports.VText (issue_key (Join.jticket j)))))
                (filter ReportFacts.violating d))
      /\ Forall
           (fun r =>
              ReportFacts.field (py "first_response_within_sla") r
              = Some (Reports.JBool false)
              \/ ReportFacts.field (py "resolution_within_sla") r
                 = Some (Reports.JBool false))
           rs
      /\ Forall Reports.finite_numbers rs.
Proof.
  intros st rs H. unfold Endpoint.violations in H.
  rewrite ReportFacts.violations_eq in H.
  destruct (Join.load_joined st) as [d|e]; [|discriminate].
  unfold Reports.bind in H. apply Endpoint.json_response_ok in H.
  destruct H as [-> Hfin]. exists d. split; [reflexivity|].
  split; [|split; [|exact Hfin]].
  - rewrite !map_map.
    rewrite (map_ext _ _ ReportFacts.violation_field_key).
    eapply Permutation_trans;
      [apply Permutation_map, OrderFacts.sort_perm|].
    rewrite map_map. apply Permutation_refl.
  - apply Forall_forall. intros r Hr. rewrite map_map in Hr.
    apply in_map_iff in Hr. destruct Hr as [row [<- Hrow]].
    apply StableSort.sort_In, in_map_iff in Hrow.
    destruct Hrow as [j [<- Hj]]. apply filter_In in Hj.
    destruct Hj as [_ Hv].
    rewrite ReportFacts.violation_field_fw, ReportFacts.violation_field_rw.
    simpl. unfold ReportFacts.violating in Hv.
    destruct (Join.first_response_within_sla j); [|now left].
    destruct (Join.resolution_within_sla j); [discriminate|now right].
Qed.

(** X19 on the sample table: three of the four tickets are reported. *)
Lemma violations_lists_each_violating_row_once_witness :
  exists rs : list (Reports.record Reports.jval),
    Endpoint.violations SampleRequests.four_tickets = Ok rs
    /\ map (ReportFacts.field (py "issue_key")) rs
       = [ Some (Reports.JStr (py "SUP-3"));
           Some (Reports.JStr (py "SUP-1"));
           Some (Reports.JStr (py "SUP-4")) ]
    /\ exists d : list Join.joined,
         Join.load_joined SampleRequests.four_tickets = Ok d
         /\ Permutation
              (map (ReportFacts.field (py "issue_key")) rs)
              (map (fun j : Join.joined =>
                      Some (Reports.json_safe
                              (Reports.VText (issue_key (Join.jticket j)))))
                   (filter ReportFacts.violating d))
         /\ Forall
              (fun r =>
                 ReportFacts.field (py "first_response_within_sla") r
                 = Some (Reports.JBool false)
                 \/ ReportFacts.field (py "resolution_within_sla") r
                    = Some (Reports.JBool false))
              rs
         /\ Forall Reports.finite_numbers rs.
Proof.
  eexists. split; [vm_compute; reflexivity|].
  split; [vm_compute; reflexivity|].
  apply (violations_lists_each_violating_row_once
           SampleRequests.four_tickets).
  vm_compute. reflexivity.
Defined.

(** X20. The violations report is ordered by how far the resolution SLA
    was exceeded: when the request answers, every record holds a number
    under [resolution_exceed_pct], and these numbers, in the order of the
    records, never increase. *)
Theorem violations_come_in_descending_resolution_percentage :
  forall (st : store) (rs : list (Reports.record Reports.jval)),
    Endpoint.violations st = Ok rs ->
    List.length (ReportFacts.numbers (py "resolution_exceed_pct") rs)
    = List.length rs
    /\ StableSort.sorted F64.float (fun a b => F64.leb b a)
         (ReportFacts.numbers (py "resolution_exceed_pct") rs).
Proof.
  intros st rs H. unfold Endpoint.violations in H.
  rewrite ReportFacts.violations_eq in H.
  destruct (Join.load_joined st) as [d|e]; [|discriminate].
  unfold Reports.bind in H. apply Endpoint.json_response_ok in H.
  destruct H as [-> Hfin]. rewrite ReportFacts.numbers_violations.
  split; [now rewrite !length_map|].
  assert (Hrow : forall x,
             In x (StableSort.sort Reports.vrow Reports.violation_leb
                     (map ReportFacts.cleaned
                          (filter ReportFacts.violating d))) ->
             (if F64.is_inf (snd x) then F64.nan else snd x) = snd x
             /\ F64.is_nan (snd x) = false).
  { intros x Hx. apply ReportFacts.finite_replace.
    apply (ReportFacts.finite_field (py "resolution_exceed_pct")
             (ReportFacts.safe (ReportFacts.violation_record x))).
    - rewrite Forall_forall in Hfin. apply Hfin.
      apply in_map, in_map. exact Hx.
    - now rewrite ReportFacts.violation_field_rp. }
  apply (ReportFacts.sorted_map_in Reports.violation_leb);
    [|apply ReportFacts.violation_rows_sorted].
  intros x y Hx Hy Hp.
  destruct (Hrow x Hx) as [-> Nx]. destruct (Hrow y Hy) as [-> Ny].
  apply OrderFacts.desc_leb; auto.
  rewrite ReportFacts.violation_leb_compare in Hp.
  now apply ReportFacts.le_lex_first in Hp.
Qed.

(** X20 on the sample table: 50, 50 and 0 per cent. *)
Lemma violations_come_in_descending_resolution_percentage_witness :
  exists rs : list (Reports.record Reports.jval),
    Endpoint.violations SampleRequests.four_tickets = Ok rs
    /\ ReportFacts.numbers (py "resolution_exceed_pct") rs
       = [ F64.of_Z 50; F64.of_Z 50; F64.zero ]
    /\ List.length (ReportFacts.numbers (py "resolution_exceed_pct") rs)
       = List.length rs
    /\ StableSort.sorted F64.float (fun a b => F64.leb b a)
         (ReportFacts.numbers (py "resolution_exceed_pct") rs).
Proof.
  eexists. split; [vm_compute; reflexivity|].
  split; [vm_compute; reflexivity|].
  apply (violations_come_in_descending_resolution_percentage
           SampleRequests.four_tickets).
  vm_compute. reflexivity.
Defined.

(** X21. The reopens report lists the tickets reopened more than once.
    When the request answers, the join has succeeded, the ticket table has
    a [summary] column, and the records stand, in order, for the joined
    rows whose [reopen_count] is greater than 1, each once; every count in
    it is at least 2; the counts never increase along the report; and
    every number in it is finite. *)
Theorem reopens_lists_tickets_reopened_more_than_once :
  forall (st : store) (rs : list (Reports.record Reports.jval)),
    Endpoint.reopens st = Ok rs ->
    summary_stored st = true
    /\ exists (d rows : list Join.joined),
         Join.load_joined st = Ok d
         /\ Permutation rows (filter ReportFacts.reopened d)
         /\ map (ReportFacts.field (py "issue_key")) rs
            = map (fun j : Join.joined =>
                     Some (Reports.json_safe
                             (Reports.VText (issue_key (Join.jticket j)))))
                  rows
         /\ map (ReportFacts.field (py "reopen_count")) rs
            = map (fun j : Join.joined =>
                     Some (Reports.JInt (reopen_count (Join.jticket j))))
                  rows
         /\ Forall (fun j : Join.joined =>
                      2 <= reopen_count (Join.jticket j)) rows
         /\ StableSort.sorted Z (fun a b => b <=? a)
              (map (fun j : Join.joined => reopen_count (Join.jticket j))
                   rows)
         /\ Forall Reports.finite_numbers rs.
Proof.
  intros st rs H. unfold Endpoint.reopens in H.
  rewrite ReportFacts.reopens_eq in H.
  destruct (Join.load_joined st) as [d|e]; [|discriminate].
  unfold Reports.bind in H.
  destruct (summary_stored st); [|discriminate]. cbv [negb] in H.
  apply Endpoint.json_response_ok in H. destruct H as [-> Hfin].
  split; [reflexivity|]. exists d. eexists. split; [reflexivity|].
  split; [apply OrderFacts.sort_perm|].
  split; [rewrite !map_map; reflexivity|].
  split; [rewrite !map_map; reflexivity|].
  split; [|split; [|exact Hfin]].
  - apply Forall_forall. intros j Hj.
    apply StableSort.sort_In, filter_In in Hj. destruct Hj as [_ Hj].
    unfold ReportFacts.reopened in Hj. apply Z.ltb_lt in Hj. lia.
  - apply (ReportFacts.sorted_map
             (fun a b => Key.le_of (ReportFacts.reopen_compare a b)));
      [|apply ReportFacts.reopen_rows_sorted].
    intros x y H. apply ReportFacts.le_lex_first in H.
    apply Z.leb_le.
    destruct (Z.compare_spec (reopen_count (Join.jticket x))
                             (reopen_count (Join.jticket y))) as [E|E|E];
      simpl in H; try discriminate; lia.
Qed.

(** X21 on the sample table: the ticket reopened five times comes before
    the one reopened twice. *)
Lemma reopens_lists_tickets_reopened_more_than_once_witness :
  exists rs : list (Reports.record Reports.jval),
    Endpoint.reopens SampleRequests.four_tickets = Ok rs
    /\ map (ReportFacts.field (py "reopen_count")) rs
       = [ Some (Reports.JInt 5); Some (Reports.JInt 2) ]
    /\ summary_stored SampleRequests.four_tickets = true
    /\ exists (d rows : list Join.joined),
         Join.load_joined SampleRequests.four_tickets = Ok d
         /\ Permutation rows (filter ReportFacts.reopened d)
         /\ map (ReportFacts.field (py "issue_key")) rs
            = map (fun j : Join.joined =>
                     Some (Reports.json_safe
                             (Reports.VText (issue_key (Join.jticket j)))))
                  rows
         /\ map (ReportFacts.field (py "reopen_count")) rs
            = map (fun j : Join.joined =>
                     Some (Reports.JInt (reopen_count (Join.jticket j))))
                  rows
         /\ Forall (fun j : Join.joined =>
                      2 <= reopen_count (Join.jticket j)) rows
         /\ StableSort.sorted Z (fun a b => b <=? a)
              (map (fun j : Join.joined => reopen_count (Join.jticket j))
                   rows)
         /\ Forall Reports.finite_numbers rs.
Proof.
  eexists. split; [vm_compute; reflexivity|].
  split; [vm_compute; reflexivity|].
  apply (reopens_lists_tickets_reopened_more_than_once
           SampleRequests.four_tickets).
  vm_compute. reflexivity.
Defined.

(** X22. The mean of a group skips missing values: the NaN entries of the
    column play no part in it, and a group that holds nothing else has a
    NaN mean. *)
Theorem the_group_mean_skips_missing_values :
  forall vals : list F64.float,
    Reports.group_mean vals
    = Reports.group_mean (filter (fun v => negb (F64.is_nan v)) vals)
    /\ Reports.group_mean (filter F64.is_nan vals) = F64.nan.
Proof.
  intros vals. unfold Reports.group_mean. split.
  - now rewrite ReportFacts.group_sum_skips.
  - now rewrite ReportFacts.group_sum_missing.
Qed.



(** ** The SLA upload

    [upload_sla] up to the table it stores.  The three library calls it
    relies on are taken as they come: the number reader behind
    [pd.to_numeric], the class [\d] of the regular expressions (the
    decimal digits of Unicode) and [DataFrame.pivot_table]. *)

Module SlaUpload.
Import Upload.

(** The failures of the request. *)
Inductive sla_error :=
| SlaUnsupportedFileType   (* 400 "Only CSV supported" *)
| MissingCompanyColumn     (* 400 "Missing required column: 'CRM Company'" *)
| NoSeverityColumns        (* 400 "Expected columns like ..." *)
| KeyErrorMinutes.         (* [dropna(subset=["minutes"])] on a frame
                              without columns raises KeyError *)

(** The response [{"companies": _, "rows": _}] or the failure. *)
Inductive sla_result :=
| SlaOk (companies rows : nat)
| SlaErr (e : sla_error).

Inductive kind := FirstResponse | Resolution.

(** A line of the SLA matrix: its company cell and, by header, its other
    cells. *)
Record sla_line := mkLine {
  line_company : option pystr;
  line_cell : pystr -> cell
}.

Record sla_frame := mkSlaFrame {
  sla_columns : list pystr;
  sla_lines : list sla_line
}.

(** A row of [tidy] once [minutes] is a number. *)
Record tidy_row := mkTidy {
  tidy_company : pystr;
  tidy_severity : pystr;
  tidy_kind : kind;
  tidy_minutes : F64.float
}.

(** *** The header pattern

    [re.match(r"Severity\s*(\d)\s*(First Response|Resolution)", c,
    flags=re.I)] *)

(** The character [c] matches the letter [p] of the pattern under [re.I]:
    the two cases of the letter and, on text patterns, the dotted capital
    and the dotless small i for [i], the long s for [s] and the Kelvin
    sign for [k]. *)
Definition ci (p c : pychar) : bool :=
  ((lower_char c =? lower_char p)
   || ((lower_char p =? 105) && ((c =? 304) || (c =? 305)))
   || ((lower_char p =? 115) && (c =? 383))
   || ((lower_char p =? 107) && (c =? 8490)))%N.

(** The literal [pat] at the head of [s]; what follows it. *)
Fixpoint ci_prefix (pat s : pystr) : option pystr :=
  match pat with
  | [] => Some s
  | p :: pat' =>
      match s with
      | c :: s' => if ci p c then ci_prefix pat' s' else None
      | [] => None
      end
  end.

(** [\s*] followed by [k], the longest run of white space tried first. *)
Fixpoint spaces_then {A} (k : pystr -> option A) (s : pystr) : option A :=
  match s with
  | c :: s' =>
      match (if isspace c then spaces_then k s' else None) with
      | Some r => Some r
      | None => k s
      end
  | [] => k []
  end.

(** [(First Response|Resolution)]: the text the group holds. *)
Definition alternative (s : pystr) : option pystr :=
  match ci_prefix (py "First Response") s with
  | Some _ => Some (firstn 14 s)
  | None =>
      match ci_prefix (py "Resolution") s with
      | Some _ => Some (firstn 10 s)
      | None => None
      end
  end.

Section WithLibrary.

Variable isdecimal : pychar -> bool.
Variable parse_number : pystr -> option num.
Variable pivot_table : list tidy_row -> list sla_row.

(** [(\d)\s*(First Response|Resolution)] *)
Definition digit_then (s : pystr) : option (pychar * pystr) :=
  match s with
  | d :: s' =>
      if isdecimal d
      then match spaces_then alternative s' with
           | Some g2 => Some (d, g2)
           | None => None
           end
      else None
  | [] => None
  end.

(** The match object: its groups 1 and 2. *)
Definition re_match (header : pystr) : option (pychar * pystr) :=
  match ci_prefix (py "Severity") header with
  | Some rest => spaces_then digit_then rest
  | None => None
  end.

(** [str.lower()] on a character that group 2 can hold: the dotted capital
    I lowers to an i followed by a combining dot. *)
Definition lower_matched (c : pychar) : pystr :=
  if (c =? 304)%N then [105%N; 775%N] else [lower_char c].

Definition startswith (s prefix : pystr) : bool :=
  pystr_eqb (firstn (List.length prefix) s) prefix.

(** ["first_response" if m.group(2).lower().startswith("first") else
    "resolution"] *)
Definition kind_of (g2 : pystr) : kind :=
  if startswith (flat_map lower_matched g2) (py "first")
  then FirstResponse else Resolution.

(** Lines 140-148: the columns that hold minutes, each with its severity
    label and its kind. *)
Definition sla_cols (columns : list pystr) : list (pystr * pystr * kind) :=
  flat_map
    (fun c =>
       if pystr_eqb c (py "CRM Company") then []
       else match re_match c with
            | Some (d, g2) => [(c, py "Severity " ++ [d], kind_of g2)]
            | None => []
            end)
    columns.

(** Lines 157-166: one entry per line and column; [None] is NaN. *)
Definition melt (cols : list (pystr * pystr * kind)) (lines : list sla_line)
  : list (pystr * pystr * kind * option num) :=
  flat_map
    (fun line =>
       map (fun col : pystr * pystr * kind =>
              (Normalizer.normalize_company (line_company line),
               snd (fst col), snd col,
               to_numeric parse_number (line_cell line (fst (fst col)))))
           cols)
    lines.

(** [.dropna(subset=["minutes"]).astype({"minutes": float})] *)
Definition numeric (tidy : list (pystr * pystr * kind * option num))
  : list tidy_row :=
  map (fun e => mkTidy (fst (fst (fst e))) (snd (fst (fst e))) (snd (fst e))
                       (as_float (snd e)))
      (filter (fun e => negb (F64.is_nan (as_float (snd e)))) tidy).

(** [sla['crm_company'].nunique()]: the distinct values, a missing one not
    counted. *)
Definition nunique (sla : list sla_row) : nat :=
  List.length
    (nodup (list_eq_dec N.eq_dec)
       (flat_map (fun r => match sla_company r with
                           | Some s => [s]
                           | None => []
                           end) sla)).

(** The pivot has a [resolution] column when some entry of that kind has a
    mean: [pivot_table] leaves out a column whose entries are all NaN. *)
Definition has_resolution (sla : list sla_row) : bool :=
  existsb (fun r => negb (F64.is_nan (resolution r))) sla.

(** [upload_sla]: the response or the failure, and the store afterwards. *)
Definition upload_sla (filename : pystr) (s : sla_frame) (st : store)
  : sla_result * store :=
  if negb (endswith (lower filename) (py ".csv"))
  then (SlaErr SlaUnsupportedFileType, st)
  else if negb (mem (py "CRM Company") (sla_columns s))
  then (SlaErr MissingCompanyColumn, st)
  else
    match sla_cols (sla_columns s) with
    | [] => (SlaErr NoSeverityColumns, st)
    | cols =>
        match melt cols (sla_lines s) with
        | [] => (SlaErr KeyErrorMinutes, st)
        | tidy =>
            let sla := pivot_table (numeric tidy) in
            (SlaOk (nunique sla) (List.length sla),
             mkStore (tickets_parquet st) (Some sla)
                     (summary_stored st) (has_resolution sla))
        end
    end.

End WithLibrary.

End SlaUpload.

Module SlaFacts.
Import Upload SlaUpload.

Lemma ci_same_letter p c : lower_char c = lower_char p -> ci p c = true.
Proof.
  intros E. unfold ci. rewrite E, N.eqb_refl. reflexivity.
Qed.

(** A text that differs from the literal by the case of its ASCII letters
    matches it. *)
Lemma ci_prefix_lower pat : forall name rest,
  lower name = lower pat -> ci_prefix pat (name ++ rest) = Some rest.
Proof.
  induction pat as [|p pat IH]; intros [|c name] rest E; try discriminate.
  - reflexivity.
  - simpl in E. injection E as Ec En.
    simpl. rewrite (ci_same_letter p c Ec). now apply IH.
Qed.

Lemma firstn_exact {A} (l r : list A) : firstn (List.length l) (l ++ r) = l.
Proof.
  rewrite firstn_app, Nat.sub_diag, firstn_all. simpl. apply app_nil_r.
Qed.

Lemma spaces_then_skip {A} (k : pystr -> option A) w s r :
  forallb isspace w = true ->
  spaces_then k s = Some r -> spaces_then k (w ++ s) = Some r.
Proof.
  induction w as [|c w IH]; intros Hw H; [exact H|].
  simpl in Hw. apply andb_prop in Hw. destruct Hw as [Hc Hw].
  simpl. rewrite Hc, (IH Hw H). reflexivity.
Qed.

Lemma spaces_then_here {A} (k : pystr -> option A) c s :
  isspace c = false -> spaces_then k (c :: s) = k (c :: s).
Proof. intros H. simpl. now rewrite H. Qed.

(** A match of [\s*] followed by [k] is a match of [k] somewhere. *)
Lemma spaces_then_some {A} (k : pystr -> option A) s r :
  spaces_then k s = Some r -> exists t, k t = Some r.
Proof.
  induction s as [|c s IH]; simpl; [eauto|].
  destruct (isspace c).
  - destruct (spaces_then k s) as [r'|]; [|eauto].
    intros H. inversion H. subst. now apply IH.
  - eauto.
Qed.

Lemma spaces_then_none {A} (k : pystr -> option A) w s :
  forallb isspace w = true ->
  k s = None ->
  (forall c v, isspace c = true -> k (c :: v) = None) ->
  (forall c t, s = c :: t -> isspace c = false) ->
  spaces_then k (w ++ s) = None.
Proof.
  intros Hw Hk Hsp Hs. induction w as [|c w IH].
  - simpl. destruct s as [|c t]; [exact Hk|].
    rewrite spaces_then_here by (now apply (Hs c t)). exact Hk.
  - simpl in Hw. apply andb_prop in Hw. destruct Hw as [Hc Hw].
    simpl. rewrite Hc, (IH Hw). now apply Hsp.
Qed.

Lemma lower_ascii_letter c l :
  lower_char c = l -> (97 <=? l)%N && (l <=? 122)%N = true ->
  c <> 304%N /\ isspace c = false.
Proof.
  intros E Hl. apply andb_prop in Hl. destruct Hl as [H1 H2].
  apply N.leb_le in H1, H2. unfold lower_char in E.
  destruct ((65 <=? c) && (c <=? 90))%N eqn:Eu.
  - apply andb_prop in Eu. destruct Eu as [U1 U2].
    apply N.leb_le in U1, U2. split; [lia|].
    unfold isspace.
    repeat (apply orb_false_intro);
      try (apply andb_false_iff; rewrite !N.leb_gt; lia);
      apply N.eqb_neq; lia.
  - subst l. split; [lia|].
    unfold isspace.
    repeat (apply orb_false_intro);
      try (apply andb_false_iff; rewrite !N.leb_gt; lia);
      apply N.eqb_neq; lia.
Qed.

(** On a text made of ASCII letters and spaces, [str.lower()] is the
    lowering of each letter. *)
Lemma lower_matched_ascii name l :
  lower name = l ->
  forallb (fun c => ((97 <=? c) && (c <=? 122) || (c =? 32))%N) l = true ->
  flat_map lower_matched name = l.
Proof.
  revert l. induction name as [|c name IH]; intros l E Hl; simpl in E;
    subst l; [reflexivity|].
  simpl in Hl. apply andb_prop in Hl. destruct Hl as [Hc Hl].
  simpl. rewrite (IH _ eq_refl Hl). unfold lower_matched.
  destruct (c =? 304)%N eqn:E; [|reflexivity].
  apply N.eqb_eq in E. subst c. discriminate.
Qed.

Lemma nodup_length {A} (dec : forall x y : A, {x = y} + {x <> y}) l :
  (List.length (nodup dec l) <= List.length l)%nat.
Proof.
  induction l as [|a l IH]; simpl; [lia|].
  destruct (in_dec dec a l); simpl; lia.
Qed.

Lemma nunique_le sla : (nunique sla <= List.length sla)%nat.
Proof.
  unfold nunique.
  eapply Nat.le_trans; [apply nodup_length|].
  induction sla as [|r sla IH]; [simpl; lia|].
  cbn [flat_map]. rewrite length_app.
  destruct (sla_company r); cbn [List.length].
  - apply le_n_S. exact IH.
  - apply le_S. exact IH.
Qed.

Lemma melt_nil cols lines :
  forall pn, cols <> [] -> melt pn cols lines = [] -> lines = [].
Proof.
  intros pn Hc H. destruct lines as [|line lines]; [reflexivity|].
  destruct cols as [|col cols]; [congruence|]. discriminate.
Qed.

End SlaFacts.

Module SampleSla.

(** The decimal digits of ASCII. *)
Definition isdecimal (c : pychar) : bool := ((48 <=? c) && (c <=? 57))%N.

(** A pivot that keeps the entries of kind [Resolution] as they come. *)
Definition pivot_table (tidy : list SlaUpload.tidy_row) : list sla_row :=
  flat_map
    (fun r => match SlaUpload.tidy_kind r with
              | SlaUpload.Resolution =>
                  [ mkSla (Some (SlaUpload.tidy_company r))
                          (Some (SlaUpload.tidy_severity r))
                          F64.nan (SlaUpload.tidy_minutes r) ]
              | SlaUpload.FirstResponse => []
              end)
    tidy.

(** The ASCII digits are neither white space nor the letters F and R. *)
Lemma digits_apart c :
  isdecimal c = true ->
  isspace c = false
  /\ SlaUpload.ci 70%N c = false /\ SlaUpload.ci 82%N c = false.
Proof.
  unfold isdecimal. intros H. apply andb_prop in H. destruct H as [H1 H2].
  apply N.leb_le in H1, H2.
  assert (E : (c = 48 \/ c = 49 \/ c = 50 \/ c = 51 \/ c = 52 \/ c = 53
               \/ c = 54 \/ c = 55 \/ c = 56 \/ c = 57)%N) by lia.
  repeat (destruct E as [->|E]; [repeat split|]); subst; repeat split.
Qed.

End SampleSla.


(** X25. The severity headers of the SLA matrix are read whatever their
    case and spacing.  A header made of [Severity], any white space, one
    decimal digit [d], any white space, then [First Response] or
    [Resolution], the words in any mix of upper and lower case, followed
    by anything, is a minutes column with the severity label
    ["Severity d"] and the kind it names. *)
Theorem severity_headers_are_read_in_any_case_and_spacing :
  forall (isdecimal : pychar -> bool)
         (sev w1 w2 name rest : pystr) (d : pychar),
    Upload.lower sev = py "severity" ->
    forallb isspace w1 = true -> forallb isspace w2 = true ->
    isdecimal d = true -> isspace d = false ->
    Upload.lower name = py "first response"
    \/ Upload.lower name = py "resolution" ->
    SlaUpload.sla_cols isdecimal [sev ++ w1 ++ [d] ++ w2 ++ name ++ rest]
    = [ (sev ++ w1 ++ [d] ++ w2 ++ name ++ rest,
         py "Severity " ++ [d],
         if pystr_eqb (Upload.lower name) (py "resolution")
         then SlaUpload.Resolution else SlaUpload.FirstResponse) ].
Proof.
  intros dg sev w1 w2 name rest d Hsev Hw1 Hw2 Hd Hds Hname.
  set (header := sev ++ w1 ++ [d] ++ w2 ++ name ++ rest).
  unfold SlaUpload.sla_cols. simpl flat_map. rewrite app_nil_r.
  assert (Hcrm : pystr_eqb header (py "CRM Company") = false).
  { destruct (pystr_eqb header (py "CRM Company")) eqn:E; auto.
    apply UpsertProps.pystr_eqb_eq in E. unfold header in E.
    destruct sev as [|c sev]; [discriminate|].
    change (py "severity") with (115%N :: py "everity") in Hsev.
    change (py "CRM Company") with (67%N :: py "RM Company") in E.
    simpl in Hsev, E. injection Hsev as Hc _. injection E as Hc' _.
    subst c. discriminate. }
  rewrite Hcrm.
  assert (Halt : SlaUpload.alternative (name ++ rest) = Some name).
  { unfold SlaUpload.alternative. destruct Hname as [Hn|Hn].
    - rewrite (SlaFacts.ci_prefix_lower (py "First Response") name rest)
        by (rewrite Hn; reflexivity).
      assert (L : List.length name = 14%nat).
      { rewrite <- (length_map Upload.lower_char name).
        fold (Upload.lower name). now rewrite Hn. }
      rewrite <- L. now rewrite SlaFacts.firstn_exact.
    - destruct name as [|c name]; [discriminate|].
      change (py "resolution") with (114%N :: py "esolution") in Hn.
      simpl in Hn. injection Hn as Hc Hn'.
      assert (Hf : SlaUpload.ci_prefix (py "First Response")
                     ((c :: name) ++ rest) = None).
      { simpl. unfold SlaUpload.ci. rewrite Hc. simpl.
        destruct (c =? 304)%N eqn:E1;
          [apply N.eqb_eq in E1; subst c; discriminate|].
        destruct (c =? 305)%N eqn:E2;
          [apply N.eqb_eq in E2; subst c; discriminate|].
        reflexivity. }
      rewrite Hf.
      rewrite (SlaFacts.ci_prefix_lower (py "Resolution") (c :: name) rest)
        by (simpl; rewrite Hc, Hn'; reflexivity).
      assert (L : List.length (c :: name) = 10%nat).
      { rewrite <- (length_map Upload.lower_char (c :: name)).
        simpl map. fold (Upload.lower name). now rewrite Hc, Hn'. }
      rewrite <- L. now rewrite SlaFacts.firstn_exact. }
  assert (Hsp : exists c, hd_error name = Some c /\ isspace c = false).
  { destruct name as [|c name]; [destruct Hname; discriminate|].
    exists c. split; [reflexivity|].
    destruct Hname as [Hn|Hn].
    - change (py "first response") with (102%N :: py "irst response") in Hn.
      simpl in Hn. injection Hn as Hc _.
      now apply (SlaFacts.lower_ascii_letter c _ Hc).
    - change (py "resolution") with (114%N :: py "esolution") in Hn.
      simpl in Hn. injection Hn as Hc _.
      now apply (SlaFacts.lower_ascii_letter c _ Hc). }
  assert (Hm : SlaUpload.re_match dg header = Some (d, name)).
  { unfold SlaUpload.re_match, header.
    rewrite (SlaFacts.ci_prefix_lower (py "Severity") sev _)
      by (rewrite Hsev; reflexivity).
    apply SlaFacts.spaces_then_skip; [exact Hw1|].
    simpl app. rewrite SlaFacts.spaces_then_here by exact Hds.
    unfold SlaUpload.digit_then. rewrite Hd.
    rewrite (SlaFacts.spaces_then_skip SlaUpload.alternative w2
               (name ++ rest) name Hw2); [reflexivity|].
    destruct Hsp as [c [Hc Hcs]]. destruct name as [|c' name];
      [discriminate|]. inversion Hc. subst c'.
    simpl app. rewrite SlaFacts.spaces_then_here by exact Hcs.
    exact Halt. }
  rewrite Hm. do 2 f_equal.
  unfold SlaUpload.kind_of, SlaUpload.startswith.
  destruct Hname as [Hn|Hn]; rewrite Hn.
  - rewrite (SlaFacts.lower_matched_ascii name _ Hn); reflexivity.
  - rewrite (SlaFacts.lower_matched_ascii name _ Hn); reflexivity.
Qed.

Lemma severity_headers_are_read_in_any_case_and_spacing_witness :
  SlaUpload.sla_cols SampleSla.isdecimal
    [ py "SEVERITY" ++ [9%N] ++ py "3" ++ py "  " ++ py "resolution"
      ++ py " (minutes)" ]
  = [ (py "SEVERITY" ++ [9%N] ++ py "3" ++ py "  " ++ py "resolution"
       ++ py " (minutes)",
       py "Severity " ++ py "3",
       if pystr_eqb (Upload.lower (py "resolution")) (py "resolution")
       then SlaUpload.Resolution else SlaUpload.FirstResponse) ].
Proof.
  apply (severity_headers_are_read_in_any_case_and_spacing
           SampleSla.isdecimal (py "SEVERITY") [9%N] (py "  ")
           (py "resolution") (py " (minutes)") 51%N);
    try reflexivity.
  right. reflexivity.
Defined.

(** X26. A severity of two digits is not read.  When the decimal digits
    are neither white space nor one of the letters F and R, a header in
    which [Severity] and white space are followed by two digits in a row
    is no minutes column: the file is read as if the column were
    absent. *)
Theorem two_digit_severity_headers_are_ignored :
  forall (isdecimal : pychar -> bool) (sev w rest : pystr) (d1 d2 : pychar),
    (forall c, isdecimal c = true ->
               isspace c = false
               /\ SlaUpload.ci 70%N c = false /\ SlaUpload.ci 82%N c = false) ->
    List.length sev = 8%nat ->
    forallb isspace w = true ->
    isdecimal d1 = true -> isdecimal d2 = true ->
    SlaUpload.sla_cols isdecimal [sev ++ w ++ d1 :: d2 :: rest] = [].
Proof.
  intros dg sev w rest d1 d2 Hsep Hlen Hw H1 H2.
  unfold SlaUpload.sla_cols. simpl flat_map. rewrite app_nil_r.
  destruct (pystr_eqb _ (py "CRM Company")); [reflexivity|].
  assert (Hm : SlaUpload.re_match dg (sev ++ w ++ d1 :: d2 :: rest) = None).
  { unfold SlaUpload.re_match.
    destruct sev as [|a1 [|a2 [|a3 [|a4 [|a5 [|a6 [|a7 [|a8 [|a9 sev]]]]]]]]];
      try discriminate.
    destruct (SlaUpload.ci_prefix (py "Severity")
                ([a1; a2; a3; a4; a5; a6; a7; a8] ++ w ++ d1 :: d2 :: rest))
      as [r|] eqn:E; [|reflexivity].
    assert (Er : r = w ++ d1 :: d2 :: rest).
    { simpl in E.
      repeat match type of E with
             | (if ?b then _ else _) = _ => destruct b; [|discriminate]
             end.
      now inversion E. }
    subst r.
    apply SlaFacts.spaces_then_none; [exact Hw| | |].
    - destruct (Hsep d2 H2) as [Hs [HF HR]].
      unfold SlaUpload.digit_then. rewrite H1.
      rewrite SlaFacts.spaces_then_here by exact Hs.
      unfold SlaUpload.alternative. simpl. rewrite HF, HR. reflexivity.
    - intros c v Hc. simpl.
      destruct (dg c) eqn:Ed; [|reflexivity].
      destruct (Hsep c Ed) as [Hs _]. congruence.
    - intros c t E'. inversion E'. subst. now apply (Hsep c). }
  now rewrite Hm.
Qed.

Lemma two_digit_severity_headers_are_ignored_witness :
  SlaUpload.sla_cols SampleSla.isdecimal
    [ py "Severity" ++ py " " ++ 49%N :: 48%N :: py " Resolution" ]
  = [].
Proof.
  apply (two_digit_severity_headers_are_ignored
           SampleSla.isdecimal (py "Severity") (py " ") (py " Resolution")
           49%N 48%N); try reflexivity.
  exact SampleSla.digits_apart.
Defined.

(** X27. Every minutes column carries a canonical severity label.  The
    columns the upload reads are headers of the file other than
    [CRM Company], and the label of each is the text ["Severity "]
    followed by one decimal digit, however the header spells it. *)
Theorem minutes_columns_get_canonical_severity_labels :
  forall (isdecimal : pychar -> bool) (columns : list pystr),
    Forall
      (fun col : pystr * pystr * SlaUpload.kind =>
         In (fst (fst col)) columns
         /\ fst (fst col) <> py "CRM Company"
         /\ exists d : pychar,
              isdecimal d = true
              /\ snd (fst col) = py "Severity " ++ [d])
      (SlaUpload.sla_cols isdecimal columns).
Proof.
  intros dg columns. apply Forall_forall. intros col Hcol.
  unfold SlaUpload.sla_cols in Hcol. apply in_flat_map in Hcol.
  destruct Hcol as [c [Hc Hin]].
  destruct (pystr_eqb c (py "CRM Company")) eqn:Ecrm; [contradiction|].
  destruct (SlaUpload.re_match dg c) as [[d g2]|] eqn:Em; [|contradiction].
  destruct Hin as [<-|[]]. simpl. split; [exact Hc|]. split.
  - intros ->. rewrite (proj2 (UpsertProps.pystr_eqb_eq _ _) eq_refl) in Ecrm.
    discriminate.
  - exists d. split; [|reflexivity].
    unfold SlaUpload.re_match in Em.
    destruct (SlaUpload.ci_prefix (py "Severity") c); [|discriminate].
    apply SlaFacts.spaces_then_some in Em. destruct Em as [t Et].
    unfold SlaUpload.digit_then in Et. destruct t as [|d' t]; [discriminate|].
    destruct (dg d') eqn:Ed; [|discriminate].
    destruct (SlaUpload.spaces_then SlaUpload.alternative t); [|discriminate].
    inversion Et. now subst.
Qed.

(** X28. What reaches the pivot.  Every entry of the tidy table that the
    upload hands to [pivot_table] comes from a line and a minutes column
    of the file; its company is the normalised company of the line, in
    normal form; its severity and kind are those of the column; and its
    minutes are the number read from the cell, never NaN: a cell that is
    empty or not a number gives no entry. *)
Theorem tidy_entries_hold_numbers_under_normalised_companies :
  forall (parse_number : pystr -> option num)
         (cols : list (pystr * pystr * SlaUpload.kind))
         (lines : list SlaUpload.sla_line),
    Forall
      (fun r : SlaUpload.tidy_row =>
         Normalizer.normalize_company (Some (SlaUpload.tidy_company r))
         = SlaUpload.tidy_company r
         /\ F64.is_nan (SlaUpload.tidy_minutes r) = false
         /\ exists col line,
              In col cols /\ In line lines
              /\ SlaUpload.tidy_company r
                 = Normalizer.normalize_company (SlaUpload.line_company line)
              /\ SlaUpload.tidy_severity r = snd (fst col)
              /\ SlaUpload.tidy_kind r = snd col
              /\ SlaUpload.tidy_minutes r
                 = Upload.as_float
                     (Upload.to_numeric parse_number
                        (SlaUpload.line_cell line (fst (fst col)))))
      (SlaUpload.numeric (SlaUpload.melt parse_number cols lines)).
Proof.
  intros pn cols lines. apply Forall_forall. intros r Hr.
  unfold SlaUpload.numeric in Hr. apply in_map_iff in Hr.
  destruct Hr as [e [<- He]]. apply filter_In in He.
  destruct He as [He Hnum]. unfold SlaUpload.melt in He.
  apply in_flat_map in He. destruct He as [line [Hline He]].
  apply in_map_iff in He. destruct He as [col [<- Hcol]]. simpl in *.
  split; [apply NormalizerFacts.normalize_fixed|].
  split; [now apply negb_true_iff in Hnum|].
  exists col, line. repeat split; assumption.
Qed.

(** A header whose [First] is written with a dotless i matches under
    [re.I], and its text does not lower to ["first..."]: the column is
    read as a resolution column. *)
Example dotless_first_response_is_read_as_resolution :
  SlaUpload.sla_cols SampleSla.isdecimal
    [ py "Severity 1 F" ++ [305%N] ++ py "rst Response" ]
  = [ (py "Severity 1 F" ++ [305%N] ++ py "rst Response",
       py "Severity 1", SlaUpload.Resolution) ].
Proof. vm_compute. reflexivity. Qed.

(** ** The reopen counts of a batch *)

Module CastFacts.
Import Upload UploadProps.

Lemma sequence_none {A} (l : list (option A)) :
  sequence l = None <-> In None l.
Proof.
  induction l as [|[a|] l IH]; simpl.
  - split; [discriminate|contradiction].
  - destruct (sequence l) as [r|].
    + split; [discriminate|]. intros [H|H]; [discriminate|].
      apply IH in H. discriminate.
    + split; [|reflexivity]. intros _. right. now apply IH.
  - split; auto.
Qed.

(** The cast of a cell fails on the two infinities only: NaN has become 0
    before. *)
Lemma cast_fails v :
  cast_int64 (fillna0 (as_float v)) = None
  <-> F64.is_inf (as_float v) = true.
Proof.
  unfold cast_int64, fillna0.
  destruct (as_float v) as [s|s| |s m e]; simpl; split;
    try discriminate; reflexivity.
Qed.

(** An integer column holds no infinity. *)
Lemma int_not_inf v : is_int v = true -> F64.is_inf (as_float v) = false.
Proof.
  destruct v as [[z|f]|]; simpl; try discriminate. intros H.
  apply andb_true_iff in H. destruct H as [H1 H2].
  apply Z.leb_le in H1. apply Z.leb_le in H2.
  unfold INT64_MIN, UINT64_MAX in *.
  assert (B : F64Mag.mag_le (65 + 1) (F64.of_Z z))
    by (apply F64Mag.of_Z_bound; lia).
  apply F64Mag.mag_le_finite in B.
  destruct (F64.of_Z z); try discriminate; reflexivity.
Qed.

Section WithParsers.
Variable parse_number : pystr -> option num.

Lemma reopen_counts_none col :
  reopen_counts parse_number col = None
  <-> (exists c, In c col /\ is_int (to_numeric parse_number c) = false)
      /\ (exists c, In c col
                    /\ F64.is_inf (as_float (to_numeric parse_number c))
                       = true).
Proof.
  assert (Hint : forall c, In c col ->
            is_int (to_numeric parse_number c) = false ->
            column_dtype (map (to_numeric parse_number) col) = Float64).
  { intros c Hc Hn.
    destruct (column_dtype (map (to_numeric parse_number) col)) eqn:Edt;
      [| |reflexivity];
      (assert (Hd : forallb is_int (map (to_numeric parse_number) col)
                    = true)
         by (apply UploadProps.column_dtype_int; congruence));
      rewrite forallb_forall in Hd;
      rewrite (Hd (to_numeric parse_number c)) in Hn
        by (now apply in_map); discriminate. }
  unfold reopen_counts. split.
  - destruct (column_dtype (map (to_numeric parse_number) col));
      try discriminate.
    rewrite sequence_none, in_map_iff. intros [v [Hv Hin]].
    apply in_map_iff in Hin. destruct Hin as [c [<- Hc]].
    apply cast_fails in Hv.
    split; exists c; (split; [exact Hc|]); [|exact Hv].
    destruct (is_int (to_numeric parse_number c)) eqn:Ei; [|reflexivity].
    apply int_not_inf in Ei. congruence.
  - intros [[c [Hc Hn]] [c' [Hc' Hinf]]].
    rewrite (Hint c Hc Hn). rewrite sequence_none, in_map_iff.
    exists (to_numeric parse_number c'). split.
    + now apply cast_fails.
    + now apply in_map.
Qed.

End WithParsers.

Lemma Forall2_In_l {A B} (P : A -> B -> Prop) l r a :
  Forall2 P l r -> In a l -> exists b, In b r /\ P a b.
Proof.
  induction 1 as [|a' b' l r Hab F IH]; simpl; [contradiction|].
  intros [->|H]; [exists b'; auto|].
  destruct (IH H) as [b [Hb Hp]]. exists b. auto.
Qed.

(** The lines of the file after the company column has been normalised:
    key, status and reopen count are those of the file. *)
Lemma normalize_crm_line df r :
  In r (rows df) ->
  exists r', In r' (rows (normalize_crm df))
             /\ raw_issue_key r' = raw_issue_key r
             /\ raw_status r' = raw_status r
             /\ raw_reopen_count r' = raw_reopen_count r.
Proof.
  intros H. unfold normalize_crm. destruct (mem _ _).
  - eexists. split; [simpl; apply in_map; exact H|]. auto.
  - exists r. auto.
Qed.

Lemma normalize_crm_line_inv df r' :
  In r' (rows (normalize_crm df)) ->
  exists r, In r (rows df)
            /\ raw_issue_key r' = raw_issue_key r
            /\ raw_status r' = raw_status r
            /\ raw_reopen_count r' = raw_reopen_count r.
Proof.
  unfold normalize_crm. destruct (mem _ _).
  - simpl. intros H. apply in_map_iff in H. destruct H as [r [<- Hr]].
    exists r. auto.
  - intros H. exists r'. auto.
Qed.

End CastFacts.

Module SampleCast.

(** The number reader on the texts used below: ["inf"] reads as the
    positive infinity. *)
Definition parse_number (s : pystr) : option num :=
  if pystr_eqb s (py "inf") then Some (NFloat F64.pinf)
  else Sample.parse_number s.

(** A complete file whose only line is closed and counts infinitely many
    reopenings. *)
Definition infinite_reopen : frame :=
  mkFrame EXPECTED_TICKET_COLS
          [ SampleUpload.raw "SUP-6" "Permanently Closed"
                             "18/Aug/25 10:00 AM" "18/Aug/25 1:00 PM"
                             (CText (py "inf")) ].

End SampleCast.

(** X29. The one crash of the ticket upload.  The request ends in the cast
    error of [astype(int)] exactly when the file name and the headers pass
    their checks and, among the permanently closed lines, the reopen
    counts are not all integers and one of them reads as an infinity
    (a missing or unreadable count has become 0 before the cast). *)
Theorem upload_crashes_exactly_on_an_infinite_reopen_count :
  forall (to_datetime : pystr -> timestamp)
         (parse_number : pystr -> option num)
         (filename : pystr) (df : frame) (st : store),
    fst (Upload.upload_tickets to_datetime parse_number filename df st)
    = Err IntCastingNaNError
    <-> Upload.endswith (Upload.lower filename) (py ".csv") = true
        /\ Upload.missing_columns df = []
        /\ (exists r, In r (rows df) /\ UploadFacts.closed_line r = true
                      /\ Upload.is_int
                           (Upload.to_numeric parse_number
                              (raw_reopen_count r)) = false)
        /\ (exists r, In r (rows df) /\ UploadFacts.closed_line r = true
                      /\ F64.is_inf
                           (Upload.as_float
                              (Upload.to_numeric parse_number
                                 (raw_reopen_count r))) = true).
Proof.
  intros td pn name df st.
  assert (Hcol : forall (P : cell -> Prop),
            (exists c, In c (map snd (Upload.candidates td
                                        (Upload.normalize_crm df))) /\ P c)
            <-> exists r, In r (rows df) /\ UploadFacts.closed_line r = true
                          /\ P (raw_reopen_count r)).
  { intros P. split.
    - intros [c [Hc HP]]. apply in_map_iff in Hc.
      destruct Hc as [p [<- Hp]]. unfold Upload.candidates in Hp.
      apply filter_In in Hp. destruct Hp as [Hp Hcl].
      apply in_map_iff in Hp. destruct Hp as [r' [<- Hr']].
      destruct (CastFacts.normalize_crm_line_inv df r' Hr')
        as [r [Hr [_ [Hs Hrc]]]].
      exists r. split; [exact Hr|]. split.
      + unfold UploadFacts.closed_line. rewrite <- Hs. exact Hcl.
      + rewrite <- Hrc. exact HP.
    - intros [r [Hr [Hcl HP]]].
      destruct (CastFacts.normalize_crm_line df r Hr)
        as [r' [Hr' [_ [Hs Hrc]]]].
      exists (raw_reopen_count r'). split; [|now rewrite Hrc].
      apply in_map_iff.
      exists (Upload.select_rename td (Upload.normalize_crm df) r').
      split; [reflexivity|]. unfold Upload.candidates.
      apply filter_In. split; [now apply in_map|].
      unfold UploadFacts.closed_line in Hcl. rewrite <- Hs in Hcl.
      exact Hcl. }
  pose proof (CastFacts.reopen_counts_none pn
                (map snd (Upload.candidates td (Upload.normalize_crm df))))
    as Hnone.
  rewrite (Hcol (fun c => Upload.is_int (Upload.to_numeric pn c) = false)),
          (Hcol (fun c => F64.is_inf (Upload.as_float (Upload.to_numeric pn c))
                          = true)) in Hnone.
  unfold Upload.upload_tickets.
  destruct (Upload.endswith (Upload.lower name) (py ".csv")); simpl;
    [|split; [discriminate|intros [H _]; discriminate]].
  rewrite UploadProps.missing_columns_normalize.
  destruct (Upload.missing_columns df) as [|h hs]; simpl;
    [|split; [discriminate|intros [_ [H _]]; discriminate]].
  unfold Upload.prepare.
  destruct (Upload.reopen_counts pn
              (map snd (Upload.candidates td (Upload.normalize_crm df))))
    as [rcs|]; simpl.
  - split; [discriminate|]. intros [_ [_ H]].
    apply Hnone in H. discriminate.
  - split; [|reflexivity]. intros _.
    split; [reflexivity|]. split; [reflexivity|]. now apply Hnone.
Qed.

(** The same on a file whose only closed line counts ["inf"]
    reopenings. *)
Example infinite_reopen_count_crashes_the_upload :
  Upload.upload_tickets Sample.to_datetime SampleCast.parse_number
    (py "tickets.csv") SampleCast.infinite_reopen empty_store
  = (Err IntCastingNaNError, empty_store).
Proof. vm_compute. reflexivity. Qed.

(** X30. What is uploaded can be found.  After a successful ticket upload,
    every line of the file whose status is ["Permanently Closed"] has a
    stored row under its issue key. *)
Theorem closed_lines_are_stored_under_their_key :
  forall (to_datetime : pystr -> timestamp)
         (parse_number : pystr -> option num)
         (filename : pystr) (df : frame) (st st' : store)
         (response : nat * nat) (r : raw_ticket),
    Upload.upload_tickets to_datetime parse_number filename df st
    = (Ok response, st') ->
    In r (rows df) ->
    UploadFacts.closed_line r = true ->
    exists t : ticket,
      In t (Upload.current st') /\ issue_key t = raw_issue_key r.
Proof.
  intros td pn name df st st' resp r Hup Hr Hcl.
  destruct (UploadFacts.upload_cases td pn name df st)
    as [[e E]|[new [_ [_ [Hb E]]]]]; rewrite E in Hup; [discriminate|].
  inversion Hup. subst. clear Hup.
  destruct (CastFacts.normalize_crm_line df r Hr) as [r' [Hr' [Hk [Hs _]]]].
  assert (Hp : In (Upload.select_rename td (Upload.normalize_crm df) r')
                  (Upload.candidates td (Upload.normalize_crm df))).
  { unfold Upload.candidates. apply filter_In. split; [now apply in_map|].
    unfold UploadFacts.closed_line in Hcl. rewrite <- Hs in Hcl. exact Hcl. }
  apply UploadProps.prepare_rows in Hb.
  destruct (CastFacts.Forall2_In_l _ _ _ _ Hb Hp) as [t0 [Ht0 [Hc _]]].
  destruct (UpsertProps.upsert_covers (Upload.current st) new t0)
    as [t [Ht Htk]]; [apply in_or_app; now right|].
  exists t. split; [exact Ht|].
  rewrite Htk. change (issue_key (cols t0) = raw_issue_key r).
  rewrite Hc. simpl. exact Hk.
Qed.

Lemma closed_lines_are_stored_under_their_key_witness :
  exists t : ticket,
    In t (Upload.current
            (snd (SampleUpload.upload (py "tickets.csv") SampleUpload.mixed
                                      SampleStore.one_ticket)))
    /\ issue_key t
       = raw_issue_key
           (SampleUpload.raw "SUP-2" "Permanently Closed"
                             "18/Aug/25 10:00 AM" "18/Aug/25 12:00 PM" CNaN).
Proof.
  apply (closed_lines_are_stored_under_their_key
           Sample.to_datetime Sample.parse_number (py "tickets.csv")
           SampleUpload.mixed SampleStore.one_ticket
           (snd (SampleUpload.upload (py "tickets.csv") SampleUpload.mixed
                                     SampleStore.one_ticket))
           (3%nat, 2%nat)).
  - vm_compute. reflexivity.
  - simpl. right. left. reflexivity.
  - reflexivity.
Defined.
